(** * Mini compiler / interpreter: lexer, recursive-descent parser, evaluator

    A shallow embedding of [mini_compiler.py].  The three stages are kept as
    the program has them: [Lexer.tokenize] turns source text into tokens,
    [Parser.parse] builds the tree, [Interpreter.eval] walks it against a
    mutable environment and an output log, and [run] composes the three and
    catches the four exception classes it names.

    Conventions of the embedding.
    - Source text is a [string]; each character is read as the Unicode code
      point of the same number (0..255), which is how [isspace], [\d] and
      [\w] are tabulated below.
    - A Python [int] is a [Z]; a Python [float] is a binary64 [float] of the
      kernel; [complex] values are pairs of floats.
    - The C library's [pow] and Python's complex arithmetic are inputs of the
      development ([HostMath]); everything else is defined here.
    - Limits of the host.  The digit limit of [int] on a string (4300
      digits) is part of [Lexer.tokenize].  [Parser] and [Interpreter] are
      written without the limit on the depth of calls; [Bounded] is the
      parser again with the call frames counted.  The depth of the calls of
      [eval] and the memory of the host are not modelled.
    - The console.  Of [print] and of the error report of [run] the
      embedding keeps what is stored, the value appended to [output] and
      the exception that was caught.  [Console] is the evaluator and [run]
      again with the line that [print] writes, whose text of an int has the
      same digit limit. *)

From Stdlib Require Import ZArith String Ascii List Bool Lia Floats Sorted.
From stdpp Require Import base gmap strings list.

Open Scope Z_scope.

(* ===================================================================== *)
(** * Values *)
(* ===================================================================== *)

(** What [Interpreter.eval] can return: [None] (statements such as [if] and
    [while], the empty block), an [int], a [float], or the [complex] that
    Python's [**] produces for a negative base and a fractional exponent. *)
Inductive value : Type :=
| VNone
| VInt (z : Z)
| VFloat (f : float)
| VComplex (re im : float).

(* ===================================================================== *)
(** * Tokens *)
(* ===================================================================== *)

Module TokenType.
Inductive t : Set :=
| NUMBER | IDENT | PLUS | MINUS | MUL | DIV | MOD | POW | ASSIGN
| EQ | NEQ | LT | GT | LTE | GTE | LPAREN | RPAREN
| PRINT | IF | ELSE | WHILE | LBRACE | RBRACE | SEMICOL | EOF.

(** The position of the constant in [class TokenType]. *)
Definition tag (k : t) : nat :=
  match k with
  | NUMBER => 0 | IDENT => 1 | PLUS => 2 | MINUS => 3 | MUL => 4
  | DIV => 5 | MOD => 6 | POW => 7 | ASSIGN => 8 | EQ => 9 | NEQ => 10
  | LT => 11 | GT => 12 | LTE => 13 | GTE => 14 | LPAREN => 15
  | RPAREN => 16 | PRINT => 17 | IF => 18 | ELSE => 19 | WHILE => 20
  | LBRACE => 21 | RBRACE => 22 | SEMICOL => 23 | EOF => 24
  end%nat.

Definition eqb (a b : t) : bool := Nat.eqb (tag a) (tag b).
End TokenType.

(** [Token.value]: the number of a NUMBER token, the matched text of every
    other token the lexer builds, [None] for EOF. *)
Inductive TokVal : Type :=
| TNum (v : value)
| TStr (s : string)
| TNone.

Record Token : Type := mkToken {
  type : TokenType.t;
  tvalue : TokVal;
  line : Z
}.

(* ===================================================================== *)
(** * Exceptions *)
(* ===================================================================== *)

(** The three [SyntaxError] messages of the program. *)
Inductive SyntaxMsg : Type :=
| LexerUnknownChar (char : ascii) (at_line : Z)
    (* "[Lexer] Unknown character '{char}' at line {line}" *)
| ParserExpected (ttype : TokenType.t) (got : Token)
    (* "[Parser] Expected {ttype}, got {tok.type} ('{tok.value}') at line {tok.line}" *)
| ParserUnexpected (got : Token).
    (* "[Parser] Unexpected token {tok.type} ('{tok.value}') at line {tok.line}" *)

(** Where a [ZeroDivisionError] comes from: the guard the evaluator wrote
    around [/] ("Division by zero"), or Python's own arithmetic. *)
Inductive ZeroDivOrigin : Set := Guard | Native.

Inductive PyExc : Type :=
| SyntaxError (msg : SyntaxMsg)
| NameError (name : string)          (* "[Runtime] Undefined variable '{name}'" *)
| ZeroDivisionError (origin : ZeroDivOrigin)
| RuntimeError                        (* "Infinite loop detected (>10000 iterations)" *)
| RecursionError                      (* Python's own, when no call frame is left *)
| TypeError
| OverflowError
| ValueError
| KeyError (key : string)
| IndexError.

(** [except (SyntaxError, NameError, ZeroDivisionError, RuntimeError)];
    RecursionError is a subclass of RuntimeError. *)
Definition caught_by_run (e : PyExc) : bool :=
  match e with
  | SyntaxError _ | NameError _ | ZeroDivisionError _ | RuntimeError
  | RecursionError => true
  | TypeError | OverflowError | ValueError | KeyError _ | IndexError => false
  end.

(** Result of a Python built-in: a value or a raised exception. *)
Inductive pyres (A : Type) : Type :=
| Return (a : A)
| Throw (e : PyExc).
Arguments Return {A} a.
Arguments Throw {A} e.

Definition pybind {A B : Type} (m : pyres A) (k : A -> pyres B) : pyres B :=
  match m with
  | Return a => k a
  | Throw e => Throw e
  end.

(** Result of a stage of the program.  [OutOfFuel] and [IllTyped] belong to
    the embedding only.  The recursive functions below are structural on a
    counter, and [OutOfFuel] says that the counter was used up.  [IllTyped]
    is the parser's answer to a token whose value has not the shape the
    lexer gives it (a NUMBER without a number, an identifier or operator
    without its text): Python would copy that value into the tree, and the
    typed tree of this development has no place for it. *)
Inductive result (A : Type) : Type :=
| Ok (a : A)
| Raise (e : PyExc)
| OutOfFuel
| IllTyped.
Arguments Ok {A} a.
Arguments Raise {A} e.
Arguments OutOfFuel {A}.
Arguments IllTyped {A}.

Definition lift {A : Type} (m : pyres A) : result A :=
  match m with
  | Return a => Ok a
  | Throw e => Raise e
  end.

(* ===================================================================== *)
(** * Python numbers *)
(* ===================================================================== *)

(** The part of the host that is not exact arithmetic: the C library's
    [pow] as CPython calls it (after its errno check), and the arithmetic of
    [complex] operands. *)
Record HostMath : Type := {
  libm_pow : float -> float -> pyres float;
  complex_arith : string -> value -> value -> pyres (float * float)
}.

Module Num.

Definition prec : Z := 53.
Definition emax : Z := 1024.

(** [PyLong_AsDouble]: nearest binary64, ties to even; too large an int
    raises OverflowError. *)
Definition int_to_float (z : Z) : pyres float :=
  match binary_normalize prec emax z 0 false with
  | S754_infinity _ => Throw OverflowError
  | sf => Return (SF2Prim sf)
  end.

(** The binary64 nearest to [(-1)^neg * n / d] for [0 <= n], [0 < d],
    ties to even; an infinity when it is out of range. *)
Definition round_ratio (neg : bool) (n d : Z) : spec_float :=
  if n =? 0 then S754_zero neg
  else
    let s := Z.max 0 (64 + Z.log2 d - Z.log2 n) in
    let (q, r) := Z.div_eucl (Z.shiftl n s) d in
    binary_round_aux prec emax neg q (- s) (new_location d r).

(** [int / int] (long_true_divide): the correctly rounded quotient. *)
Definition int_true_divide (a b : Z) : pyres value :=
  if b =? 0 then Throw (ZeroDivisionError Native)
  else
    match round_ratio (xorb (a <? 0) (b <? 0)) (Z.abs a) (Z.abs b) with
    | S754_infinity _ => Throw OverflowError
    | sf => Return (VFloat (SF2Prim sf))
    end.

(** [float.is_integer()] and [int(float)]. *)
Definition float_is_integer (f : float) : bool :=
  match Prim2SF f with
  | S754_zero _ => true
  | S754_finite _ m e => (0 <=? e) || (Z.pos m mod 2 ^ (- e) =? 0)
  | S754_infinity _ | S754_nan => false
  end.

Definition float_to_int (f : float) : pyres Z :=
  match Prim2SF f with
  | S754_zero _ => Return 0
  | S754_finite s m e =>
      Return (cond_Zopp s (if 0 <=? e then Z.pos m * 2 ^ e
                           else Z.pos m / 2 ^ (- e)))
  | S754_infinity _ => Throw OverflowError
  | S754_nan => Throw ValueError
  end.

(** C's [fmod]: the exact remainder, with the sign of [x]. *)
Definition fmod (x y : float) : float :=
  match Prim2SF x, Prim2SF y with
  | S754_nan, _ | _, S754_nan => nan
  | S754_infinity _, _ => nan
  | _, S754_zero _ => nan
  | _, S754_infinity _ => x
  | S754_zero _, _ => x
  | S754_finite sx mx ex, S754_finite _ my ey =>
      let e := Z.min ex ey in
      let r := (Z.pos mx * 2 ^ (ex - e)) mod (Z.pos my * 2 ^ (ey - e)) in
      SF2Prim (binary_normalize prec emax (cond_Zopp sx r) e sx)
  end.

(** DOUBLE_IS_ODD_INTEGER *)
Definition is_odd_integer (x : float) : bool :=
  PrimFloat.eqb (fmod (PrimFloat.abs x) 2) 1.

(** Exact comparison of a float with an int, as float_richcompare does;
    [None] when the float is a NaN. *)
Definition float_cmp_int (f : float) (z : Z) : option comparison :=
  match Prim2SF f with
  | S754_nan => None
  | S754_infinity s => Some (if s then Lt else Gt)
  | S754_zero _ => Some (0 ?= z)
  | S754_finite s m e =>
      let v := cond_Zopp s (Z.pos m) in
      Some (if 0 <=? e then v * 2 ^ e ?= z else v ?= z * 2 ^ (- e))
  end.

Definition float_cmp (x y : float) : option comparison :=
  match PrimFloat.compare x y with
  | FEq => Some Eq
  | FLt => Some Lt
  | FGt => Some Gt
  | FNotComparable => None
  end.

(** Ordering of two real numbers; [None] inside is "unordered" (a NaN).
    [None] and complex operands have no ordering: TypeError. *)
Definition real_compare (a b : value) : pyres (option comparison) :=
  match a, b with
  | VInt x, VInt y => Return (Some (x ?= y))
  | VInt x, VFloat y => Return (option_map CompOpp (float_cmp_int y x))
  | VFloat x, VInt y => Return (float_cmp_int x y)
  | VFloat x, VFloat y => Return (float_cmp x y)
  | _, _ => Throw TypeError
  end.

(** [a == b] *)
Definition py_eq (a b : value) : bool :=
  match a, b with
  | VNone, VNone => true
  | VComplex r1 i1, VComplex r2 i2 => PrimFloat.eqb r1 r2 && PrimFloat.eqb i1 i2
  | VComplex r i, (VInt _ | VFloat _) =>
      PrimFloat.eqb i 0 &&
      match real_compare (VFloat r) b with Return (Some Eq) => true | _ => false end
  | (VInt _ | VFloat _), VComplex r i =>
      PrimFloat.eqb i 0 &&
      match real_compare a (VFloat r) with Return (Some Eq) => true | _ => false end
  | _, _ =>
      match real_compare a b with Return (Some Eq) => true | _ => false end
  end.

Definition py_ne (a b : value) : bool := negb (py_eq a b).

Definition ordering (holds : comparison -> bool) (a b : value) : pyres bool :=
  pybind (real_compare a b) (fun c =>
    Return match c with Some c => holds c | None => false end).

Definition py_lt := ordering (fun c => match c with Lt => true | _ => false end).
Definition py_gt := ordering (fun c => match c with Gt => true | _ => false end).
Definition py_le := ordering (fun c => match c with Gt => false | _ => true end).
Definition py_ge := ordering (fun c => match c with Lt => false | _ => true end).

(** Truth value of an object in [if x] and [while x]. *)
Definition truthy (v : value) : bool :=
  match v with
  | VNone => false
  | VInt z => negb (z =? 0)
  | VFloat f => negb (PrimFloat.eqb f 0)
  | VComplex re im => negb (PrimFloat.eqb re 0) || negb (PrimFloat.eqb im 0)
  end.

(** [int(True)], [int(False)] *)
Definition int_of_bool (b : bool) : value := VInt (if b then 1 else 0).

(** [-v] *)
Definition py_neg (v : value) : pyres value :=
  match v with
  | VNone => Throw TypeError
  | VInt z => Return (VInt (- z))
  | VFloat f => Return (VFloat (- f))
  | VComplex re im => Return (VComplex (- re) (- im))
  end.

Section Arith.
Variable host : HostMath.

(** float_rem *)
Definition float_rem (vx wx : float) : pyres value :=
  if PrimFloat.eqb wx 0 then Throw (ZeroDivisionError Native)
  else
    let m := fmod vx wx in
    Return (VFloat
      (if negb (PrimFloat.eqb m 0) then
         if negb (Bool.eqb (PrimFloat.ltb wx 0) (PrimFloat.ltb m 0))
         then (m + wx)%float else m
       else if get_sign wx then neg_zero else zero)).

(** float_pow; [v] and [w] are the operands as given, [iv] and [iw]
    their conversions to double. *)
Definition float_pow (v w : value) (iv iw : float) : pyres value :=
  if PrimFloat.eqb iw 0 then Return (VFloat 1)
  else if is_nan iv then Return (VFloat iv)
  else if is_nan iw then Return (VFloat (if PrimFloat.eqb iv 1 then 1 else iw))
  else if is_infinity iw then
    let av := PrimFloat.abs iv in
    if PrimFloat.eqb av 1 then Return (VFloat 1)
    else if Bool.eqb (PrimFloat.ltb 0 iw) (PrimFloat.ltb 1 av)
         then Return (VFloat (PrimFloat.abs iw))
         else Return (VFloat 0)
  else if is_infinity iv then
    let odd := is_odd_integer iw in
    if PrimFloat.ltb 0 iw
    then Return (VFloat (if odd then iv else PrimFloat.abs iv))
    else Return (VFloat (if odd then (if get_sign iv then neg_zero else zero)
                         else 0))
  else if PrimFloat.eqb iv 0 then
    if PrimFloat.ltb iw 0 then Throw (ZeroDivisionError Native)
    else Return (VFloat (if is_odd_integer iw then iv else 0))
  else
    let finish (base : float) (negate_result : bool) : pyres value :=
      if PrimFloat.eqb base 1
      then Return (VFloat (if negate_result then (- 1)%float else 1))
      else pybind (libm_pow host base iw) (fun ix =>
             Return (VFloat (if negate_result then (- ix)%float else ix))) in
    if PrimFloat.ltb iv 0 then
      if negb (float_is_integer iw)
      then pybind (complex_arith host "**" v w) (fun c =>
             Return (VComplex (fst c) (snd c)))
      else finish (- iv)%float (is_odd_integer iw)
    else finish iv false.

Definition float_add (x y : float) : pyres value := Return (VFloat (x + y)).
Definition float_sub (x y : float) : pyres value := Return (VFloat (x - y)).
Definition float_mul (x y : float) : pyres value := Return (VFloat (x * y)).
Definition float_div (x y : float) : pyres value :=
  if PrimFloat.eqb y 0 then Throw (ZeroDivisionError Native)
  else Return (VFloat (x / y)).

Definition int_mod (x y : Z) : pyres value :=
  if y =? 0 then Throw (ZeroDivisionError Native)
  else Return (VInt (x mod y)).

Definition int_pow (x y : Z) : pyres value :=
  if 0 <=? y then Return (VInt (x ^ y))
  else pybind (int_to_float x) (fun fx =>
       pybind (int_to_float y) (fun fy =>
       float_pow (VInt x) (VInt y) fx fy)).

(** The dispatch common to the binary arithmetic operators: [None] has
    no arithmetic, a complex operand goes to [on_complex], two ints stay
    exact, and a mixed pair is converted to float first. *)
Definition arith (on_int : Z -> Z -> pyres value)
           (on_float : value -> value -> float -> float -> pyres value)
           (on_complex : value -> value -> pyres value)
           (a b : value) : pyres value :=
  match a, b with
  | VNone, _ | _, VNone => Throw TypeError
  | VComplex _ _, _ | _, VComplex _ _ => on_complex a b
  | VInt x, VInt y => on_int x y
  | VInt x, VFloat y => pybind (int_to_float x) (fun fx => on_float a b fx y)
  | VFloat x, VInt y => pybind (int_to_float y) (fun fy => on_float a b x fy)
  | VFloat x, VFloat y => on_float a b x y
  end.

Definition complex_op (op : string) (a b : value) : pyres value :=
  pybind (complex_arith host op a b) (fun c => Return (VComplex (fst c) (snd c))).

Definition py_add : value -> value -> pyres value :=
  arith (fun x y => Return (VInt (x + y))) (fun _ _ => float_add) (complex_op "+").
Definition py_sub : value -> value -> pyres value :=
  arith (fun x y => Return (VInt (x - y))) (fun _ _ => float_sub) (complex_op "-").
Definition py_mul : value -> value -> pyres value :=
  arith (fun x y => Return (VInt (x * y))) (fun _ _ => float_mul) (complex_op "*").
Definition py_truediv : value -> value -> pyres value :=
  arith int_true_divide (fun _ _ => float_div) (complex_op "/").
Definition py_mod : value -> value -> pyres value :=
  arith int_mod (fun _ _ => float_rem) (fun _ _ => Throw TypeError).
Definition py_pow : value -> value -> pyres value :=
  arith int_pow float_pow (complex_op "**").
End Arith.

End Num.

(* ===================================================================== *)
(** * Lexer *)
(* ===================================================================== *)

Module Lexer.
Import TokenType.

Definition code (c : ascii) : nat := nat_of_ascii c.

Definition between (lo hi : nat) (c : ascii) : bool :=
  Nat.leb lo (code c) && Nat.leb (code c) hi.

Definition newline : ascii := ascii_of_nat 10.

(** [str.isspace()] on a code point below 256. *)
Definition isspace (c : ascii) : bool :=
  between 9 13 c || between 28 32 c || Nat.eqb (code c) 133 || Nat.eqb (code c) 160.

(** [\d] on a code point below 256: the ten ASCII digits. *)
Definition is_digit (c : ascii) : bool := between 48 57 c.

(** [[a-zA-Z_]] *)
Definition is_ident_start (c : ascii) : bool :=
  between 97 122 c || between 65 90 c || Nat.eqb (code c) 95.

(** [\w] on a code point below 256: the alphanumeric ones and [_]. *)
Definition is_word (c : ascii) : bool :=
  is_ident_start c || is_digit c
  || Nat.eqb (code c) 170 || between 178 179 c || Nat.eqb (code c) 181
  || between 185 186 c || between 188 190 c
  || between 192 214 c || between 216 246 c || between 248 255 c.

Fixpoint take_while (p : ascii -> bool) (s : string) : string :=
  match s with
  | String c s' => if p c then String c (take_while p s') else EmptyString
  | EmptyString => EmptyString
  end.

Fixpoint drop_while (p : ascii -> bool) (s : string) : string :=
  match s with
  | String c s' => if p c then drop_while p s' else s
  | EmptyString => EmptyString
  end.

(** [s[n:]] *)
Fixpoint drop (n : nat) (s : string) : string :=
  match n, s with
  | S n', String _ s' => drop n' s'
  | _, _ => s
  end.

(** [c in s] *)
Fixpoint contains (c : ascii) (s : string) : bool :=
  match s with
  | String c' s' => Ascii.eqb c c' || contains c s'
  | EmptyString => false
  end.

(** The three shapes of regular expression in [TOKEN_PATTERNS]. *)
Inductive pattern : Set :=
| PatNumber              (* \d+(\.\d+)? *)
| PatIdent               (* [a-zA-Z_]\w* *)
| PatText (text : string). (* the text itself, escaped *)

(** [re.match(pattern, s)]: the matched prefix [m.group(0)], if any.
    Quantifiers are greedy, and in these patterns the first greedy choice
    is the match. *)
Definition re_match (p : pattern) (s : string) : option string :=
  match p with
  | PatNumber =>
      match take_while is_digit s with
      | EmptyString => None
      | ds =>
          match drop_while is_digit s with
          | String "." after =>
              match take_while is_digit after with
              | EmptyString => Some ds
              | fs => Some (ds ++ String "." fs)%string
              end
          | _ => Some ds
          end
      end
  | PatIdent =>
      match s with
      | String c s' =>
          if is_ident_start c then Some (String c (take_while is_word s')) else None
      | EmptyString => None
      end
  | PatText text => if String.prefix text s then Some text else None
  end.

Definition KEYWORDS : list string := ["print"; "if"; "else"; "while"]%string.

Definition TOKEN_PATTERNS : list (pattern * TokenType.t) :=
  [ (PatNumber,    NUMBER);
    (PatIdent,     IDENT);
    (PatText "==", EQ);
    (PatText "!=", NEQ);
    (PatText "<=", LTE);
    (PatText ">=", GTE);
    (PatText "<",  LT);
    (PatText ">",  GT);
    (PatText "=",  ASSIGN);
    (PatText "+",  PLUS);
    (PatText "-",  MINUS);
    (PatText "**", POW);
    (PatText "*",  MUL);
    (PatText "/",  DIV);
    (PatText "%",  MOD);
    (PatText "(",  LPAREN);
    (PatText ")",  RPAREN);
    (PatText "{",  LBRACE);
    (PatText "}",  RBRACE);
    (PatText ";",  SEMICOL) ]%string.

(** [for pattern, ttype in TOKEN_PATTERNS: m = re.match(...); if m: ... break] *)
Fixpoint first_match (patterns : list (pattern * TokenType.t)) (s : string)
  : option (TokenType.t * string) :=
  match patterns with
  | [] => None
  | (p, ttype) :: patterns' =>
      match re_match p s with
      | Some val => Some (ttype, val)
      | None => first_match patterns' s
      end
  end.

(** The number a run of digits writes, from the number [acc] of the
    digits before it. *)
Fixpoint int_of_digits (acc : Z) (s : string) : Z :=
  match s with
  | String c s' => int_of_digits (10 * acc + (Z.of_nat (code c) - 48)) s'
  | EmptyString => acc
  end.

(** [sys.int_info.default_max_str_digits]: the number of digits up to which
    CPython converts between [str] and [int]. *)
Definition MAX_STR_DIGITS : Z := 4300.

(** [int(val)] on a run of digits: ValueError ("Exceeds the limit (4300
    digits) for integer string conversion") when there are more digits,
    leading zeros counted. *)
Definition python_int (val : string) : pyres Z :=
  if MAX_STR_DIGITS <? Z.of_nat (String.length val) then Throw ValueError
  else Return (int_of_digits 0 val).

(** [float(val)] on "digits.digits": the nearest binary64, whatever the
    number of digits. *)
Definition python_float (val : string) : float :=
  let ip := take_while is_digit val in
  let fp := drop 1 (drop_while is_digit val) in
  SF2Prim (Num.round_ratio false (int_of_digits 0 (ip ++ fp))
             (10 ^ Z.of_nat (String.length fp))).

(** [val.upper()] of a keyword is the name of its token type. *)
Definition keyword_type (val : string) : TokenType.t :=
  if String.eqb val "print" then PRINT
  else if String.eqb val "if" then IF
  else if String.eqb val "else" then ELSE
  else WHILE.

(** The token built for a match of [ttype] on the text [val]; the
    conversion of a number can raise. *)
Definition make_token (ttype : TokenType.t) (val : string) (line : Z) : pyres Token :=
  match ttype with
  | NUMBER =>
      pybind (if contains "."%char val then Return (VFloat (python_float val))
              else pybind (python_int val) (fun z => Return (VInt z)))
        (fun v => Return (mkToken NUMBER (TNum v) line))
  | IDENT =>
      Return (if existsb (String.eqb val) KEYWORDS
              then mkToken (keyword_type val) (TStr val) line
              else mkToken IDENT (TStr val) line)
  | _ => Return (mkToken ttype (TStr val) line)
  end.

(** The loop of [tokenize]: [rest] is [self.source[self.pos:]]. *)
Fixpoint tokenize_loop (fuel : nat) (rest : string) (line : Z) (tokens : list Token)
  : result (list Token) :=
  match fuel with
  | O => OutOfFuel
  | S fuel =>
      match rest with
      | EmptyString => Ok (tokens ++ [mkToken EOF TNone line])
      | String c rest' =>
          if isspace c then
            tokenize_loop fuel rest'
              (if Ascii.eqb c newline then line + 1 else line) tokens
          else if String.prefix "//" rest then
            tokenize_loop fuel
              (drop_while (fun c => negb (Ascii.eqb c newline)) rest) line tokens
          else
            match first_match TOKEN_PATTERNS rest with
            | Some (ttype, val) =>
                match make_token ttype val line with
                | Return tok =>
                    tokenize_loop fuel (drop (String.length val) rest) line
                      (tokens ++ [tok])
                | Throw e => Raise e
                end
            | None => Raise (SyntaxError (LexerUnknownChar c line))
            end
      end
  end.

Definition tokenize (source : string) : result (list Token) :=
  tokenize_loop (S (String.length source)) source 1 [].

End Lexer.

(* ===================================================================== *)
(** * AST nodes *)
(* ===================================================================== *)

#[local] Unset Elimination Schemes.
Inductive Node : Type :=
| NumberNode (value : value)
| VarNode (name : string)
| BinOpNode (left : Node) (op : string) (right : Node)
| UnaryNode (op : string) (operand : Node)
| AssignNode (name : string) (value : Node)
| PrintNode (expr : Node)
| IfNode (condition : Node) (then_body : list Node) (else_body : option (list Node))
| WhileNode (condition : Node) (body : list Node)
| BlockNode (statements : list Node).
#[local] Set Elimination Schemes.

(* ===================================================================== *)
(** * Parser (recursive descent) *)
(* ===================================================================== *)

Module Parser.
Import TokenType.

(** A parsing method: from [self.pos] to a result and the new [self.pos]. *)
Definition P (A : Type) : Type := nat -> result (A * nat).

Definition ret {A : Type} (a : A) : P A := fun pos => Ok (a, pos).

Definition bind {A B : Type} (m : P A) (k : A -> P B) : P B :=
  fun pos =>
    match m pos with
    | Ok (a, pos') => k a pos'
    | Raise e => Raise e
    | OutOfFuel => OutOfFuel
    | IllTyped => IllTyped
    end.

Definition raise {A : Type} (e : PyExc) : P A := fun _ => Raise e.
Definition out_of_fuel {A : Type} : P A := fun _ => OutOfFuel.

Declare Scope parser_scope.
Delimit Scope parser_scope with parser.
Notation "x <- m ;; k" := (bind m (fun x => k))
  (at level 100, m at level 99, k at level 200) : parser_scope.
Notation "m ;; k" := (bind m (fun _ => k))
  (at level 100, k at level 200) : parser_scope.
Local Open Scope parser_scope.

(** The operator of each comparison token ([ops] of [comparison]). *)
Definition comparison_ops (k : TokenType.t) : option string :=
  match k with
  | EQ => Some "==" | NEQ => Some "!=" | LT => Some "<"
  | GT => Some ">" | LTE => Some "<=" | GTE => Some ">="
  | _ => None
  end%string.

(** [tok.value] where the parser needs the text, and where it needs the
    number. *)
Definition text_of (tok : Token) : P string :=
  fun pos => match tvalue tok with TStr s => Ok (s, pos) | _ => IllTyped end.

Definition number_of (tok : Token) : P value :=
  fun pos => match tvalue tok with TNum v => Ok (v, pos) | _ => IllTyped end.

Section WithTokens.
Variable tokens : list Token.

(** [self.tokens[self.pos + k]] *)
Definition peek (k : nat) : P Token :=
  fun pos =>
    match tokens !! (pos + k)%nat with
    | Some tok => Ok (tok, pos)
    | None => Raise IndexError
    end.

Definition current : P Token := peek 0.

(** [self.pos += 1] *)
Definition advance : P unit := fun pos => Ok (tt, S pos).

Definition eat (ttype : TokenType.t) : P Token :=
  tok <- current ;;
  if negb (TokenType.eqb (type tok) ttype)
  then raise (SyntaxError (ParserExpected ttype tok))
  else advance ;; ret tok.

Definition optional_semicolon : P unit :=
  tok <- current ;;
  if TokenType.eqb (type tok) SEMICOL then advance else ret tt.

(** The methods of the parser.  [statements_until stop] is the loop
    [while self.current().type != stop: body.append(self.statement())];
    [comparison_loop], [additive_loop] and [multiplicative_loop] are the
    [while] loops of the three left-associative levels. *)
Fixpoint expression (fuel : nat) : P Node :=
  match fuel with
  | O => out_of_fuel
  | S fuel => comparison fuel
  end

with comparison (fuel : nat) : P Node :=
  match fuel with
  | O => out_of_fuel
  | S fuel => left <- additive fuel ;; comparison_loop fuel left
  end

with comparison_loop (fuel : nat) (left : Node) : P Node :=
  match fuel with
  | O => out_of_fuel
  | S fuel =>
      tok <- current ;;
      match comparison_ops (type tok) with
      | Some op =>
          advance ;;
          right <- additive fuel ;;
          comparison_loop fuel (BinOpNode left op right)
      | None => ret left
      end
  end

with additive (fuel : nat) : P Node :=
  match fuel with
  | O => out_of_fuel
  | S fuel => left <- multiplicative fuel ;; additive_loop fuel left
  end

with additive_loop (fuel : nat) (left : Node) : P Node :=
  match fuel with
  | O => out_of_fuel
  | S fuel =>
      tok <- current ;;
      if TokenType.eqb (type tok) PLUS || TokenType.eqb (type tok) MINUS then
        op <- text_of tok ;;
        advance ;;
        right <- multiplicative fuel ;;
        additive_loop fuel (BinOpNode left op right)
      else ret left
  end

with multiplicative (fuel : nat) : P Node :=
  match fuel with
  | O => out_of_fuel
  | S fuel => left <- power fuel ;; multiplicative_loop fuel left
  end

with multiplicative_loop (fuel : nat) (left : Node) : P Node :=
  match fuel with
  | O => out_of_fuel
  | S fuel =>
      tok <- current ;;
      if TokenType.eqb (type tok) MUL || TokenType.eqb (type tok) DIV
         || TokenType.eqb (type tok) MOD then
        op <- text_of tok ;;
        advance ;;
        right <- power fuel ;;
        multiplicative_loop fuel (BinOpNode left op right)
      else ret left
  end

with power (fuel : nat) : P Node :=
  match fuel with
  | O => out_of_fuel
  | S fuel =>
      base <- unary fuel ;;
      tok <- current ;;
      if TokenType.eqb (type tok) POW then
        advance ;;
        exp <- power fuel ;;
        ret (BinOpNode base "**" exp)
      else ret base
  end

with unary (fuel : nat) : P Node :=
  match fuel with
  | O => out_of_fuel
  | S fuel =>
      tok <- current ;;
      if TokenType.eqb (type tok) MINUS then
        advance ;;
        operand <- primary fuel ;;
        ret (UnaryNode "-" operand)
      else primary fuel
  end

with primary (fuel : nat) : P Node :=
  match fuel with
  | O => out_of_fuel
  | S fuel =>
      tok <- current ;;
      if TokenType.eqb (type tok) NUMBER then
        advance ;; v <- number_of tok ;; ret (NumberNode v)
      else if TokenType.eqb (type tok) IDENT then
        advance ;; name <- text_of tok ;; ret (VarNode name)
      else if TokenType.eqb (type tok) LPAREN then
        advance ;;
        expr <- expression fuel ;;
        eat RPAREN ;;
        ret expr
      else raise (SyntaxError (ParserUnexpected tok))
  end.

Fixpoint statement (fuel : nat) : P Node :=
  match fuel with
  | O => out_of_fuel
  | S fuel =>
      tok <- current ;;
      if TokenType.eqb (type tok) PRINT then
        advance ;;
        eat LPAREN ;;
        expr <- expression fuel ;;
        eat RPAREN ;;
        optional_semicolon ;;
        ret (PrintNode expr)
      else if TokenType.eqb (type tok) IF then if_stmt fuel
      else if TokenType.eqb (type tok) WHILE then while_stmt fuel
      else
        is_assignment <-
          (if TokenType.eqb (type tok) IDENT
           then next <- peek 1 ;; ret (TokenType.eqb (type next) ASSIGN)
           else ret false) ;;
        if is_assignment : bool then
          name_tok <- eat IDENT ;;
          name <- text_of name_tok ;;
          eat ASSIGN ;;
          val <- expression fuel ;;
          optional_semicolon ;;
          ret (AssignNode name val)
        else
          expr <- expression fuel ;;
          optional_semicolon ;;
          ret expr
  end

with statements_until (fuel : nat) (stop : TokenType.t) (body : list Node)
  : P (list Node) :=
  match fuel with
  | O => out_of_fuel
  | S fuel =>
      tok <- current ;;
      if negb (TokenType.eqb (type tok) stop) then
        stmt <- statement fuel ;;
        statements_until fuel stop (body ++ [stmt])
      else ret body
  end

with if_stmt (fuel : nat) : P Node :=
  match fuel with
  | O => out_of_fuel
  | S fuel =>
      eat IF ;;
      eat LPAREN ;;
      cond <- expression fuel ;;
      eat RPAREN ;;
      eat LBRACE ;;
      then_body <- statements_until fuel RBRACE [] ;;
      eat RBRACE ;;
      tok <- current ;;
      if TokenType.eqb (type tok) ELSE then
        advance ;;
        eat LBRACE ;;
        else_body <- statements_until fuel RBRACE [] ;;
        eat RBRACE ;;
        ret (IfNode cond then_body (Some else_body))
      else ret (IfNode cond then_body None)
  end

with while_stmt (fuel : nat) : P Node :=
  match fuel with
  | O => out_of_fuel
  | S fuel =>
      eat WHILE ;;
      eat LPAREN ;;
      cond <- expression fuel ;;
      eat RPAREN ;;
      eat LBRACE ;;
      body <- statements_until fuel RBRACE [] ;;
      eat RBRACE ;;
      ret (WhileNode cond body)
  end.

(** Enough for every token list: a call chain is at most sixteen
    methods long before a token is consumed. *)
Definition parse_fuel : nat := (S (length tokens) * 16)%nat.

Definition parse : result Node :=
  match statements_until parse_fuel EOF [] 0%nat with
  | Ok (stmts, _) => Ok (BlockNode stmts)
  | Raise e => Raise e
  | OutOfFuel => OutOfFuel
  | IllTyped => IllTyped
  end.
End WithTokens.

End Parser.

(* ===================================================================== *)
(** * The parser on a bounded call stack *)
(* ===================================================================== *)

(** Python runs every call of a method in a frame of its own, and allows a
    bounded number of frames at a time ([sys.getrecursionlimit()], 1000
    unless it is changed; the callers of the parser hold some of them).  A
    call for which no frame is left raises RecursionError.  The methods of
    [Parser] call each other as deep as the parentheses and the bodies of
    the text are nested, so the text decides whether the frames suffice.

    [Bounded] is the parser with the frames counted: each method is given
    the number of frames that are left when it is called, takes one for
    itself and leaves the others to the methods it calls.  The loops of a
    method run in its frame.  The constructors of the nodes are calls as
    well, made where a call of [current] in the same frame has returned;
    they need no more frames than that call and are not counted. *)
Module Bounded.
Import TokenType.
Import Parser.
Local Open Scope parser_scope.

(** A call with [frames] frames left: the method runs with one less. *)
Definition call {A : Type} (frames : nat) (method : nat -> P A) : P A :=
  match frames with
  | O => raise RecursionError
  | S frames => method frames
  end.

Section WithTokens.
Variable tokens : list Token.

Definition current (frames : nat) : P Token :=
  call frames (fun _ => Parser.current tokens).

Definition eat (ttype : TokenType.t) (frames : nat) : P Token :=
  call frames (fun frames =>
    tok <- current frames ;;
    if negb (TokenType.eqb (type tok) ttype)
    then raise (SyntaxError (ParserExpected ttype tok))
    else advance ;; ret tok).

Definition optional_semicolon (frames : nat) : P unit :=
  call frames (fun frames =>
    tok <- current frames ;;
    if TokenType.eqb (type tok) SEMICOL then advance else ret tt).

Fixpoint expression (fuel frames : nat) : P Node :=
  match fuel with
  | O => out_of_fuel
  | S fuel => call frames (fun frames => comparison fuel frames)
  end

with comparison (fuel frames : nat) : P Node :=
  match fuel with
  | O => out_of_fuel
  | S fuel =>
      call frames (fun frames =>
        left <- additive fuel frames ;; comparison_loop fuel frames left)
  end

with comparison_loop (fuel frames : nat) (left : Node) : P Node :=
  match fuel with
  | O => out_of_fuel
  | S fuel =>
      tok <- current frames ;;
      match comparison_ops (type tok) with
      | Some op =>
          advance ;;
          right <- additive fuel frames ;;
          comparison_loop fuel frames (BinOpNode left op right)
      | None => ret left
      end
  end

with additive (fuel frames : nat) : P Node :=
  match fuel with
  | O => out_of_fuel
  | S fuel =>
      call frames (fun frames =>
        left <- multiplicative fuel frames ;; additive_loop fuel frames left)
  end

with additive_loop (fuel frames : nat) (left : Node) : P Node :=
  match fuel with
  | O => out_of_fuel
  | S fuel =>
      tok <- current frames ;;
      if TokenType.eqb (type tok) PLUS || TokenType.eqb (type tok) MINUS then
        op <- text_of tok ;;
        advance ;;
        right <- multiplicative fuel frames ;;
        additive_loop fuel frames (BinOpNode left op right)
      else ret left
  end

with multiplicative (fuel frames : nat) : P Node :=
  match fuel with
  | O => out_of_fuel
  | S fuel =>
      call frames (fun frames =>
        left <- power fuel frames ;; multiplicative_loop fuel frames left)
  end

with multiplicative_loop (fuel frames : nat) (left : Node) : P Node :=
  match fuel with
  | O => out_of_fuel
  | S fuel =>
      tok <- current frames ;;
      if TokenType.eqb (type tok) MUL || TokenType.eqb (type tok) DIV
         || TokenType.eqb (type tok) MOD then
        op <- text_of tok ;;
        advance ;;
        right <- power fuel frames ;;
        multiplicative_loop fuel frames (BinOpNode left op right)
      else ret left
  end

with power (fuel frames : nat) : P Node :=
  match fuel with
  | O => out_of_fuel
  | S fuel =>
      call frames (fun frames =>
        base <- unary fuel frames ;;
        tok <- current frames ;;
        if TokenType.eqb (type tok) POW then
          advance ;;
          exp <- power fuel frames ;;
          ret (BinOpNode base "**" exp)
        else ret base)
  end

with unary (fuel frames : nat) : P Node :=
  match fuel with
  | O => out_of_fuel
  | S fuel =>
      call frames (fun frames =>
        tok <- current frames ;;
        if TokenType.eqb (type tok) MINUS then
          advance ;;
          operand <- primary fuel frames ;;
          ret (UnaryNode "-" operand)
        else primary fuel frames)
  end

with primary (fuel frames : nat) : P Node :=
  match fuel with
  | O => out_of_fuel
  | S fuel =>
      call frames (fun frames =>
        tok <- current frames ;;
        if TokenType.eqb (type tok) NUMBER then
          advance ;; v <- number_of tok ;; ret (NumberNode v)
        else if TokenType.eqb (type tok) IDENT then
          advance ;; name <- text_of tok ;; ret (VarNode name)
        else if TokenType.eqb (type tok) LPAREN then
          advance ;;
          expr <- expression fuel frames ;;
          eat RPAREN frames ;;
          ret expr
        else raise (SyntaxError (ParserUnexpected tok)))
  end.

Fixpoint statement (fuel frames : nat) : P Node :=
  match fuel with
  | O => out_of_fuel
  | S fuel =>
      call frames (fun frames =>
        tok <- current frames ;;
        if TokenType.eqb (type tok) PRINT then
          advance ;;
          eat LPAREN frames ;;
          expr <- expression fuel frames ;;
          eat RPAREN frames ;;
          optional_semicolon frames ;;
          ret (PrintNode expr)
        else if TokenType.eqb (type tok) IF then if_stmt fuel frames
        else if TokenType.eqb (type tok) WHILE then while_stmt fuel frames
        else
          is_assignment <-
            (if TokenType.eqb (type tok) IDENT
             then next <- peek tokens 1 ;; ret (TokenType.eqb (type next) ASSIGN)
             else ret false) ;;
          if is_assignment : bool then
            name_tok <- eat IDENT frames ;;
            name <- text_of name_tok ;;
            eat ASSIGN frames ;;
            val <- expression fuel frames ;;
            optional_semicolon frames ;;
            ret (AssignNode name val)
          else
            expr <- expression fuel frames ;;
            optional_semicolon frames ;;
            ret expr)
  end

with statements_until (fuel frames : nat) (stop : TokenType.t) (body : list Node)
  : P (list Node) :=
  match fuel with
  | O => out_of_fuel
  | S fuel =>
      tok <- current frames ;;
      if negb (TokenType.eqb (type tok) stop) then
        stmt <- statement fuel frames ;;
        statements_until fuel frames stop (body ++ [stmt])
      else ret body
  end

with if_stmt (fuel frames : nat) : P Node :=
  match fuel with
  | O => out_of_fuel
  | S fuel =>
      call frames (fun frames =>
        eat IF frames ;;
        eat LPAREN frames ;;
        cond <- expression fuel frames ;;
        eat RPAREN frames ;;
        eat LBRACE frames ;;
        then_body <- statements_until fuel frames RBRACE [] ;;
        eat RBRACE frames ;;
        tok <- current frames ;;
        if TokenType.eqb (type tok) ELSE then
          advance ;;
          eat LBRACE frames ;;
          else_body <- statements_until fuel frames RBRACE [] ;;
          eat RBRACE frames ;;
          ret (IfNode cond then_body (Some else_body))
        else ret (IfNode cond then_body None))
  end

with while_stmt (fuel frames : nat) : P Node :=
  match fuel with
  | O => out_of_fuel
  | S fuel =>
      call frames (fun frames =>
        eat WHILE frames ;;
        eat LPAREN frames ;;
        cond <- expression fuel frames ;;
        eat RPAREN frames ;;
        eat LBRACE frames ;;
        body <- statements_until fuel frames RBRACE [] ;;
        eat RBRACE frames ;;
        ret (WhileNode cond body))
  end.

(** [Parser(tokens).parse()] where [frames] frames are left for it. *)
Definition parse (frames : nat) : result Node :=
  match frames with
  | O => Raise RecursionError
  | S frames =>
      match statements_until (parse_fuel tokens) frames EOF [] 0%nat with
      | Ok (stmts, _) => Ok (BlockNode stmts)
      | Raise e => Raise e
      | OutOfFuel => OutOfFuel
      | IllTyped => IllTyped
      end
  end.
End WithTokens.

End Bounded.

(* ===================================================================== *)
(** * Evaluator / interpreter *)
(* ===================================================================== *)

(** The two fields of an [Interpreter] object. *)
Record Interp : Type := mkInterp {
  env : gmap string value;
  output : list value
}.

(** [Interpreter()] *)
Definition new_interpreter : Interp := mkInterp ∅ [].

Module Interpreter.

(** A method of the interpreter: the object is mutated in place, so the
    state comes back with an exception as well as with a value. *)
Definition M (A : Type) : Type := Interp -> result A * Interp.

Definition ret {A : Type} (a : A) : M A := fun st => (Ok a, st).

Definition bind {A B : Type} (m : M A) (k : A -> M B) : M B :=
  fun st =>
    match m st with
    | (Ok a, st') => k a st'
    | (Raise e, st') => (Raise e, st')
    | (OutOfFuel, st') => (OutOfFuel, st')
    | (IllTyped, st') => (IllTyped, st')
    end.

Definition raise {A : Type} (e : PyExc) : M A := fun st => (Raise e, st).
Definition out_of_fuel {A : Type} : M A := fun st => (OutOfFuel, st).

(** A built-in's result, raised or returned. *)
Definition builtin {A : Type} (r : pyres A) : M A := fun st => (lift r, st).

Declare Scope eval_scope.
Delimit Scope eval_scope with eval.
Notation "x <- m ;; k" := (bind m (fun x => k))
  (at level 100, m at level 99, k at level 200) : eval_scope.
Notation "m ;; k" := (bind m (fun _ => k))
  (at level 100, k at level 200) : eval_scope.
Local Open Scope eval_scope.

(** [for stmt in stmts: result = self.eval(stmt)], from [result]. *)
Definition eval_each (eval : Node -> M value) : list Node -> value -> M value :=
  fix go (stmts : list Node) (result : value) : M value :=
    match stmts with
    | [] => ret result
    | stmt :: stmts' => result' <- eval stmt ;; go stmts' result'
    end.

(** The bound of the loop guard: [if iterations > 10000]. *)
Definition MAX_ITERATIONS : Z := 10000.

(** The [while] loop of a WhileNode, from the value [iterations] has. *)
Definition while_loop (condition body : M value) : nat -> Z -> M value :=
  fix loop (fuel : nat) (iterations : Z) : M value :=
    match fuel with
    | O => out_of_fuel
    | S fuel =>
        c <- condition ;;
        if Num.truthy c then
          let iterations := iterations + 1 in
          if MAX_ITERATIONS <? iterations then raise RuntimeError
          else body ;; loop fuel iterations
        else ret VNone
    end.

(** One more round than the guard lets through. *)
Definition while_fuel : nat := Z.to_nat (MAX_ITERATIONS + 1).

Section WithHost.
Variable host : HostMath.

(** The table [ops] of the BinOpNode branch, applied: [ops[op](l, r)]. *)
Definition apply_op (op : string) (a b : value) : pyres value :=
  if String.eqb op "+" then Num.py_add host a b
  else if String.eqb op "-" then Num.py_sub host a b
  else if String.eqb op "*" then Num.py_mul host a b
  else if String.eqb op "/" then
    if Num.py_ne b (VInt 0) then Num.py_truediv host a b
    else Throw (ZeroDivisionError Guard)
  else if String.eqb op "%" then Num.py_mod a b
  else if String.eqb op "**" then Num.py_pow host a b
  else if String.eqb op "==" then Return (Num.int_of_bool (Num.py_eq a b))
  else if String.eqb op "!=" then Return (Num.int_of_bool (Num.py_ne a b))
  else if String.eqb op "<" then pybind (Num.py_lt a b) (fun t => Return (Num.int_of_bool t))
  else if String.eqb op ">" then pybind (Num.py_gt a b) (fun t => Return (Num.int_of_bool t))
  else if String.eqb op "<=" then pybind (Num.py_le a b) (fun t => Return (Num.int_of_bool t))
  else if String.eqb op ">=" then pybind (Num.py_ge a b) (fun t => Return (Num.int_of_bool t))
  else Throw (KeyError op).

(** [int(val) if isinstance(val, float) and val.is_integer() else val] *)
Definition display (val : value) : pyres value :=
  match val with
  | VFloat f =>
      if Num.float_is_integer f
      then pybind (Num.float_to_int f) (fun z => Return (VInt z))
      else Return val
  | _ => Return val
  end.

Definition lookup_var (name : string) : M value :=
  fun st =>
    match env st !! name with
    | None => (Raise (NameError name), st)
    | Some v => (Ok v, st)
    end.

(** [self.env[name] = val] *)
Definition store (name : string) (val : value) : M unit :=
  fun st => (Ok tt, mkInterp (<[name := val]> (env st)) (output st)).

(** [self.output.append(result)] *)
Definition append_output (result : value) : M unit :=
  fun st => (Ok tt, mkInterp (env st) (output st ++ [result])).

Fixpoint eval (node : Node) : M value :=
  match node with
  | BlockNode statements => eval_each eval statements VNone
  | NumberNode value => ret value
  | VarNode name => lookup_var name
  | AssignNode name value =>
      val <- eval value ;;
      store name val ;;
      ret val
  | BinOpNode node_left op node_right =>
      l <- eval node_left ;;
      r <- eval node_right ;;
      builtin (apply_op op l r)
  | UnaryNode op operand =>
      val <- eval operand ;;
      if String.eqb op "-" then builtin (Num.py_neg val) else ret val
  | PrintNode expr =>
      val <- eval expr ;;
      result <- builtin (display val) ;;
      append_output result ;;
      ret result
  | IfNode condition then_body else_body =>
      c <- eval condition ;;
      if Num.truthy c then
        eval_each eval then_body VNone ;; ret VNone
      else
        match else_body with
        | Some ((_ :: _) as stmts) => eval_each eval stmts VNone ;; ret VNone
        | Some [] | None => ret VNone
        end
  | WhileNode condition body =>
      while_loop (eval condition) (eval_each eval body VNone) while_fuel 0
  end.

(* ===================================================================== *)
(** * run *)
(* ===================================================================== *)

(** How a call of [run] ends: it returns the interpreter, after printing the
    message of a caught exception if there was one; or an exception outside
    the [except] clause leaves it. *)
Inductive RunResult : Type :=
| Returned (interpreter : Interp) (reported : option PyExc)
| Uncaught (e : PyExc) (interpreter : Interp)
| Undefined.

Definition handle (e : PyExc) (interpreter : Interp) : RunResult :=
  if caught_by_run e then Returned interpreter (Some e) else Uncaught e interpreter.

Definition run (source : string) (interpreter : option Interp) : RunResult :=
  let interpreter := match interpreter with None => new_interpreter | Some i => i end in
  match Lexer.tokenize source with
  | Raise e => handle e interpreter
  | OutOfFuel | IllTyped => Undefined
  | Ok tokens =>
      match Parser.parse tokens with
      | Raise e => handle e interpreter
      | OutOfFuel | IllTyped => Undefined
      | Ok ast =>
          match eval ast interpreter with
          | (Ok _, interpreter') => Returned interpreter' None
          | (Raise e, interpreter') => handle e interpreter'
          | ((OutOfFuel | IllTyped), _) => Undefined
          end
      end
  end.

(** The pipeline without the [try]: tokens, tree, value of the program. *)
Definition evaluate (source : string) (interpreter : Interp) : result value * Interp :=
  match Lexer.tokenize source with
  | Ok tokens =>
      match Parser.parse tokens with
      | Ok ast => eval ast interpreter
      | Raise e => (Raise e, interpreter)
      | OutOfFuel => (OutOfFuel, interpreter)
      | IllTyped => (IllTyped, interpreter)
      end
  | Raise e => (Raise e, interpreter)
  | OutOfFuel => (OutOfFuel, interpreter)
  | IllTyped => (IllTyped, interpreter)
  end.

End WithHost.
End Interpreter.

(* ===================================================================== *)
(** * The console line of print *)
(* ===================================================================== *)

(** [Interpreter.eval] and [run] with the call [print(f"  >> {result}")]
    that a PrintNode makes before it appends to [output]. *)
Module Console.
Import Interpreter.
Local Open Scope eval_scope.

(** [f"  >> {result}"]: [str] refuses an int of more than 4300 digits with
    a ValueError; every other value has a text. *)
Definition print_line (result : value) : pyres unit :=
  match result with
  | VInt z =>
      if 10 ^ Lexer.MAX_STR_DIGITS <=? Z.abs z then Throw ValueError else Return tt
  | _ => Return tt
  end.

Section WithHost.
Variable host : HostMath.

Fixpoint eval (node : Node) : M value :=
  match node with
  | BlockNode statements => eval_each eval statements VNone
  | NumberNode value => ret value
  | VarNode name => lookup_var name
  | AssignNode name value =>
      val <- eval value ;;
      store name val ;;
      ret val
  | BinOpNode node_left op node_right =>
      l <- eval node_left ;;
      r <- eval node_right ;;
      builtin (apply_op host op l r)
  | UnaryNode op operand =>
      val <- eval operand ;;
      if String.eqb op "-" then builtin (Num.py_neg val) else ret val
  | PrintNode expr =>
      val <- eval expr ;;
      result <- builtin (display val) ;;
      builtin (print_line result) ;;
      append_output result ;;
      ret result
  | IfNode condition then_body else_body =>
      c <- eval condition ;;
      if Num.truthy c then
        eval_each eval then_body VNone ;; ret VNone
      else
        match else_body with
        | Some ((_ :: _) as stmts) => eval_each eval stmts VNone ;; ret VNone
        | Some [] | None => ret VNone
        end
  | WhileNode condition body =>
      while_loop (eval condition) (eval_each eval body VNone) while_fuel 0
  end.

Definition run (source : string) (interpreter : option Interp) : RunResult :=
  let interpreter := match interpreter with None => new_interpreter | Some i => i end in
  match Lexer.tokenize source with
  | Raise e => handle e interpreter
  | OutOfFuel | IllTyped => Undefined
  | Ok tokens =>
      match Parser.parse tokens with
      | Raise e => handle e interpreter
      | OutOfFuel | IllTyped => Undefined
      | Ok ast =>
          match eval ast interpreter with
          | (Ok _, interpreter') => Returned interpreter' None
          | (Raise e, interpreter') => handle e interpreter'
          | ((OutOfFuel | IllTyped), _) => Undefined
          end
      end
  end.

End WithHost.
End Console.

(* ===================================================================== *)
(** * Vocabulary of the statements *)
(* ===================================================================== *)

Import TokenType.

(** An answer Python itself would give: a value or an exception. *)
Definition answers {A : Type} (r : result A) : Prop :=
  match r with
  | Ok _ | Raise _ => True
  | OutOfFuel | IllTyped => False
  end.

(** ** Lexer *)

(** The number of newline characters of a text. *)
Fixpoint count_newlines (s : string) : Z :=
  match s with
  | String c s' => (if Ascii.eqb c Lexer.newline then 1 else 0) + count_newlines s'
  | EmptyString => 0
  end.

(** [Token(TokenType.EOF, None, ln)] *)
Definition eof_token (ln : Z) : Token := mkToken EOF TNone ln.

(** What is checked of each entry of [TOKEN_PATTERNS]: a literal pattern is
    not empty and holds no newline, and no entry produces EOF. *)
Definition pattern_ok (pt : Lexer.pattern * TokenType.t) : Prop :=
  match fst pt with
  | Lexer.PatText text => count_newlines text = 0 /\ text <> EmptyString
  | _ => True
  end /\ snd pt <> EOF.

(** What [tokenize] can answer: the tokens, the lexer's one error, or the
    ValueError of [int] on too many digits. *)
Definition lexer_answer (r : result (list Token)) : Prop :=
  (exists tokens, r = Ok tokens)
  \/ (exists c ln, r = Raise (SyntaxError (LexerUnknownChar c ln)))
  \/ r = Raise ValueError.

(** The place of a token type in [TOKEN_PATTERNS]: how many rules are tried
    before the first one that produces it. *)
Fixpoint priority_in (patterns : list (Lexer.pattern * TokenType.t)) (k : TokenType.t)
  : option nat :=
  match patterns with
  | [] => None
  | (_, k') :: patterns' =>
      if TokenType.eqb k' k then Some O else option_map S (priority_in patterns' k)
  end.

Definition priority : TokenType.t -> option nat := priority_in Lexer.TOKEN_PATTERNS.

(** Both types have a rule, and the rule of [a] is tried first. *)
Definition tried_before (a b : TokenType.t) : bool :=
  match priority a, priority b with
  | Some i, Some j => Nat.ltb i j
  | _, _ => false
  end.

(** A text of two lines with a comment, and its tokens. *)
Definition two_line_source : string :=
  ("x = 1.5 // start" ++ String Lexer.newline "print(x)")%string.

Definition two_line_tokens : list Token :=
  [ mkToken IDENT (TStr "x") 1; mkToken ASSIGN (TStr "=") 1;
    mkToken NUMBER (TNum (VFloat 1.5)) 1;
    mkToken PRINT (TStr "print") 2; mkToken LPAREN (TStr "(") 2;
    mkToken IDENT (TStr "x") 2; mkToken RPAREN (TStr ")") 2;
    mkToken EOF TNone 2 ].

(** ** Parser *)

(** The tree of a source text: [tokenize], then [parse]. *)
Definition parse_text (source : string) : result Node :=
  match Lexer.tokenize source with
  | Ok tokens => Parser.parse tokens
  | Raise e => Raise e
  | OutOfFuel => OutOfFuel
  | IllTyped => IllTyped
  end.

(** The token types a primary expression can start with. *)
Definition starts_primary (k : TokenType.t) : bool :=
  match k with NUMBER | IDENT | LPAREN => true | _ => false end.

(** The type of the token at an index, if there is one. *)
Definition type_at (tokens : list Token) (i : nat) : option TokenType.t :=
  option_map type (tokens !! i).

(** The value of a token has the shape the lexer gives to its type: a
    number for NUMBER, [None] for EOF, the matched text otherwise. *)
Definition well_typed (tok : Token) : bool :=
  match tvalue tok with
  | TNum _ => TokenType.eqb (type tok) NUMBER
  | TStr _ => negb (TokenType.eqb (type tok) NUMBER) && negb (TokenType.eqb (type tok) EOF)
  | TNone => TokenType.eqb (type tok) EOF
  end.

(** A token list as the lexer builds it: [n] well-typed tokens that are not
    EOF, then EOF. *)
Definition lexed (tokens : list Token) (n : nat) : Prop :=
  length tokens = S n /\ type_at tokens n = Some EOF
  /\ Forall (fun t => well_typed t = true) tokens
  /\ (forall i, (i < n)%nat -> type_at tokens i <> Some EOF).

(** The token types an operand can end with. *)
Definition operand_end (k : TokenType.t) : bool :=
  match k with NUMBER | IDENT | RPAREN => true | _ => false end.

(** The token types that can stand right before a statement: the end of
    the statement before it, or the brace that opens the body. *)
Definition boundary (k : TokenType.t) : bool :=
  match k with
  | NUMBER | IDENT | RPAREN | SEMICOL | RBRACE | LBRACE => true
  | _ => false
  end.

(** There is a token before [pos], and its type is of the class [c]. *)
Definition prev_is (tokens : list Token) (c : TokenType.t -> bool) (pos : nat) : Prop :=
  exists p k, pos = S p /\ type_at tokens p = Some k /\ c k = true.

(** Two minus tokens in a row of which the first stands at the start or
    after a token that ends no operand. *)
Definition doubled_leading_minus (tokens : list Token) (i : nat) : Prop :=
  type_at tokens i = Some MINUS /\ type_at tokens (S i) = Some MINUS
  /\ ~ prev_is tokens operand_end i.

(** An [=] that does not follow an identifier at the start of a statement:
    the token before it is no identifier, or what stands before that
    identifier cannot end a statement or open a body. *)
Definition misplaced_assign (tokens : list Token) (i : nat) : Prop :=
  type_at tokens i = Some ASSIGN
  /\ ~ exists p, i = S p /\ type_at tokens p = Some IDENT
                 /\ (p = O \/ prev_is tokens boundary p).

Definition ok_at (tokens : list Token) (i : nat) : Prop :=
  ~ doubled_leading_minus tokens i /\ ~ misplaced_assign tokens i.

(** No token from [a] up to [b], [b] excluded, is such a doubled minus or
    a misplaced [=]. *)
Definition clean (tokens : list Token) (a b : nat) : Prop :=
  forall i, (a <= i < b)%nat -> ok_at tokens i.

(** The same within an expression, where no [=] is read at all. *)
Definition expr_ok_at (tokens : list Token) (i : nat) : Prop :=
  ok_at tokens i /\ type_at tokens i <> Some ASSIGN.

Definition clean_expr (tokens : list Token) (a b : nat) : Prop :=
  forall i, (a <= i < b)%nat -> expr_ok_at tokens i.

(** One of the two SyntaxErrors of the parser. *)
Definition parser_error (e : PyExc) : Prop :=
  match e with
  | SyntaxError (ParserExpected _ _) | SyntaxError (ParserUnexpected _) => True
  | _ => False
  end.

(** A method of the parser answered: with a result, at a position where
    [Q] holds, or with an error of the parser. *)
Definition parses {A : Type} (r : result (A * nat)) (Q : nat -> Prop) : Prop :=
  match r with
  | Ok (_, pos') => Q pos'
  | Raise e => parser_error e
  | OutOfFuel | IllTyped => False
  end.

(** The counter is enough for a method of rank [rank] at [pos]: sixteen for
    each token still to read, and the rank. *)
Definition need (n rank pos fuel : nat) : Prop := (rank + 16 * (n - pos) <= fuel)%nat.

(** After a method of the expression grammar: it moved on, stayed within
    the tokens, read nothing forbidden, and an operand ends where it
    stopped. [Post_l] is the same for the loops, which may read nothing. *)
Definition Post_e (tokens : list Token) (n pos p : nat) : Prop :=
  (pos < p)%nat /\ (p <= n)%nat /\ clean_expr tokens pos p
  /\ prev_is tokens operand_end p.

Definition Post_l (tokens : list Token) (n pos p : nat) : Prop :=
  (pos <= p)%nat /\ (p <= n)%nat /\ clean_expr tokens pos p
  /\ prev_is tokens operand_end p.

(** Before a statement: the start of the tokens, or a boundary. After it:
    it moved on and ended on a boundary. [Post_until] is for the loop over
    the statements of a body, which stops in front of [stop]. *)
Definition Pre_s (tokens : list Token) (pos : nat) : Prop :=
  pos = O \/ prev_is tokens boundary pos.

Definition Post_s (tokens : list Token) (n pos p : nat) : Prop :=
  (pos < p)%nat /\ (p <= n)%nat /\ clean tokens pos p /\ prev_is tokens boundary p.

Definition Post_until (tokens : list Token) (n : nat) (stop : TokenType.t) (pos p : nat)
  : Prop :=
  (pos <= p)%nat /\ (p <= n)%nat /\ clean tokens pos p
  /\ (type_at tokens p = Some stop /\ Pre_s tokens p).

(** The methods of the expression grammar, at one value of the counter. *)
Definition expression_group (tokens : list Token) (n fuel : nat) : Prop :=
  (forall pos, (pos <= n)%nat -> need n 7 pos fuel ->
     parses (Parser.expression tokens fuel pos) (Post_e tokens n pos))
  /\ (forall pos, (pos <= n)%nat -> need n 6 pos fuel ->
        parses (Parser.comparison tokens fuel pos) (Post_e tokens n pos))
  /\ (forall left pos, (pos <= n)%nat -> need n 1 pos fuel ->
        prev_is tokens operand_end pos ->
        parses (Parser.comparison_loop tokens fuel left pos) (Post_l tokens n pos))
  /\ (forall pos, (pos <= n)%nat -> need n 5 pos fuel ->
        parses (Parser.additive tokens fuel pos) (Post_e tokens n pos))
  /\ (forall left pos, (pos <= n)%nat -> need n 1 pos fuel ->
        prev_is tokens operand_end pos ->
        parses (Parser.additive_loop tokens fuel left pos) (Post_l tokens n pos))
  /\ (forall pos, (pos <= n)%nat -> need n 4 pos fuel ->
        parses (Parser.multiplicative tokens fuel pos) (Post_e tokens n pos))
  /\ (forall left pos, (pos <= n)%nat -> need n 1 pos fuel ->
        prev_is tokens operand_end pos ->
        parses (Parser.multiplicative_loop tokens fuel left pos) (Post_l tokens n pos))
  /\ (forall pos, (pos <= n)%nat -> need n 3 pos fuel ->
        parses (Parser.power tokens fuel pos) (Post_e tokens n pos))
  /\ (forall pos, (pos <= n)%nat -> need n 2 pos fuel ->
        parses (Parser.unary tokens fuel pos) (Post_e tokens n pos))
  /\ (forall pos, (pos <= n)%nat -> need n 1 pos fuel ->
        parses (Parser.primary tokens fuel pos) (Post_e tokens n pos)).

(** The methods of the statement grammar, at one value of the counter. *)
Definition statement_group (tokens : list Token) (n fuel : nat) : Prop :=
  (forall pos, (pos <= n)%nat -> need n 9 pos fuel -> Pre_s tokens pos ->
     parses (Parser.statement tokens fuel pos) (Post_s tokens n pos))
  /\ (forall stop body pos, (pos <= n)%nat -> need n 10 pos fuel -> Pre_s tokens pos ->
        parses (Parser.statements_until tokens fuel stop body pos)
          (Post_until tokens n stop pos))
  /\ (forall pos, (pos <= n)%nat -> need n 8 pos fuel -> Pre_s tokens pos ->
        parses (Parser.if_stmt tokens fuel pos) (Post_s tokens n pos))
  /\ (forall pos, (pos <= n)%nat -> need n 8 pos fuel -> Pre_s tokens pos ->
        parses (Parser.while_stmt tokens fuel pos) (Post_s tokens n pos)).

(** The tokens of [a = b = 1]. *)
Definition chained_tokens : list Token :=
  [ mkToken IDENT (TStr "a") 1; mkToken ASSIGN (TStr "=") 1;
    mkToken IDENT (TStr "b") 1; mkToken ASSIGN (TStr "=") 1;
    mkToken NUMBER (TNum (VInt 1)) 1; mkToken EOF TNone 1 ].

(** ** Evaluator *)

(** [st'] has everything [st] has: the same output log, maybe longer, and at
    least the same variables. *)
Definition extends (st st' : Interp) : Prop :=
  output st `prefix_of` output st' /\ dom (env st) ⊆ dom (env st').

(** A method that moves the state along the relation [R] only. *)
Definition preserves (R : Interp -> Interp -> Prop) {A : Type} (m : Interpreter.M A) : Prop :=
  forall st, R st (snd (m st)).

(** A method that always answers. *)
Definition defined {A : Type} (m : Interpreter.M A) : Prop :=
  forall st, answers (fst (m st)).

(** The state after [n] rounds of a loop (the condition evaluated and true,
    then the body), when each of them completed. *)
Fixpoint rounds (condition body : Interpreter.M value) (n : nat) (st : Interp)
  : option Interp :=
  match n with
  | O => Some st
  | S n' =>
      match condition st with
      | (Ok c, st1) =>
          if Num.truthy c then
            match body st1 with
            | (Ok _, st2) => rounds condition body n' st2
            | _ => None
            end
          else None
      | _ => None
      end
  end.

(** A loop that counts: its condition is the assignment [c = c + 1] (the new
    value, never zero from 0 upwards), its body is [b = b + 1]. *)
Definition counting_loop : Node :=
  WhileNode
    (AssignNode "c" (BinOpNode (VarNode "c") "+" (NumberNode (VInt 1))))
    [AssignNode "b" (BinOpNode (VarNode "b") "+" (NumberNode (VInt 1)))].

Definition counters_at_zero : Interp :=
  mkInterp (<["c"%string := VInt 0]> (<["b"%string := VInt 0]> ∅)) [].

(** The interpreter after a program that assigned [x = 1], printed 7,
    assigned [y = 2] inside an [if] and then failed. *)
Definition failed_midway : Interp :=
  mkInterp (<["y"%string := VInt 2]> (<["x"%string := VInt 1]> ∅)) [VInt 7].

(** The value is a zero: the int 0, a float zero of either sign, or a
    complex number whose two parts are such zeros. *)
Definition float_is_zero (f : float) : bool :=
  match Prim2SF f with S754_zero _ => true | _ => false end.

Definition is_zero (v : value) : bool :=
  match v with
  | VNone => false
  | VInt z => z =? 0
  | VFloat f => float_is_zero f
  | VComplex re im => float_is_zero re && float_is_zero im
  end.

(** An int or a float. *)
Definition is_real (v : value) : bool :=
  match v with VInt _ | VFloat _ => true | VNone | VComplex _ _ => false end.

(** An int that meets a float is converted to float; this says that the
    conversion of the left operand, if there is one, is in range. *)
Definition left_converts (vl vr : value) : bool :=
  match vl, vr with
  | VInt z, VFloat _ =>
      match Num.int_to_float z with Return _ => true | Throw _ => false end
  | _, _ => true
  end.

(** The float is finite and its value is the integer [z]: read off its
    sign, mantissa and exponent, [(-1)^s * m * 2^e = z]. *)
Definition float_equals_int (f : float) (z : Z) : Prop :=
  match Prim2SF f with
  | S754_zero _ => z = 0
  | S754_finite s m e =>
      if 0 <=? e then z = cond_Zopp s (Z.pos m) * 2 ^ e
      else z * 2 ^ (- e) = cond_Zopp s (Z.pos m)
  | S754_infinity _ | S754_nan => False
  end.

(** The unrestricted reading of the rule for [%]: whatever the left operand evaluates to,
    a zero on the right of [%] gives a ZeroDivisionError. *)
Definition modulo_by_zero_always_zero_division : Prop :=
  forall host l r st vl st1 vr st2,
    Interpreter.eval host l st = (Ok vl, st1) ->
    Interpreter.eval host r st1 = (Ok vr, st2) ->
    is_zero vr = true ->
    exists origin,
      Interpreter.eval host (BinOpNode l "%" r) st = (Raise (ZeroDivisionError origin), st2).

(** A host for running examples: one whose [pow] and complex arithmetic
    raise.  The theorems hold for every host; the examples that are run on
    this one never reach either function. *)
Definition example_host : HostMath :=
  {| libm_pow := fun _ _ => Throw ValueError;
     complex_arith := fun _ _ _ => Throw TypeError |}.

(* ===================================================================== *)
(** * Tactics *)
(* ===================================================================== *)

(** The four parts of a postcondition of the parser: the two bounds by
    arithmetic, then the span and the last token. *)
Ltac post := split; [lia|]; split; [lia|]; split.

(** A fact about one character, checked on each of the 256. *)
Ltac by_cases_on_char c :=
  destruct c as [[] [] [] [] [] [] [] []]; vm_compute; congruence.
(* ===================================================================== *)
(** * Vocabulary of the further properties *)
(* ===================================================================== *)

(** ** What a tree can change *)

(** The names a tree assigns, in the order of the text. *)
Fixpoint assigned (node : Node) : list string :=
  match node with
  | NumberNode _ | VarNode _ => []
  | BinOpNode l _ r => assigned l ++ assigned r
  | UnaryNode _ operand => assigned operand
  | AssignNode name v => assigned v ++ [name]
  | PrintNode e => assigned e
  | IfNode c t e =>
      assigned c ++ flat_map assigned t
      ++ match e with Some stmts => flat_map assigned stmts | None => [] end
  | WhileNode c b => assigned c ++ flat_map assigned b
  | BlockNode stmts => flat_map assigned stmts
  end.

(** Whether a tree holds a PrintNode. *)
Fixpoint prints (node : Node) : bool :=
  match node with
  | NumberNode _ | VarNode _ => false
  | BinOpNode l _ r => prints l || prints r
  | UnaryNode _ operand => prints operand
  | AssignNode _ v => prints v
  | PrintNode _ => true
  | IfNode c t e =>
      prints c || existsb prints t
      || match e with Some stmts => existsb prints stmts | None => false end
  | WhileNode c b => prints c || existsb prints b
  | BlockNode stmts => existsb prints stmts
  end.

(** From [st] to [st'] only the variables of [names] changed, and the log
    only if [log] says so. *)
Definition changes_only (names : list string) (log : bool) (st st' : Interp) : Prop :=
  (forall name, name ∉ names -> env st' !! name = env st !! name)
  /\ (log = false -> output st' = output st).

(** ** Texts and token lists *)

(** Every character of the text is of the class [p]. *)
Fixpoint all_chars (p : ascii -> bool) (s : string) : bool :=
  match s with
  | String c s' => p c && all_chars p s'
  | EmptyString => true
  end.

(** The characters a token or a gap between tokens can start with: white
    space, a digit, a letter or [_], and the characters of the operators
    that are a token on their own. *)
Definition lexable (c : ascii) : bool :=
  Lexer.isspace c || Lexer.is_digit c || Lexer.is_ident_start c
  || Lexer.contains c "=<>+-*/%(){};".

Definition not_newline (c : ascii) : bool := negb (Ascii.eqb c Lexer.newline).

(** The text is empty or starts with a character that cannot go on an
    identifier. *)
Definition ends_word (rest : string) : bool :=
  match rest with
  | String c _ => negb (Lexer.is_word c)
  | EmptyString => true
  end.

(** The tokens [front] in front of the tokens of a result. *)
Definition prepend (front : list Token) (r : result (list Token)) : result (list Token) :=
  match r with
  | Ok tokens => Ok (front ++ tokens)
  | Raise e => Raise e
  | OutOfFuel => OutOfFuel
  | IllTyped => IllTyped
  end.

(** A result of the lexer [k] lines further down: the lines of the tokens,
    or the line of the error. *)
Definition shift_line (k : Z) (tok : Token) : Token :=
  mkToken (type tok) (tvalue tok) (line tok + k).

Definition shift_lines (k : Z) (r : result (list Token)) : result (list Token) :=
  match r with
  | Ok tokens => Ok (map (shift_line k) tokens)
  | Raise (SyntaxError (LexerUnknownChar c ln)) =>
      Raise (SyntaxError (LexerUnknownChar c (ln + k)))
  | Raise e => Raise e
  | OutOfFuel => OutOfFuel
  | IllTyped => IllTyped
  end.

(** The tokens of a first text without their EOF, then those of what
    follows; the error of the first text if it has one. *)
Definition then_tokens (first rest : result (list Token)) : result (list Token) :=
  match first with
  | Ok tokens => prepend (removelast tokens) rest
  | Raise e => Raise e
  | OutOfFuel => OutOfFuel
  | IllTyped => IllTyped
  end.

(** ** Operators and operands *)

(** The comparison operators of the table [ops]. *)
Definition comparison_operators : list string := ["=="; "!="; "<"; ">"; "<="; ">="]%string.

(** An operand of one token, a number or a variable, with its token and
    its tree. *)
Inductive operand : Type :=
| OpNumber (v : value)
| OpVar (name : string).

Definition operand_token (x : operand) (ln : Z) : Token :=
  match x with
  | OpNumber v => mkToken NUMBER (TNum v) ln
  | OpVar name => mkToken IDENT (TStr name) ln
  end.

Definition operand_node (x : operand) : Node :=
  match x with
  | OpNumber v => NumberNode v
  | OpVar name => VarNode name
  end.

(** The binary operators: the type of the token and its text, which is
    also the operator of the tree. *)
Definition binary_operators : list (TokenType.t * string) :=
  [ (EQ, "=="); (NEQ, "!="); (LT, "<"); (GT, ">"); (LTE, "<="); (GTE, ">=");
    (PLUS, "+"); (MINUS, "-"); (MUL, "*"); (DIV, "/"); (MOD, "%"); (POW, "**") ]%string.

Definition operator_token (o : TokenType.t * string) (ln : Z) : Token :=
  mkToken (fst o) (TStr (snd o)) ln.

(** The level of an operator in the grammar: the method of the parser
    that reads it, [comparison] 1, [additive] 2, [multiplicative] 3,
    [power] 4. *)
Definition level (o : TokenType.t * string) : nat :=
  match fst o with
  | EQ | NEQ | LT | GT | LTE | GTE => 1
  | PLUS | MINUS => 2
  | MUL | DIV | MOD => 3
  | POW => 4
  | _ => 0
  end%nat.

(** In [x o1 y o2 z] the first operator takes [y]: the second one does not
    bind tighter, and the two are not both [**]. *)
Definition groups_left (o1 o2 : TokenType.t * string) : bool :=
  Nat.leb (level o2) (level o1) && negb (Nat.eqb (level o1) 4 && Nat.eqb (level o2) 4).

(** The tokens of [x o1 y o2 z] and the two trees they can give. *)
Definition three_operands (x : operand) (o1 : TokenType.t * string) (y : operand)
           (o2 : TokenType.t * string) (z : operand) (ln : Z) : list Token :=
  [ operand_token x ln; operator_token o1 ln; operand_token y ln;
    operator_token o2 ln; operand_token z ln; eof_token ln ].

Definition left_grouped (x : operand) (o1 : TokenType.t * string) (y : operand)
           (o2 : TokenType.t * string) (z : operand) : Node :=
  BinOpNode (BinOpNode (operand_node x) (snd o1) (operand_node y)) (snd o2) (operand_node z).

Definition right_grouped (x : operand) (o1 : TokenType.t * string) (y : operand)
           (o2 : TokenType.t * string) (z : operand) : Node :=
  BinOpNode (operand_node x) (snd o1) (BinOpNode (operand_node y) (snd o2) (operand_node z)).

Definition minus_token (ln : Z) : Token := mkToken MINUS (TStr "-") ln.

(** ** The shape of a parsed tree *)

(** The value of a number literal: an int that is not negative, or a
    float. *)
Definition number_value (v : value) : bool :=
  match v with
  | VInt z => 0 <=? z
  | VFloat _ => true
  | VNone | VComplex _ _ => false
  end.

(** The name of a variable: any text but a keyword. *)
Definition variable_name (name : string) : bool :=
  negb (existsb (String.eqb name) Lexer.KEYWORDS).

(** The keys of the table [ops] of the evaluator. *)
Definition known_operator (op : string) : bool :=
  existsb (String.eqb op) (map snd binary_operators).

(** The trees of the expression grammar: numbers, variables that are no
    keywords, binary operators of the table, and the unary minus. *)
Fixpoint is_expression (node : Node) : bool :=
  match node with
  | NumberNode v => number_value v
  | VarNode name => variable_name name
  | BinOpNode l op r => is_expression l && known_operator op && is_expression r
  | UnaryNode op operand => String.eqb op "-" && is_expression operand
  | AssignNode _ _ | PrintNode _ | IfNode _ _ _ | WhileNode _ _ | BlockNode _ => false
  end.

(** The trees of the statement grammar: [print] and assignment of an
    expression, [if] and [while] on an expression with statements as body,
    and an expression on its own. *)
Fixpoint is_statement (node : Node) : bool :=
  match node with
  | PrintNode e => is_expression e
  | AssignNode name e => variable_name name && is_expression e
  | IfNode c t e =>
      is_expression c && forallb is_statement t
      && match e with Some stmts => forallb is_statement stmts | None => true end
  | WhileNode c b => is_expression c && forallb is_statement b
  | BlockNode _ => false
  | NumberNode _ | VarNode _ | BinOpNode _ _ _ | UnaryNode _ _ => is_expression node
  end.

(** A program: one block, of statements. *)
Definition is_program (node : Node) : bool :=
  match node with
  | BlockNode stmts => forallb is_statement stmts
  | _ => false
  end.

(** What the lexer guarantees of the tokens the parser copies into the
    tree: the number of a NUMBER token is a literal's value, the text of an
    IDENT token is no keyword, and the text of an arithmetic operator token
    is that operator. *)
Definition canonical (tok : Token) : bool :=
  match type tok, tvalue tok with
  | NUMBER, TNum v => number_value v
  | IDENT, TStr s => variable_name s
  | PLUS, TStr s => String.eqb s "+"
  | MINUS, TStr s => String.eqb s "-"
  | MUL, TStr s => String.eqb s "*"
  | DIV, TStr s => String.eqb s "/"
  | MOD, TStr s => String.eqb s "%"
  | (NUMBER | IDENT | PLUS | MINUS | MUL | DIV | MOD), _ => false
  | _, _ => true
  end.

(** If the method returned, what it returned satisfies [Q]. *)
Definition yields {A : Type} (r : result (A * nat)) (Q : A -> Prop) : Prop :=
  match r with
  | Ok (a, _) => Q a
  | _ => True
  end.

(** The methods of the expression grammar return expressions, at one
    value of the counter. *)
Definition expression_shapes (tokens : list Token) (fuel : nat) : Prop :=
  (forall pos, yields (Parser.expression tokens fuel pos) (fun e => is_expression e = true))
  /\ (forall pos, yields (Parser.comparison tokens fuel pos) (fun e => is_expression e = true))
  /\ (forall left pos, is_expression left = true ->
        yields (Parser.comparison_loop tokens fuel left pos)
          (fun e => is_expression e = true))
  /\ (forall pos, yields (Parser.additive tokens fuel pos) (fun e => is_expression e = true))
  /\ (forall left pos, is_expression left = true ->
        yields (Parser.additive_loop tokens fuel left pos)
          (fun e => is_expression e = true))
  /\ (forall pos, yields (Parser.multiplicative tokens fuel pos)
        (fun e => is_expression e = true))
  /\ (forall left pos, is_expression left = true ->
        yields (Parser.multiplicative_loop tokens fuel left pos)
          (fun e => is_expression e = true))
  /\ (forall pos, yields (Parser.power tokens fuel pos) (fun e => is_expression e = true))
  /\ (forall pos, yields (Parser.unary tokens fuel pos) (fun e => is_expression e = true))
  /\ (forall pos, yields (Parser.primary tokens fuel pos) (fun e => is_expression e = true)).

(** The methods of the statement grammar return statements. *)
Definition statement_shapes (tokens : list Token) (fuel : nat) : Prop :=
  (forall pos, yields (Parser.statement tokens fuel pos) (fun s => is_statement s = true))
  /\ (forall stop body pos, forallb is_statement body = true ->
        yields (Parser.statements_until tokens fuel stop body pos)
          (fun stmts => forallb is_statement stmts = true))
  /\ (forall pos, yields (Parser.if_stmt tokens fuel pos) (fun s => is_statement s = true))
  /\ (forall pos, yields (Parser.while_stmt tokens fuel pos) (fun s => is_statement s = true)).

(** ** Number literals *)

(** The text starts with a character of the class [p]. *)
Definition starts_with (p : ascii -> bool) (s : string) : bool :=
  match s with
  | String c _ => p c
  | EmptyString => false
  end.

(** What can follow the digits of an int literal: no digit, and no point
    with a digit after it. *)
Definition ends_int (rest : string) : bool :=
  match rest with
  | String c rest' =>
      negb (Lexer.is_digit c)
      && negb (Ascii.eqb c "." && starts_with Lexer.is_digit rest')
  | EmptyString => true
  end.

(** ** The sample programs *)

(** [SAMPLE_PROGRAMS]: the key of the menu, the name and the text. *)
Definition SAMPLE_PROGRAMS : list (string * (string * string)) :=
  [ ("1", ("Fibonacci", "
// Fibonacci sequence
a = 0
b = 1
i = 0
while (i < 10) {
    print(a)
    temp = a + b
    a = b
    b = temp
    i = i + 1
}
"));
    ("2", ("Factorial", "
// Factorial of 6
n = 6
result = 1
i = 1
while (i <= n) {
    result = result * i
    i = i + 1
}
print(result)
"));
    ("3", ("FizzBuzz", "
// FizzBuzz 1-15
i = 1
while (i <= 15) {
    print(i)
    i = i + 1
}
"));
    ("4", ("Expressions", "
x = 2 ** 10
y = x / 4 + 3 * 5
z = y % 7
print(x)
print(y)
print(z)
")) ]%string.

(** The output log of a run that ended without a report. *)
Definition printed (r : Interpreter.RunResult) : option (list value) :=
  match r with
  | Interpreter.Returned st None => Some (output st)
  | _ => None
  end.

(** ** The values of a session *)

(** A number: an int, a float or a complex, anything but [None]. *)
Definition is_number (v : value) : bool :=
  match v with
  | VNone => false
  | VInt _ | VFloat _ | VComplex _ _ => true
  end.

(** Every variable and every entry of the output log is a number. *)
Definition numbers_only (st : Interp) : Prop :=
  (forall name v, env st !! name = Some v -> is_number v = true)
  /\ Forall (fun v => is_number v = true) (output st).

(** The interpreter a call of [run] leaves behind, returned or not. *)
Definition left_behind (r : Interpreter.RunResult) : option Interp :=
  match r with
  | Interpreter.Returned st _ | Interpreter.Uncaught _ st => Some st
  | Interpreter.Undefined => None
  end.

(** ** Conditions *)

(** The values that count as false in a condition: [None] and the zeros. *)
Definition counts_as_false (v : value) : bool :=
  is_zero v || negb (is_number v).

(** The statements an [if] runs on the value [v] of its condition. *)
Definition chosen_branch (v : value) (then_body : list Node) (else_body : option (list Node))
  : list Node :=
  if counts_as_false v
  then match else_body with Some stmts => stmts | None => [] end
  else then_body.

(** The three keywords that a parenthesis must follow. *)
Definition statement_keywords : list TokenType.t := [PRINT; IF; WHILE].

(** ** The exceptions of a program *)

(** The exception is one that the host's [pow] or complex arithmetic
    raises on some operands. *)
Definition host_raises (host : HostMath) (e : PyExc) : Prop :=
  (exists x y, libm_pow host x y = Throw e)
  \/ (exists op a b, complex_arith host op a b = Throw e).

(** What the evaluation of a parsed program can raise: an exception that
    [run] catches, a TypeError, an OverflowError, the ValueError of the
    digit limit, or what the host raises. *)
Definition expected (host : HostMath) (e : PyExc) : Prop :=
  caught_by_run e = true \/ e = TypeError \/ e = OverflowError \/ e = ValueError
  \/ host_raises host e.

(** A method of the interpreter that raises expected exceptions only. *)
Definition raises_expected (host : HostMath) {A : Type} (m : Interpreter.M A) : Prop :=
  forall st e st', m st = (Raise e, st') -> expected host e.

(* ===================================================================== *)
(** * Vocabulary: the parser and the call stack, the prefix minus *)
(* ===================================================================== *)

(** ** The bounded parser and the parser *)

(** The answer of a bounded method is the answer of the method, unless no
    frame was left. *)
Definition refines {A : Type} (bounded answer : result A) : Prop :=
  bounded = answer \/ bounded = Raise RecursionError.

Definition approximates {A : Type} (bounded method : Parser.P A) : Prop :=
  forall pos, refines (bounded pos) (method pos).

(** The bounded methods of the expression grammar approximate the methods,
    at one value of the counter and with any number of frames. *)
Definition expression_bounded (tokens : list Token) (fuel : nat) : Prop :=
  forall frames,
    approximates (Bounded.expression tokens fuel frames) (Parser.expression tokens fuel)
    /\ approximates (Bounded.comparison tokens fuel frames) (Parser.comparison tokens fuel)
    /\ (forall left,
          approximates (Bounded.comparison_loop tokens fuel frames left)
            (Parser.comparison_loop tokens fuel left))
    /\ approximates (Bounded.additive tokens fuel frames) (Parser.additive tokens fuel)
    /\ (forall left,
          approximates (Bounded.additive_loop tokens fuel frames left)
            (Parser.additive_loop tokens fuel left))
    /\ approximates (Bounded.multiplicative tokens fuel frames)
         (Parser.multiplicative tokens fuel)
    /\ (forall left,
          approximates (Bounded.multiplicative_loop tokens fuel frames left)
            (Parser.multiplicative_loop tokens fuel left))
    /\ approximates (Bounded.power tokens fuel frames) (Parser.power tokens fuel)
    /\ approximates (Bounded.unary tokens fuel frames) (Parser.unary tokens fuel)
    /\ approximates (Bounded.primary tokens fuel frames) (Parser.primary tokens fuel).

Definition statement_bounded (tokens : list Token) (fuel : nat) : Prop :=
  forall frames,
    approximates (Bounded.statement tokens fuel frames) (Parser.statement tokens fuel)
    /\ (forall stop body,
          approximates (Bounded.statements_until tokens fuel frames stop body)
            (Parser.statements_until tokens fuel stop body))
    /\ approximates (Bounded.if_stmt tokens fuel frames) (Parser.if_stmt tokens fuel)
    /\ approximates (Bounded.while_stmt tokens fuel frames) (Parser.while_stmt tokens fuel).

(** With more frames than the counter the bounded methods are the methods. *)
Definition agrees {A : Type} (bounded method : Parser.P A) : Prop :=
  forall pos, bounded pos = method pos.

Definition expression_unbounded (tokens : list Token) (fuel : nat) : Prop :=
  forall frames, (fuel + 2 <= frames)%nat ->
    agrees (Bounded.expression tokens fuel frames) (Parser.expression tokens fuel)
    /\ agrees (Bounded.comparison tokens fuel frames) (Parser.comparison tokens fuel)
    /\ (forall left,
          agrees (Bounded.comparison_loop tokens fuel frames left)
            (Parser.comparison_loop tokens fuel left))
    /\ agrees (Bounded.additive tokens fuel frames) (Parser.additive tokens fuel)
    /\ (forall left,
          agrees (Bounded.additive_loop tokens fuel frames left)
            (Parser.additive_loop tokens fuel left))
    /\ agrees (Bounded.multiplicative tokens fuel frames) (Parser.multiplicative tokens fuel)
    /\ (forall left,
          agrees (Bounded.multiplicative_loop tokens fuel frames left)
            (Parser.multiplicative_loop tokens fuel left))
    /\ agrees (Bounded.power tokens fuel frames) (Parser.power tokens fuel)
    /\ agrees (Bounded.unary tokens fuel frames) (Parser.unary tokens fuel)
    /\ agrees (Bounded.primary tokens fuel frames) (Parser.primary tokens fuel).

Definition statement_unbounded (tokens : list Token) (fuel : nat) : Prop :=
  forall frames, (fuel + 2 <= frames)%nat ->
    agrees (Bounded.statement tokens fuel frames) (Parser.statement tokens fuel)
    /\ (forall stop body,
          agrees (Bounded.statements_until tokens fuel frames stop body)
            (Parser.statements_until tokens fuel stop body))
    /\ agrees (Bounded.if_stmt tokens fuel frames) (Parser.if_stmt tokens fuel)
    /\ agrees (Bounded.while_stmt tokens fuel frames) (Parser.while_stmt tokens fuel).

(** The frames that are enough for any text of these tokens: more than the
    counter of [parse]. *)
Definition ample_frames (tokens : list Token) : nat := (Parser.parse_fuel tokens + 3)%nat.

(** ** Parentheses *)







(** ** What the parser read *)

(** If the method returned, it stopped at a position where [Q] holds. *)
Definition reaches {A : Type} (r : result (A * nat)) (Q : nat -> Prop) : Prop :=
  match r with
  | Ok (_, p) => Q p
  | _ => True
  end.








(** ** Deep texts *)

(** [n] opening parentheses in front of a text, and their tokens. *)
Fixpoint nested (n : nat) (inner : string) : string :=
  match n with
  | O => inner
  | S n' => String "(" (nested n' inner)
  end.

Definition lparen_token (ln : Z) : Token := mkToken LPAREN (TStr "(") ln.

(** [k] opening parentheses stand in the tokens from [pos] on. *)
Definition parentheses_from (tokens : list Token) (k pos : nat) : Prop :=
  forall j, (j < k)%nat ->
    exists tok, tokens !! (pos + j)%nat = Some tok /\ type tok = LPAREN.

(** The tokens of [--5] after [n] opening parentheses. *)
Definition nested_doubled_minus (n : nat) : list Token :=
  replicate n (lparen_token 1)
  ++ [minus_token 1; minus_token 1; mkToken NUMBER (TNum (VInt 5)) 1; eof_token 1].



(** The tree of a source text when the parser is given [frames] frames. *)
Definition parse_text_within (frames : nat) (source : string) : result Node :=
  match Lexer.tokenize source with
  | Ok tokens => Bounded.parse tokens frames
  | Raise e => Raise e
  | OutOfFuel => OutOfFuel
  | IllTyped => IllTyped
  end.

(** ** Long numbers *)

(** Somewhere in the text more digits stand in a row than [int] converts. *)
Fixpoint has_long_number (s : string) : bool :=
  match s with
  | String c s' =>
      (Lexer.MAX_STR_DIGITS <? Z.of_nat (String.length (Lexer.take_while Lexer.is_digit s)))
      || has_long_number s'
  | EmptyString => false
  end.

(* ===================================================================== *)
(** * Lexer: facts *)
(* ===================================================================== *)

Section LexerFacts.
Import Lexer.

(** ** Strings *)

Lemma append_cons c s t : (String c s ++ t)%string = String c (s ++ t)%string.
Proof. reflexivity. Qed.

Lemma append_assoc s t u : ((s ++ t) ++ u)%string = (s ++ (t ++ u))%string.
Proof.
  induction s as [|c s IH]; [reflexivity|].
  rewrite !append_cons, IH. reflexivity.
Qed.

Lemma length_append s t :
  String.length (s ++ t) = (String.length s + String.length t)%nat.
Proof.
  induction s as [|c s IH]; [reflexivity|].
  rewrite append_cons. simpl. now rewrite IH.
Qed.

Lemma count_newlines_app s t :
  count_newlines (s ++ t) = count_newlines s + count_newlines t.
Proof.
  induction s as [|c s IH]; [reflexivity|].
  rewrite append_cons. simpl. rewrite IH. lia.
Qed.

Lemma count_newlines_nonneg s : 0 <= count_newlines s.
Proof. induction s as [|c s IH]; simpl; [lia|]. destruct (Ascii.eqb c newline); lia. Qed.

Lemma take_drop_while p s : (take_while p s ++ drop_while p s)%string = s.
Proof.
  induction s as [|c s IH]; simpl; [reflexivity|].
  destruct (p c); [rewrite append_cons, IH|]; reflexivity.
Qed.

Lemma drop_app_length s t : drop (String.length s) (s ++ t) = t.
Proof.
  induction s as [|c s IH]; [now destruct t|].
  rewrite append_cons. simpl. exact IH.
Qed.

Lemma drop_while_length p s : (String.length (drop_while p s) <= String.length s)%nat.
Proof.
  induction s as [|c s IH]; simpl; [lia|].
  destruct (p c); simpl; lia.
Qed.

Lemma drop_while_newlines s :
  count_newlines (drop_while (fun c => negb (Ascii.eqb c newline)) s) = count_newlines s.
Proof.
  induction s as [|c s IH]; simpl; [reflexivity|].
  destruct (Ascii.eqb c newline) eqn:E; simpl; [now rewrite E | lia].
Qed.

Lemma take_while_no_newline p s :
  (forall c, p c = true -> Ascii.eqb c newline = false) ->
  count_newlines (take_while p s) = 0.
Proof.
  intros Hp. induction s as [|c s IH]; simpl; [reflexivity|].
  destruct (p c) eqn:E; simpl; [|reflexivity].
  rewrite (Hp _ E), IH. reflexivity.
Qed.

Lemma prefix_app text s : String.prefix text s = true -> exists s', s = (text ++ s')%string.
Proof.
  revert s. induction text as [|c text IH]; intros s H.
  - now exists s.
  - destruct s as [|c' s]; simpl in H; [discriminate|].
    destruct (ascii_dec c c') as [->|Hne]; [|discriminate].
    destruct (IH _ H) as [s' ->]. exists s'. now rewrite append_cons.
Qed.

(** ** Character classes *)

Lemma is_digit_not_newline c : is_digit c = true -> Ascii.eqb c newline = false.
Proof. by_cases_on_char c. Qed.

Lemma is_word_not_newline c : is_word c = true -> Ascii.eqb c newline = false.
Proof. by_cases_on_char c. Qed.

Lemma is_ident_start_not_newline c :
  is_ident_start c = true -> Ascii.eqb c newline = false.
Proof. by_cases_on_char c. Qed.

Lemma is_digit_not_ident_start c : is_digit c = true -> is_ident_start c = false.
Proof. by_cases_on_char c. Qed.

(** ** Matches *)

Lemma TOKEN_PATTERNS_ok : Forall pattern_ok TOKEN_PATTERNS.
Proof. unfold TOKEN_PATTERNS, pattern_ok. repeat constructor; simpl; discriminate. Qed.

(** A match of a rule of the table is a prefix of the input, is not empty,
    and holds no newline. *)
Lemma re_match_prefix p k s val :
  pattern_ok (p, k) -> re_match p s = Some val ->
  (exists s', s = (val ++ s')%string) /\ count_newlines val = 0 /\ val <> EmptyString.
Proof.
  intros [Hp _] H. destruct p as [| |text]; simpl in H, Hp.
  - pose proof (take_drop_while is_digit s) as Hs.
    pose proof (take_while_no_newline is_digit s is_digit_not_newline) as Hn.
    destruct (take_while is_digit s) as [|d ds] eqn:Ed; [discriminate|].
    destruct (drop_while is_digit s) as [|c after] eqn:Ea.
    + injection H as <-. split; [exists EmptyString; now rewrite <- Hs|]. now split.
    + destruct (Ascii.eqb c "."%char) eqn:Ec.
      * apply Ascii.eqb_eq in Ec. subst c.
        pose proof (take_drop_while is_digit after) as Hs2.
        pose proof (take_while_no_newline is_digit after is_digit_not_newline) as Hn2.
        destruct (take_while is_digit after) as [|f fs] eqn:Ef.
        -- injection H as <-. split; [eexists; symmetry; exact Hs|]. now split.
        -- injection H as <-. split; [|split].
           ++ exists (drop_while is_digit after). rewrite <- Hs at 1.
              rewrite <- Hs2 at 1. rewrite append_assoc. reflexivity.
           ++ rewrite count_newlines_app, Hn. simpl. simpl in Hn2. lia.
           ++ rewrite append_cons. discriminate.
      * assert (Some (String d ds) = Some val) as Hv.
        { revert H. destruct c as [[] [] [] [] [] [] [] []]; try discriminate Ec; auto. }
        injection Hv as <-. split; [eexists; symmetry; exact Hs|]. now split.
  - destruct s as [|c s]; [discriminate|].
    destruct (is_ident_start c) eqn:Ec; [|discriminate].
    injection H as <-. split; [|split].
    + exists (drop_while is_word s). rewrite append_cons, take_drop_while. reflexivity.
    + simpl. rewrite (is_ident_start_not_newline _ Ec).
      rewrite (take_while_no_newline is_word s is_word_not_newline). reflexivity.
    + discriminate.
  - destruct (String.prefix text s) eqn:E; [|discriminate].
    injection H as <-. split; [now apply prefix_app | exact Hp].
Qed.

Lemma first_match_ok patterns s ttype val :
  Forall pattern_ok patterns ->
  first_match patterns s = Some (ttype, val) ->
  ttype <> EOF /\ (exists s', s = (val ++ s')%string)
  /\ count_newlines val = 0 /\ val <> EmptyString.
Proof.
  induction 1 as [|[p k] patterns Hp _ IH]; simpl; [discriminate|].
  destruct (re_match p s) as [v|] eqn:E; [|exact IH].
  intros [= <- <-]. split; [exact (proj2 Hp)|]. exact (re_match_prefix _ _ _ _ Hp E).
Qed.

(** The token of a number: its value is a float, or the int of the
    digits when there are not too many. *)
Lemma make_token_number val ln tok :
  make_token NUMBER val ln = Return tok ->
  exists v, tok = mkToken NUMBER (TNum v) ln.
Proof.
  unfold make_token, python_int.
  destruct (contains "." val); [|destruct (MAX_STR_DIGITS <? _)]; simpl;
    try discriminate; intros [= <-]; eauto.
Qed.

(** The only exception of [make_token] is that of [int]. *)
Lemma make_token_throw ttype val ln e : make_token ttype val ln = Throw e -> e = ValueError.
Proof.
  destruct ttype; unfold make_token, python_int; try discriminate.
  destruct (contains "." val); [|destruct (MAX_STR_DIGITS <? _)]; simpl;
    try discriminate. now intros [= <-].
Qed.

Lemma make_token_line ttype val ln tok : make_token ttype val ln = Return tok -> line tok = ln.
Proof.
  destruct ttype; try (intros [= <-]; reflexivity).
  - intros H. apply make_token_number in H. destruct H as [v ->]. reflexivity.
  - unfold make_token.
    destruct (existsb (String.eqb val) KEYWORDS); intros [= <-]; reflexivity.
Qed.

Lemma make_token_not_eof ttype val ln tok :
  ttype <> EOF -> make_token ttype val ln = Return tok -> type tok <> EOF.
Proof.
  intros H. destruct ttype; try (intros [= <-]; simpl; congruence).
  - intros Hm. apply make_token_number in Hm. destruct Hm as [v ->]. discriminate.
  - unfold make_token.
    destruct (existsb (String.eqb val) KEYWORDS); intros [= <-]; simpl; [|discriminate].
    unfold keyword_type. repeat destruct (String.eqb _ _); discriminate.
Qed.

Lemma make_token_well_typed ttype val ln tok :
  ttype <> EOF -> make_token ttype val ln = Return tok -> well_typed tok = true.
Proof.
  intros H. destruct ttype; try (intros [= <-]; reflexivity); try congruence.
  - intros Hm. apply make_token_number in Hm. destruct Hm as [v ->]. reflexivity.
  - unfold make_token.
    destruct (existsb (String.eqb val) KEYWORDS); intros [= <-]; [|reflexivity].
    unfold keyword_type. repeat destruct (String.eqb _ _); reflexivity.
Qed.

(** ** The loop of [tokenize] *)

(** From a state of the loop to its result: the tokens so far are kept, the
    new ones carry lines between the current line and the last one, in
    order, none of them is EOF, and one EOF closes the list, on the current
    line plus the newlines still to read. *)
Lemma tokenize_loop_spec fuel : forall rest ln tokens result,
  tokenize_loop fuel rest ln tokens = Ok result ->
  exists more,
    result = tokens ++ more ++ [eof_token (ln + count_newlines rest)]
    /\ Forall (fun t => (type t <> EOF /\ well_typed t = true)
                         /\ ln <= line t <= ln + count_newlines rest) more
    /\ StronglySorted Z.le (map line more).
Proof.
  induction fuel as [|fuel IH]; intros rest ln tokens result H;
    cbn [tokenize_loop] in H; [discriminate|].
  destruct rest as [|c rest'].
  - injection H as <-. exists []. simpl. rewrite Z.add_0_r.
    split; [reflexivity|]. split; constructor.
  - destruct (isspace c) eqn:Esp.
    { apply IH in H. destruct H as (more & -> & Hall & Hs).
      exists more. simpl count_newlines.
      destruct (Ascii.eqb c newline).
      - split; [f_equal; f_equal; f_equal; f_equal; lia|]. split; [|exact Hs].
        eapply List.Forall_impl; [|exact Hall]. simpl. intros t [? ?]. split; [assumption|lia].
      - split; [f_equal; f_equal; f_equal; f_equal; lia|]. split; [|exact Hs].
        eapply List.Forall_impl; [|exact Hall]. simpl. intros t [? ?]. split; [assumption|lia]. }
    destruct (String.prefix "//" (String c rest')) eqn:Ecom.
    { apply IH in H. destruct H as (more & -> & Hall & Hs).
      rewrite drop_while_newlines in *. exists more. auto. }
    destruct (first_match TOKEN_PATTERNS (String c rest')) as [[ttype val]|] eqn:Em;
      [|discriminate].
    destruct (first_match_ok _ _ _ _ TOKEN_PATTERNS_ok Em) as (Hk & [s' Hs'] & Hn & _).
    destruct (make_token ttype val ln) as [tok|e] eqn:Emk; [|discriminate].
    apply IH in H. destruct H as (more & -> & Hall & Hs).
    rewrite Hs' in *. rewrite drop_app_length in *.
    rewrite count_newlines_app, Hn, Z.add_0_l.
    exists (tok :: more). split; [|split].
    + rewrite <- app_assoc. reflexivity.
    + constructor; [|exact Hall]. rewrite (make_token_line _ _ _ _ Emk).
      split; [split; [now apply (make_token_not_eof ttype val ln)
                     | now apply (make_token_well_typed ttype val ln)]|].
      pose proof (count_newlines_nonneg s'). lia.
    + simpl. constructor; [exact Hs|]. rewrite (make_token_line _ _ _ _ Emk).
      apply List.Forall_map. eapply List.Forall_impl; [|exact Hall]. simpl. intros t [_ ?]. lia.
Qed.

Lemma sorted_snoc (l : list Z) (y : Z) :
  StronglySorted Z.le l -> Forall (fun x => x <= y) l -> StronglySorted Z.le (l ++ [y]).
Proof.
  induction 1 as [|x l Hs IH Hx]; intros Hy; simpl.
  - repeat constructor.
  - inversion Hy; subst. constructor; [now apply IH|].
    apply List.Forall_app. split; [exact Hx|]. now repeat constructor.
Qed.

(** The counter the loop is started with is enough: every round moves on by
    at least one character. *)
Lemma tokenize_loop_total fuel : forall rest ln tokens,
  (String.length rest < fuel)%nat ->
  lexer_answer (tokenize_loop fuel rest ln tokens).
Proof.
  induction fuel as [|fuel IH]; intros rest ln tokens Hlen; [lia|].
  cbn [tokenize_loop]. destruct rest as [|c rest'].
  - left. eauto.
  - simpl in Hlen. destruct (isspace c); [apply IH; lia|].
    destruct (String.prefix "//" (String c rest')) eqn:Ecom.
    { apply IH. apply prefix_app in Ecom. destruct Ecom as [s' Hs'].
      rewrite append_cons in Hs'. injection Hs' as -> _.
      simpl. pose proof (drop_while_length (fun c => negb (Ascii.eqb c newline)) rest'). lia. }
    destruct (first_match TOKEN_PATTERNS (String c rest')) as [[ttype val]|] eqn:Em.
    + destruct (first_match_ok _ _ _ _ TOKEN_PATTERNS_ok Em) as (_ & [s' Hs'] & _ & Hne).
      destruct (make_token ttype val ln) as [tok|e] eqn:Emk.
      * apply IH. rewrite Hs', drop_app_length.
        assert (String.length (String c rest') = String.length (val ++ s')) as Hl
          by now rewrite Hs'.
        rewrite length_append in Hl. simpl in Hl.
        destruct val; [congruence|]. simpl in Hl. lia.
      * right. right. now rewrite (make_token_throw _ _ _ _ Emk).
    + right. left. eauto.
Qed.

Lemma tokenize_total source : lexer_answer (tokenize source).
Proof. apply tokenize_loop_total. lia. Qed.

(** The tokens of [tokenize] are well typed and end with the only EOF. *)
Lemma tokenize_lexed source tokens :
  tokenize source = Ok tokens -> exists n, lexed tokens n.
Proof.
  intros H. apply tokenize_loop_spec in H. destruct H as (body & -> & Hall & _).
  simpl. exists (length body). unfold lexed, type_at. split; [|split; [|split]].
  - rewrite length_app. simpl. lia.
  - rewrite lookup_app_r by lia. now rewrite Nat.sub_diag.
  - apply List.Forall_app. split; [|now repeat constructor].
    eapply List.Forall_impl; [|exact Hall]. simpl. tauto.
  - intros i Hi. rewrite lookup_app_l by exact Hi.
    destruct (body !! i) as [t|] eqn:E; [|discriminate].
    rewrite List.Forall_forall in Hall.
    assert (In t body) as Hin by (apply list_elem_of_In; eapply list_elem_of_lookup_2; eauto).
    destruct (Hall t Hin) as [[Hne _] _]. simpl. congruence.
Qed.

(** ** Which rule wins *)

Lemma two_char_operator_wins (op : string) (k : TokenType.t) (rest : string) :
  In (op, k) [("==", EQ); ("!=", NEQ); ("<=", LTE); (">=", GTE); ("**", POW)]%string ->
  first_match TOKEN_PATTERNS (op ++ rest) = Some (k, op).
Proof.
  intros H. simpl in H.
  destruct H as [H|[H|[H|[H|[H|[]]]]]]; injection H as <- <-.
  all: destruct rest; vm_compute; reflexivity.
Qed.

Lemma digit_starts_number c s :
  is_digit c = true ->
  exists val, first_match TOKEN_PATTERNS (String c s) = Some (NUMBER, val).
Proof.
  intros Hd. unfold TOKEN_PATTERNS. cbn [first_match re_match take_while]. rewrite Hd.
  destruct (drop_while is_digit (String c s)) as [|c' after]; [eauto|].
  destruct c' as [[] [] [] [] [] [] [] []]; eauto.
  destruct (take_while is_digit after); eauto.
Qed.

(** C5.  The rules are tried in the order of the table: NUMBER before IDENT,
    [==] before [=], [<=] before [<], [>=] before [>], [**] before [*].  So
    a text that starts with a two-character operator gives that operator
    (whatever follows), a text that starts with a digit gives a NUMBER, and
    the source [a==b] gives IDENT(a), EQ, IDENT(b), EOF. *)
Theorem lexical_tie_breaking :
  tried_before NUMBER IDENT = true
  /\ tried_before EQ ASSIGN = true
  /\ tried_before LTE LT = true
  /\ tried_before GTE GT = true
  /\ tried_before POW MUL = true
  /\ (forall rest, first_match TOKEN_PATTERNS ("==" ++ rest) = Some (EQ, "=="))
  /\ (forall rest, first_match TOKEN_PATTERNS ("!=" ++ rest) = Some (NEQ, "!="))
  /\ (forall rest, first_match TOKEN_PATTERNS ("<=" ++ rest) = Some (LTE, "<="))
  /\ (forall rest, first_match TOKEN_PATTERNS (">=" ++ rest) = Some (GTE, ">="))
  /\ (forall rest, first_match TOKEN_PATTERNS ("**" ++ rest) = Some (POW, "**"))
  /\ (forall c rest, is_digit c = true ->
        exists val, first_match TOKEN_PATTERNS (String c rest) = Some (NUMBER, val))
  /\ tokenize "a==b"
     = Ok [mkToken IDENT (TStr "a") 1; mkToken EQ (TStr "==") 1;
           mkToken IDENT (TStr "b") 1; mkToken EOF TNone 1].
Proof.
  repeat split; try reflexivity.
  1-5: intros rest; apply two_char_operator_wins; simpl; tauto.
  apply digit_starts_number.
Qed.

(** C6.  When [tokenize] succeeds, the tokens end with one EOF token, the
    only one of the list, on the last line of the text (one plus the number
    of its newlines); every line number is at least 1, and the line numbers
    never decrease along the list. *)
Theorem tokenize_ends_with_eof source tokens :
  tokenize source = Ok tokens ->
  exists body,
    tokens = body ++ [eof_token (1 + count_newlines source)]
    /\ Forall (fun t => type t <> EOF) body
    /\ Forall (fun t => 1 <= line t) tokens
    /\ StronglySorted Z.le (map line tokens).
Proof.
  intros H. apply tokenize_loop_spec in H. destruct H as (body & -> & Hall & Hs).
  exists body. simpl. split; [reflexivity|]. split; [|split].
  - eapply List.Forall_impl; [|exact Hall]. simpl. tauto.
  - apply List.Forall_app. split.
    + eapply List.Forall_impl; [|exact Hall]. simpl. intros t [_ ?]. lia.
    + constructor; [|constructor]. simpl. pose proof (count_newlines_nonneg source). lia.
  - rewrite map_app. simpl. apply sorted_snoc; [exact Hs|].
    apply List.Forall_map. eapply List.Forall_impl; [|exact Hall]. simpl. intros t [_ ?]. lia.
Qed.

Lemma tokenize_ends_with_eof_witness :
  tokenize two_line_source = Ok two_line_tokens
  /\ exists body,
       two_line_tokens = body ++ [eof_token (1 + count_newlines two_line_source)]
       /\ Forall (fun t => type t <> EOF) body
       /\ Forall (fun t => 1 <= line t) two_line_tokens
       /\ StronglySorted Z.le (map line two_line_tokens).
Proof.
  split; [reflexivity|].
  apply (tokenize_ends_with_eof two_line_source two_line_tokens). reflexivity.
Defined.

End LexerFacts.

(* ===================================================================== *)
(** * Lexer: the counter and the accumulator of the loop *)
(* ===================================================================== *)

Section LexerLoop.
Import Lexer.

(** Any two counters that are large enough give the same result. *)
Lemma tokenize_loop_fuel f1 : forall f2 rest ln tokens,
  (String.length rest < f1)%nat -> (String.length rest < f2)%nat ->
  tokenize_loop f1 rest ln tokens = tokenize_loop f2 rest ln tokens.
Proof.
  induction f1 as [|f1 IH]; intros f2 rest ln tokens H1 H2; [lia|].
  destruct f2 as [|f2]; [lia|].
  cbn [tokenize_loop]. destruct rest as [|c rest']; [reflexivity|].
  simpl in H1, H2. destruct (isspace c); [apply IH; lia|].
  destruct (String.prefix "//" (String c rest')) eqn:Ecom.
  { apply prefix_app in Ecom. destruct Ecom as [s' Hs'].
    rewrite append_cons in Hs'. injection Hs' as -> _.
    pose proof (drop_while_length (fun c => negb (Ascii.eqb c newline)) rest').
    apply IH; simpl; lia. }
  destruct (first_match TOKEN_PATTERNS (String c rest')) as [[ttype val]|] eqn:Em;
    [|reflexivity].
  destruct (first_match_ok _ _ _ _ TOKEN_PATTERNS_ok Em) as (_ & [s' Hs'] & _ & Hne).
  assert (String.length (String c rest') = String.length (val ++ s')) as Hl
    by now rewrite Hs'.
  rewrite length_append in Hl. simpl in Hl.
  rewrite Hs', drop_app_length.
  destruct (make_token ttype val ln); [|reflexivity].
  destruct val; [congruence|]. simpl in Hl. apply IH; lia.
Qed.

Lemma tokenize_from fuel rest :
  (String.length rest < fuel)%nat -> tokenize_loop fuel rest 1 [] = tokenize rest.
Proof. intros H. apply tokenize_loop_fuel; [exact H | lia]. Qed.

Lemma prepend_prepend a b r : prepend a (prepend b r) = prepend (a ++ b) r.
Proof. destruct r; simpl; [now rewrite app_assoc| | |]; reflexivity. Qed.

Lemma prepend_nil r : prepend [] r = r.
Proof. now destruct r. Qed.

(** The tokens read so far only wait in front of the result. *)
Lemma tokenize_loop_acc fuel : forall rest ln tokens,
  tokenize_loop fuel rest ln tokens = prepend tokens (tokenize_loop fuel rest ln []).
Proof.
  induction fuel as [|fuel IH]; intros rest ln tokens; [reflexivity|].
  cbn [tokenize_loop]. destruct rest as [|c rest']; [reflexivity|].
  destruct (isspace c); [apply IH|].
  destruct (String.prefix "//" (String c rest')); [apply IH|].
  destruct (first_match TOKEN_PATTERNS (String c rest')) as [[ttype val]|]; [|reflexivity].
  destruct (make_token ttype val ln); [|reflexivity].
  rewrite IH. rewrite (IH _ _ ([] ++ _)). rewrite prepend_prepend. reflexivity.
Qed.

(** A text that starts with an opening parenthesis. *)
Lemma tokenize_parenthesis s :
  tokenize (String "(" s) = prepend [lparen_token 1] (tokenize s).
Proof.
  unfold tokenize at 1. cbn [tokenize_loop]. change (isspace "(") with false. cbv iota.
  assert (String.prefix "//" (String "(" s) = false) as -> by reflexivity.
  assert (first_match TOKEN_PATTERNS (String "(" s) = Some (LPAREN, "("%string)) as ->
    by (destruct s; reflexivity).
  cbn [make_token String.length drop]. rewrite tokenize_loop_acc, tokenize_from by (simpl; lia).
  reflexivity.
Qed.

Lemma tokenize_nested n inner :
  tokenize (nested n inner) = prepend (replicate n (lparen_token 1)) (tokenize inner).
Proof.
  induction n as [|n IH]; simpl; [now rewrite prepend_nil|].
  rewrite tokenize_parenthesis, IH, prepend_prepend. reflexivity.
Qed.
End LexerLoop.

(* ===================================================================== *)
(** * Evaluator: facts *)
(* ===================================================================== *)

Import Interpreter.

(** Induction on trees, with the hypothesis for every statement of a body. *)
Lemma Node_ind (P : Node -> Prop)
  (HNumber : forall v, P (NumberNode v))
  (HVar : forall name, P (VarNode name))
  (HBinOp : forall l op r, P l -> P r -> P (BinOpNode l op r))
  (HUnary : forall op operand, P operand -> P (UnaryNode op operand))
  (HAssign : forall name v, P v -> P (AssignNode name v))
  (HPrint : forall e, P e -> P (PrintNode e))
  (HIf : forall c t e, P c -> Forall P t ->
     match e with Some stmts => Forall P stmts | None => True end ->
     P (IfNode c t e))
  (HWhile : forall c b, P c -> Forall P b -> P (WhileNode c b))
  (HBlock : forall stmts, Forall P stmts -> P (BlockNode stmts)) :
  forall node, P node.
Proof.
  fix IH 1. intros node.
  assert (forall l, Forall P l) as IHs.
  { fix IHl 1. intros [|n l]; constructor; [apply IH | apply IHl]. }
  destruct node as [v|name|l op r|op operand|name v|e|c t e|c b|stmts].
  - apply HNumber.
  - apply HVar.
  - apply HBinOp; apply IH.
  - apply HUnary; apply IH.
  - apply HAssign; apply IH.
  - apply HPrint; apply IH.
  - apply HIf; [apply IH | apply IHs | destruct e; [apply IHs | exact I]].
  - apply HWhile; [apply IH | apply IHs].
  - apply HBlock; apply IHs.
Qed.

(** ** Methods that move the state along a preorder *)

Section Preserves.
Variable R : Interp -> Interp -> Prop.
Hypothesis R_refl : forall st, R st st.
Hypothesis R_trans : forall a b c, R a b -> R b c -> R a c.
Hypothesis R_store : forall name v st, R st (mkInterp (<[name := v]> (env st)) (output st)).
Hypothesis R_append : forall v st, R st (mkInterp (env st) (output st ++ [v])).

Lemma preserves_ret {A : Type} (a : A) : preserves R (ret a).
Proof. intros st. apply R_refl. Qed.

Lemma preserves_raise {A : Type} (e : PyExc) : preserves R (@raise A e).
Proof. intros st. apply R_refl. Qed.

Lemma preserves_builtin {A : Type} (r : pyres A) : preserves R (builtin r).
Proof. intros st. apply R_refl. Qed.

Lemma preserves_bind {A B : Type} (m : M A) (k : A -> M B) :
  preserves R m -> (forall a, preserves R (k a)) -> preserves R (bind m k).
Proof.
  intros Hm Hk st. unfold bind. specialize (Hm st).
  destruct (m st) as [[a| | |] st']; simpl in *; try assumption.
  eapply R_trans; [exact Hm | apply Hk].
Qed.

Lemma preserves_eval_each (ev : Node -> M value) (stmts : list Node) :
  Forall (fun stmt => preserves R (ev stmt)) stmts ->
  forall v, preserves R (eval_each ev stmts v).
Proof.
  induction 1 as [|stmt stmts Hs _ IH]; intros v; simpl.
  - apply preserves_ret.
  - apply preserves_bind; [exact Hs | exact IH].
Qed.

Lemma preserves_while_loop (condition body : M value) :
  preserves R condition -> preserves R body ->
  forall fuel iterations, preserves R (while_loop condition body fuel iterations).
Proof.
  intros Hc Hb. induction fuel as [|fuel IH]; intros iterations; simpl.
  - intros st. apply R_refl.
  - apply preserves_bind; [exact Hc|]. intros c.
    destruct (Num.truthy c); [|apply preserves_ret].
    destruct (MAX_ITERATIONS <? iterations + 1); [apply preserves_raise|].
    apply preserves_bind; [exact Hb | intros _; apply IH].
Qed.

Lemma preserves_eval host node : preserves R (eval host node).
Proof.
  induction node as [v|name|l op r IHl IHr|op operand IH|name v IH|e IH
                     |c t e IHc IHt IHe|c b IHc IHb|stmts IHs] using Node_ind;
    cbn [eval].
  - apply preserves_ret.
  - intros st. unfold lookup_var. destruct (env st !! name); apply R_refl.
  - apply preserves_bind; [exact IHl|]. intros a.
    apply preserves_bind; [exact IHr|]. intros b. apply preserves_builtin.
  - apply preserves_bind; [exact IH|]. intros a.
    destruct (String.eqb op "-"); [apply preserves_builtin | apply preserves_ret].
  - apply preserves_bind; [exact IH|]. intros a.
    apply preserves_bind; [intros st; apply R_store|]. intros _. apply preserves_ret.
  - apply preserves_bind; [exact IH|]. intros a.
    apply preserves_bind; [apply preserves_builtin|]. intros r.
    apply preserves_bind; [intros st; apply R_append|]. intros _. apply preserves_ret.
  - apply preserves_bind; [exact IHc|]. intros a.
    destruct (Num.truthy a).
    + apply preserves_bind; [now apply preserves_eval_each|]. intros _. apply preserves_ret.
    + destruct e as [[|s stmts]|]; try apply preserves_ret.
      apply preserves_bind; [now apply preserves_eval_each|]. intros _. apply preserves_ret.
  - apply preserves_while_loop; [exact IHc | now apply preserves_eval_each].
  - now apply preserves_eval_each.
Qed.
End Preserves.

Lemma extends_refl st : extends st st.
Proof. split; reflexivity. Qed.

Lemma extends_trans a b c : extends a b -> extends b c -> extends a c.
Proof. intros [? ?] [? ?]. split; etrans; eassumption. Qed.

(** Evaluation only appends to the output log and only adds or overwrites
    variables, whether it ends with a value or with an exception. *)
Lemma eval_extends host node : preserves extends (eval host node).
Proof.
  apply preserves_eval.
  - apply extends_refl.
  - apply extends_trans.
  - intros name v s. split; simpl; [reflexivity|]. rewrite dom_insert_L. set_solver.
  - intros v s. split; simpl; [|reflexivity]. now apply prefix_app_r.
Qed.

Lemma eval_each_extends host stmts v : preserves extends (eval_each (eval host) stmts v).
Proof.
  apply preserves_eval_each; [apply extends_refl | apply extends_trans |].
  apply Forall_forall. intros stmt _. apply eval_extends.
Qed.

(** ** The evaluator always answers *)

Lemma defined_bind {A B : Type} (m : M A) (k : A -> M B) :
  defined m -> (forall a, defined (k a)) -> defined (bind m k).
Proof.
  intros Hm Hk st. unfold bind. specialize (Hm st).
  destruct (m st) as [[a| | |] st']; simpl in *; try assumption. apply Hk.
Qed.

Lemma defined_ret {A : Type} (a : A) : defined (ret a).
Proof. intros st. exact I. Qed.

Lemma defined_raise {A : Type} (e : PyExc) : defined (@raise A e).
Proof. intros st. exact I. Qed.

Lemma defined_builtin {A : Type} (r : pyres A) : defined (builtin r).
Proof. intros st. destruct r; exact I. Qed.

Lemma defined_eval_each (ev : Node -> M value) (stmts : list Node) :
  Forall (fun stmt => defined (ev stmt)) stmts ->
  forall v, defined (eval_each ev stmts v).
Proof.
  induction 1 as [|stmt stmts Hs _ IH]; intros v; simpl.
  - apply defined_ret.
  - apply defined_bind; [exact Hs | exact IH].
Qed.

(** The counter of the loop is never used up: the guard on [iterations]
    stops it first. *)
Lemma defined_while_loop (condition body : M value) :
  defined condition -> defined body ->
  forall fuel iterations,
    iterations <= MAX_ITERATIONS -> MAX_ITERATIONS < iterations + Z.of_nat fuel ->
    defined (while_loop condition body fuel iterations).
Proof.
  intros Hc Hb. induction fuel as [|fuel IH]; intros iterations Hle Hfuel; [lia|].
  simpl. apply defined_bind; [exact Hc|]. intros c.
  destruct (Num.truthy c); [|apply defined_ret].
  destruct (MAX_ITERATIONS <? iterations + 1) eqn:E; [apply defined_raise|].
  apply defined_bind; [exact Hb|]. intros _. apply IH; lia.
Qed.

Lemma eval_defined host node : defined (eval host node).
Proof.
  induction node as [v|name|l op r IHl IHr|op operand IH|name v IH|e IH
                     |c t e IHc IHt IHe|c b IHc IHb|stmts IHs] using Node_ind;
    cbn [eval].
  - apply defined_ret.
  - intros st. unfold lookup_var. destruct (env st !! name); exact I.
  - apply defined_bind; [exact IHl|]. intros a.
    apply defined_bind; [exact IHr|]. intros b. apply defined_builtin.
  - apply defined_bind; [exact IH|]. intros a.
    destruct (String.eqb op "-"); [apply defined_builtin | apply defined_ret].
  - apply defined_bind; [exact IH|]. intros a.
    apply defined_bind; [intros st; exact I|]. intros _. apply defined_ret.
  - apply defined_bind; [exact IH|]. intros a.
    apply defined_bind; [apply defined_builtin|]. intros r.
    apply defined_bind; [intros st; exact I|]. intros _. apply defined_ret.
  - apply defined_bind; [exact IHc|]. intros a.
    destruct (Num.truthy a).
    + apply defined_bind; [now apply defined_eval_each|]. intros _. apply defined_ret.
    + destruct e as [[|s stmts]|]; try apply defined_ret.
      apply defined_bind; [now apply defined_eval_each|]. intros _. apply defined_ret.
  - apply defined_while_loop; [exact IHc | now apply defined_eval_each | |];
      unfold while_fuel, MAX_ITERATIONS; lia.
  - now apply defined_eval_each.
Qed.

(* ===================================================================== *)
(** * Evaluator: while loops *)
(* ===================================================================== *)

(** [n] completed rounds are [n] turns of the loop. *)
Lemma while_loop_rounds (condition body : M value) (n : nat) :
  forall fuel iterations st st',
    rounds condition body n st = Some st' ->
    iterations + Z.of_nat n <= MAX_ITERATIONS ->
    while_loop condition body (n + fuel) iterations st
    = while_loop condition body fuel (iterations + Z.of_nat n) st'.
Proof.
  induction n as [|n IH]; intros fuel iterations st st' Hr Hle.
  - injection Hr as <-. simpl. now rewrite Z.add_0_r.
  - simpl in Hr. cbn [Nat.add while_loop]. unfold bind at 1.
    destruct (condition st) as [[c| | |] st1]; try discriminate.
    destruct (Num.truthy c); [|discriminate].
    destruct (MAX_ITERATIONS <? iterations + 1) eqn:E; [lia|].
    unfold bind at 1.
    destruct (body st1) as [[v| | |] st2]; try discriminate.
    rewrite (IH fuel (iterations + 1) st2 st' Hr) by lia.
    f_equal. lia.
Qed.

Section WhileBound.
Variable host : HostMath.
Variables (condition : Node) (body : list Node).

Lemma while_trips_bound st st1 c st2 :
  rounds (eval host condition) (eval_each (eval host) body VNone)
    (Z.to_nat MAX_ITERATIONS) st = Some st1 ->
  eval host condition st1 = (Ok c, st2) ->
  Num.truthy c = true ->
  eval host (WhileNode condition body) st = (Raise RuntimeError, st2).
Proof.
  intros Hr Hc Ht. cbn [eval].
  replace while_fuel with (Z.to_nat MAX_ITERATIONS + 1)%nat
    by (unfold while_fuel, MAX_ITERATIONS; lia).
  rewrite (while_loop_rounds _ _ _ 1%nat 0 st st1 Hr) by (unfold MAX_ITERATIONS; lia).
  cbn [while_loop]. unfold bind at 1. rewrite Hc, Ht.
  replace (MAX_ITERATIONS <? 0 + Z.of_nat (Z.to_nat MAX_ITERATIONS) + 1) with true
    by (symmetry; apply Z.ltb_lt; unfold MAX_ITERATIONS; lia).
  reflexivity.
Qed.

Lemma while_completes st n st1 c st2 :
  (n <= Z.to_nat MAX_ITERATIONS)%nat ->
  rounds (eval host condition) (eval_each (eval host) body VNone) n st = Some st1 ->
  eval host condition st1 = (Ok c, st2) ->
  Num.truthy c = false ->
  eval host (WhileNode condition body) st = (Ok VNone, st2).
Proof.
  intros Hn Hr Hc Ht. cbn [eval].
  replace while_fuel with (n + (while_fuel - n))%nat
    by (unfold while_fuel, MAX_ITERATIONS in *; lia).
  rewrite (while_loop_rounds _ _ _ _ 0 st st1 Hr) by (unfold MAX_ITERATIONS in *; lia).
  destruct (while_fuel - n)%nat as [|fuel] eqn:E;
    [unfold while_fuel, MAX_ITERATIONS in *; lia|].
  cbn [while_loop]. unfold bind at 1. rewrite Hc, Ht. reflexivity.
Qed.
End WhileBound.

(** C1.  A loop whose condition is true at each of its first 10,001
    evaluations fails with the RuntimeError of the guard at the 10,001st,
    in the state that evaluation left: the body ran 10,000 times and does
    not run again.  A loop whose condition is false at an evaluation up to
    the 10,001st (after at most 10,000 rounds of the body) ends normally.
    Three runs show the counts: [while (1) { }] fails; a condition that
    counts its own evaluations stops at 10,001 with the body's counter at
    10,000; and a loop of exactly 10,000 rounds completes. *)
Theorem while_iteration_bound host :
  MAX_ITERATIONS = 10000
  /\ (forall condition body st st1 c st2,
        rounds (eval host condition) (eval_each (eval host) body VNone)
          (Z.to_nat 10000) st = Some st1 ->
        eval host condition st1 = (Ok c, st2) ->
        Num.truthy c = true ->
        eval host (WhileNode condition body) st = (Raise RuntimeError, st2))
  /\ (forall condition body st n st1 c st2,
        (n <= Z.to_nat 10000)%nat ->
        rounds (eval host condition) (eval_each (eval host) body VNone) n st = Some st1 ->
        eval host condition st1 = (Ok c, st2) ->
        Num.truthy c = false ->
        eval host (WhileNode condition body) st = (Ok VNone, st2))
  /\ evaluate host "while (1) { }" new_interpreter = (Raise RuntimeError, new_interpreter)
  /\ (let r := eval host counting_loop counters_at_zero in
      fst r = Raise RuntimeError
      /\ env (snd r) !! "c"%string = Some (VInt 10001)
      /\ env (snd r) !! "b"%string = Some (VInt 10000))
  /\ (let r := evaluate host "i = 0 while (i < 10000) { i = i + 1 }" new_interpreter in
      fst r = Ok VNone /\ env (snd r) !! "i"%string = Some (VInt 10000)).
Proof.
  split; [reflexivity|]. split; [|split]; [| |repeat split; vm_compute; reflexivity].
  - intros condition body st st1 c st2. apply while_trips_bound.
  - intros condition body st n st1 c st2. apply while_completes.
Qed.

Lemma while_iteration_bound_witness :
  eval example_host (WhileNode (NumberNode (VInt 1)) []) new_interpreter
  = (Raise RuntimeError, new_interpreter)
  /\ eval example_host (WhileNode (NumberNode (VInt 0)) []) new_interpreter
     = (Ok VNone, new_interpreter).
Proof.
  destruct (while_iteration_bound example_host) as (_ & Htrip & Hdone & _).
  split.
  - apply (Htrip _ _ _ new_interpreter (VInt 1) new_interpreter);
      vm_compute; reflexivity.
  - apply (Hdone _ _ _ O new_interpreter (VInt 0) new_interpreter);
      [lia | reflexivity | reflexivity | reflexivity].
Defined.

(* ===================================================================== *)
(** * Evaluator: operators *)
(* ===================================================================== *)

Lemma float_is_zero_eqb f : float_is_zero f = true -> PrimFloat.eqb f 0 = true.
Proof.
  unfold float_is_zero. intros H. rewrite FloatAxioms.eqb_spec.
  destruct (Prim2SF f); try discriminate. reflexivity.
Qed.

Lemma float_is_zero_cmp f : float_is_zero f = true -> Num.float_cmp_int f 0 = Some Eq.
Proof.
  unfold float_is_zero, Num.float_cmp_int. destruct (Prim2SF f); try discriminate.
  reflexivity.
Qed.

(** For a zero [v], Python's [v != 0] is false. *)
Lemma is_zero_py_ne v : is_zero v = true -> Num.py_ne v (VInt 0) = false.
Proof.
  unfold Num.py_ne. destruct v as [|z|f|re im]; simpl; intros H; try discriminate.
  - apply Z.eqb_eq in H. subst. reflexivity.
  - now rewrite float_is_zero_cmp.
  - apply andb_prop in H. destruct H as [Hre Him].
    now rewrite (float_is_zero_eqb _ Him), float_is_zero_cmp.
Qed.

Section Operators.
Variable host : HostMath.

Lemma eval_binop l op r st vl st1 vr st2 :
  eval host l st = (Ok vl, st1) ->
  eval host r st1 = (Ok vr, st2) ->
  eval host (BinOpNode l op r) st = (lift (apply_op host op vl vr), st2).
Proof.
  intros Hl Hr. cbn [eval]. unfold bind at 1. rewrite Hl.
  unfold bind at 1. rewrite Hr. reflexivity.
Qed.

Lemma eval_print_raise e st exc st' :
  eval host e st = (Raise exc, st') ->
  eval host (PrintNode e) st = (Raise exc, st').
Proof. intros H. cbn [eval]. unfold bind at 1. now rewrite H. Qed.

Lemma eval_print_ok e st val st' shown :
  eval host e st = (Ok val, st') ->
  display val = Return shown ->
  eval host (PrintNode e) st = (Ok shown, mkInterp (env st') (output st' ++ [shown])).
Proof.
  intros H Hd. cbn [eval]. unfold bind at 1. rewrite H.
  unfold bind at 1, builtin. rewrite Hd. reflexivity.
Qed.

(** C3.  When the right operand of [/] evaluates to a zero, the division
    fails with the guard's ZeroDivisionError ("Division by zero"), in the
    state the two operands left; a [print] of that division fails the same
    way in the same state, so it appends nothing; and running
    [print(5 / 0)] reports the error and leaves the output log empty. *)
Theorem division_by_zero l r st vl st1 vr st2 :
  eval host l st = (Ok vl, st1) ->
  eval host r st1 = (Ok vr, st2) ->
  is_zero vr = true ->
  eval host (BinOpNode l "/" r) st = (Raise (ZeroDivisionError Guard), st2)
  /\ eval host (PrintNode (BinOpNode l "/" r)) st = (Raise (ZeroDivisionError Guard), st2)
  /\ run host "print(5 / 0)" None
     = Returned new_interpreter (Some (ZeroDivisionError Guard)).
Proof.
  intros Hl Hr Hz.
  assert (eval host (BinOpNode l "/" r) st = (Raise (ZeroDivisionError Guard), st2)) as H.
  { rewrite (eval_binop _ _ _ _ _ _ _ _ Hl Hr).
    unfold apply_op. simpl. now rewrite (is_zero_py_ne _ Hz). }
  split; [exact H|]. split; [now apply eval_print_raise | reflexivity].
Qed.
End Operators.

Lemma division_by_zero_witness :
  eval example_host (BinOpNode (NumberNode (VInt 5)) "/" (NumberNode (VFloat neg_zero)))
    new_interpreter
  = (Raise (ZeroDivisionError Guard), new_interpreter).
Proof.
  apply (division_by_zero example_host (NumberNode (VInt 5)) (NumberNode (VFloat neg_zero))
           new_interpreter (VInt 5) new_interpreter (VFloat neg_zero) new_interpreter);
    reflexivity.
Defined.

(* ===================================================================== *)
(** * Evaluator: print *)
(* ===================================================================== *)

(** [float.is_integer()] holds exactly of the floats whose value is an
    integer. *)
Lemma float_is_integer_iff f :
  Num.float_is_integer f = true <-> exists z, float_equals_int f z.
Proof.
  unfold Num.float_is_integer, float_equals_int.
  destruct (Prim2SF f) as [s|s| |s m e].
  - split; [exists 0; reflexivity | reflexivity].
  - split; [discriminate | intros [_ []]].
  - split; [discriminate | intros [_ []]].
  - destruct (0 <=? e) eqn:Ee; simpl.
    + split; [eauto | reflexivity].
    + apply Z.leb_gt in Ee.
      assert (0 < 2 ^ (- e)) as Hd by (apply Z.pow_pos_nonneg; lia).
      split.
      * intros H. apply Z.eqb_eq in H.
        exists (cond_Zopp s (Z.pos m / 2 ^ (- e))).
        pose proof (Z.div_mod (Z.pos m) (2 ^ (- e)) ltac:(lia)) as Hdm.
        destruct s; simpl; lia.
      * intros [z Hz]. apply Z.eqb_eq.
        destruct s; simpl in Hz.
        -- replace (Z.pos m) with ((- z) * 2 ^ (- e)) by lia. apply Z.mod_mul. lia.
        -- rewrite <- Hz. apply Z.mod_mul. lia.
Qed.

Lemma float_equals_int_unique f z1 z2 :
  float_equals_int f z1 -> float_equals_int f z2 -> z1 = z2.
Proof.
  unfold float_equals_int. destruct (Prim2SF f) as [s|s| |s m e]; try tauto; try congruence.
  destruct (0 <=? e) eqn:Ee; [congruence|].
  apply Z.leb_gt in Ee. intros H1 H2.
  assert (0 < 2 ^ (- e)) as Hd by (apply Z.pow_pos_nonneg; lia).
  apply (Z.mul_cancel_r _ _ (2 ^ (- e))); lia.
Qed.

(** [int(f)] of such a float is that integer. *)
Lemma float_to_int_exact f :
  Num.float_is_integer f = true ->
  exists z, Num.float_to_int f = Return z /\ float_equals_int f z.
Proof.
  unfold Num.float_is_integer, Num.float_to_int, float_equals_int.
  destruct (Prim2SF f) as [s|s| |s m e]; try discriminate.
  - intros _. exists 0. split; reflexivity.
  - destruct (0 <=? e) eqn:Ee; simpl.
    + intros _. eexists. split; [reflexivity|]. destruct s; simpl; lia.
    + intros H. apply Z.eqb_eq in H. apply Z.leb_gt in Ee.
      assert (0 < 2 ^ (- e)) as Hd by (apply Z.pow_pos_nonneg; lia).
      eexists. split; [reflexivity|].
      pose proof (Z.div_mod (Z.pos m) (2 ^ (- e)) ltac:(lia)) as Hdm.
      destruct s; simpl; lia.
Qed.

(** What [print] shows of a value. *)
Lemma display_spec val :
  exists shown,
    display val = Return shown
    /\ match val with
       | VFloat f =>
           (forall z, float_equals_int f z -> shown = VInt z)
           /\ ((forall z, ~ float_equals_int f z) -> shown = val)
       | _ => shown = val
       end.
Proof.
  destruct val as [|z|f|re im]; try (eexists; split; reflexivity).
  unfold display. destruct (Num.float_is_integer f) eqn:E.
  - destruct (float_to_int_exact f E) as (z & -> & Hz). simpl.
    exists (VInt z). split; [reflexivity|]. split.
    + intros z' Hz'. f_equal. eapply float_equals_int_unique; eassumption.
    + intros Hno. destruct (Hno z Hz).
  - exists (VFloat f). split; [reflexivity|]. split; [|reflexivity].
    intros z Hz. assert (Num.float_is_integer f = true) as E'
      by (apply float_is_integer_iff; eauto).
    congruence.
Qed.

(** C7.  [print] of an expression that evaluates to [val] returns the value
    it shows and appends it to the output log, after whatever the expression
    appended.  A float whose value is an integer [z] is shown as the int
    [z]; a float that equals no integer (it has a fractional part, or is
    infinite or a NaN) is shown as it is, and so is every value that is not
    a float.  [print(6 / 3)] shows the int 2, [print(7 / 2)] the float
    3.5. *)
Theorem print_display host :
  (forall e st val st',
     eval host e st = (Ok val, st') ->
     exists shown,
       eval host (PrintNode e) st
       = (Ok shown, mkInterp (env st') (output st' ++ [shown]))
       /\ match val with
          | VFloat f =>
              (forall z, float_equals_int f z -> shown = VInt z)
              /\ ((forall z, ~ float_equals_int f z) -> shown = val)
          | _ => shown = val
          end)
  /\ evaluate host "print(6 / 3)" new_interpreter
     = (Ok (VInt 2), mkInterp ∅ [VInt 2])
  /\ evaluate host "print(7 / 2)" new_interpreter
     = (Ok (VFloat 3.5), mkInterp ∅ [VFloat 3.5]).
Proof.
  split; [|split; reflexivity].
  intros e st val st' He.
  destruct (display_spec val) as (shown & Hd & Hs).
  exists shown. split; [|exact Hs]. eapply eval_print_ok; eassumption.
Qed.

Lemma print_display_witness :
  eval example_host (PrintNode (NumberNode (VFloat 2))) new_interpreter
  = (Ok (VInt 2), mkInterp ∅ [VInt 2]).
Proof.
  destruct (proj1 (print_display example_host) (NumberNode (VFloat 2)) new_interpreter
              (VFloat 2) new_interpreter eq_refl) as (shown & -> & Hint & _).
  rewrite (Hint 2); [reflexivity|]. vm_compute. reflexivity.
Defined.

(* ===================================================================== *)
(** * Evaluator: modulo by zero *)
(* ===================================================================== *)

Lemma modulo_real_zero vl vr :
  is_real vl = true -> is_real vr = true -> is_zero vr = true ->
  left_converts vl vr = true ->
  Num.py_mod vl vr = Throw (ZeroDivisionError Native).
Proof.
  destruct vl as [|x|x|? ?]; try discriminate; destruct vr as [|y|y|? ?]; try discriminate;
    simpl; intros _ _ Hz Hc; unfold Num.py_mod, Num.arith.
  - unfold Num.int_mod. now rewrite Hz.
  - destruct (Num.int_to_float x) as [fx|]; [|discriminate]. simpl.
    unfold Num.float_rem. now rewrite (float_is_zero_eqb _ Hz).
  - apply Z.eqb_eq in Hz. subst y. reflexivity.
  - unfold Num.float_rem. now rewrite (float_is_zero_eqb _ Hz).
Qed.

(** [10 ** 400 % 0.0]: the int on the left is converted to float before the
    zero is looked at, and the conversion overflows. *)
Lemma modulo_by_zero_overflow host :
  evaluate host "10 ** 400 % 0.0" new_interpreter = (Raise OverflowError, new_interpreter)
  /\ run host "10 ** 400 % 0.0" None = Uncaught OverflowError new_interpreter.
Proof. split; vm_compute; reflexivity. Qed.

(** [-8 ** 0.5 % 0]: the parser gives the minus to the 8, Python gives a
    complex number for the power, and a complex number has no [%]. *)
Lemma modulo_by_zero_complex host re im :
  complex_arith host "**" (VInt (-8)) (VFloat 0.5) = Return (re, im) ->
  evaluate host "-8 ** 0.5 % 0" new_interpreter = (Raise TypeError, new_interpreter)
  /\ run host "-8 ** 0.5 % 0" None = Uncaught TypeError new_interpreter.
Proof.
  intros H. split; vm_compute; vm_compute in H; rewrite H; reflexivity.
Qed.

Lemma modulo_by_zero_counterexample : ~ modulo_by_zero_always_zero_division.
Proof.
  intros H.
  destruct (H example_host
              (BinOpNode (NumberNode (VInt 10)) "**" (NumberNode (VInt 400)))
              (NumberNode (VFloat 0)) new_interpreter
              (VInt (10 ^ 400)) new_interpreter (VFloat 0) new_interpreter)
    as [origin Ho]; try reflexivity.
  vm_compute in Ho. discriminate Ho.
Qed.

(** C8, amended.  When both operands of [%] evaluate to ints or floats, the
    right one to a zero, and an int on the left of a float is in the range
    of a float, then [%] fails with Python's ZeroDivisionError, in the state
    the operands left; [run] catches and reports that exception. *)
Theorem modulo_by_zero host l r st vl st1 vr st2 :
  eval host l st = (Ok vl, st1) ->
  eval host r st1 = (Ok vr, st2) ->
  is_zero vr = true ->
  is_real vl = true -> is_real vr = true -> left_converts vl vr = true ->
  eval host (BinOpNode l "%" r) st = (Raise (ZeroDivisionError Native), st2)
  /\ handle (ZeroDivisionError Native) st2 = Returned st2 (Some (ZeroDivisionError Native))
  /\ run host "5 % 0" None = Returned new_interpreter (Some (ZeroDivisionError Native)).
Proof.
  intros Hl Hr Hz Hrl Hrr Hc. split; [|split; reflexivity].
  rewrite (eval_binop _ _ _ _ _ _ _ _ _ Hl Hr).
  unfold apply_op. simpl. now rewrite modulo_real_zero.
Qed.

Lemma modulo_by_zero_witness :
  eval example_host (BinOpNode (NumberNode (VFloat 5.5)) "%" (NumberNode (VInt 0)))
    new_interpreter
  = (Raise (ZeroDivisionError Native), new_interpreter).
Proof.
  apply (modulo_by_zero example_host (NumberNode (VFloat 5.5)) (NumberNode (VInt 0))
           new_interpreter (VFloat 5.5) new_interpreter (VInt 0) new_interpreter);
    reflexivity.
Defined.

(* ===================================================================== *)
(** * Evaluator: a failure keeps what was done *)
(* ===================================================================== *)

Lemma eval_each_app (ev : Node -> M value) pre rest v st :
  eval_each ev (pre ++ rest) v st
  = match eval_each ev pre v st with
    | (Ok v', st1) => eval_each ev rest v' st1
    | other => other
    end.
Proof.
  revert v st. induction pre as [|stmt pre IH]; intros v st; [reflexivity|].
  simpl. unfold bind. destruct (ev stmt st) as [[v'| | |] st']; try reflexivity.
  apply IH.
Qed.

(** [run] on a text that lexes and parses: the tree is evaluated on the
    interpreter that was passed, and that interpreter comes back. *)
Lemma run_parsed host source tokens ast st :
  Lexer.tokenize source = Ok tokens ->
  Parser.parse tokens = Ok ast ->
  run host source (Some st)
  = match eval host ast st with
    | (Ok _, st') => Returned st' None
    | (Raise e, st') => handle e st'
    | ((OutOfFuel | IllTyped), _) => Undefined
    end.
Proof. intros Ht Hp. unfold run. rewrite Ht, Hp. reflexivity. Qed.

(** C4.  When the statements [pre] of a block ran, leaving the state [st1],
    and the next statement fails with [e] in the state [st2], the block
    fails with [e] in that same state [st2]: nothing is undone.  [st1] has
    all the output and all the variables of the start, [st2] all those of
    [st1].  [run] on a text of this block gives back the interpreter in the
    state [st2], and a later [run] on that interpreter evaluates its program
    from [st2].  Two runs in a row show it: the first assigns, prints,
    assigns inside an [if] and then divides by zero; the second reads both
    variables and appends to the same log. *)
Theorem no_rollback host pre stmt post st v st1 e st2 :
  eval_each (eval host) pre VNone st = (Ok v, st1) ->
  eval host stmt st1 = (Raise e, st2) ->
  eval host (BlockNode (pre ++ stmt :: post)) st = (Raise e, st2)
  /\ extends st st1
  /\ extends st1 st2
  /\ (forall source tokens,
        Lexer.tokenize source = Ok tokens ->
        Parser.parse tokens = Ok (BlockNode (pre ++ stmt :: post)) ->
        run host source (Some st) = handle e st2)
  /\ (forall source tokens ast,
        Lexer.tokenize source = Ok tokens ->
        Parser.parse tokens = Ok ast ->
        run host source (Some st2)
        = match eval host ast st2 with
          | (Ok _, st') => Returned st' None
          | (Raise e', st') => handle e' st'
          | ((OutOfFuel | IllTyped), _) => Undefined
          end)
  /\ run host "x = 1; print(7); if (x) { y = 2; print(y / 0); z = 3 } w = 4" None
     = Returned failed_midway (Some (ZeroDivisionError Guard))
  /\ run host "print(x + y)" (Some failed_midway)
     = Returned (mkInterp (env failed_midway) [VInt 7; VInt 3]) None.
Proof.
  intros Hpre Hstmt.
  assert (eval host (BlockNode (pre ++ stmt :: post)) st = (Raise e, st2)) as Hblock.
  { cbn [eval]. rewrite eval_each_app, Hpre. simpl. unfold bind. now rewrite Hstmt. }
  split; [exact Hblock|]. split; [|split; [|split; [|split; [|split]]]].
  - pose proof (eval_each_extends host pre VNone st) as H. now rewrite Hpre in H.
  - pose proof (eval_extends host stmt st1) as H. now rewrite Hstmt in H.
  - intros source tokens Ht Hp. rewrite (run_parsed _ _ _ _ _ Ht Hp), Hblock. reflexivity.
  - intros source tokens ast. apply run_parsed.
  - vm_compute. reflexivity.
  - vm_compute. reflexivity.
Qed.

Lemma no_rollback_witness :
  eval example_host
    (BlockNode [AssignNode "x" (NumberNode (VInt 1)); PrintNode (VarNode "x");
                PrintNode (VarNode "undefined"); AssignNode "x" (NumberNode (VInt 2))])
    new_interpreter
  = (Raise (NameError "undefined"), mkInterp (<["x"%string := VInt 1]> ∅) [VInt 1]).
Proof.
  apply (no_rollback example_host
           [AssignNode "x" (NumberNode (VInt 1)); PrintNode (VarNode "x")]
           (PrintNode (VarNode "undefined"))
           [AssignNode "x" (NumberNode (VInt 2))]
           new_interpreter (VInt 1)
           (mkInterp (<["x"%string := VInt 1]> ∅) [VInt 1])
           (NameError "undefined")
           (mkInterp (<["x"%string := VInt 1]> ∅) [VInt 1]));
    vm_compute; reflexivity.
Defined.

(* ===================================================================== *)
(** * Parser: facts *)
(* ===================================================================== *)

Section ParserSteps.
Import Parser.
Variable tokens : list Token.

Lemma current_at pos tok :
  tokens !! pos = Some tok -> current tokens pos = Ok (tok, pos).
Proof. intros H. unfold current, peek. now rewrite Nat.add_0_r, H. Qed.

Lemma primary_unexpected fuel pos tok :
  tokens !! pos = Some tok -> starts_primary (type tok) = false ->
  primary tokens (S fuel) pos = Raise (SyntaxError (ParserUnexpected tok)).
Proof.
  intros Htok Hk. cbn [primary]. unfold bind at 1. rewrite (current_at _ _ Htok).
  destruct (type tok); try discriminate; reflexivity.
Qed.


(** The power rule calls itself for what follows [**]. *)
Lemma power_recurses fuel pos base p1 tok exp p2 :
  unary tokens fuel pos = Ok (base, p1) ->
  tokens !! p1 = Some tok -> type tok = POW ->
  power tokens fuel (S p1) = Ok (exp, p2) ->
  power tokens (S fuel) pos = Ok (BinOpNode base "**" exp, p2).
Proof.
  intros Hu Htok Hk Hp. cbn [power]. unfold bind at 1. rewrite Hu.
  unfold bind at 1. rewrite (current_at _ _ Htok), Hk.
  cbn [TokenType.eqb TokenType.tag Nat.eqb]. unfold bind at 1. cbn [advance].
  unfold bind at 1. rewrite Hp. reflexivity.
Qed.
End ParserSteps.


(* ===================================================================== *)
(** * Parser: the tokens of the lexer *)
(* ===================================================================== *)

Lemma TokenType_eqb_eq a b : TokenType.eqb a b = true <-> a = b.
Proof. destruct a, b; vm_compute; split; congruence. Qed.

Section Lexed.
Import Parser.
Local Open Scope nat_scope.
Variable tokens : list Token.
Variable n : nat.
Hypothesis Hlexed : lexed tokens n.


Lemma token_at pos : pos <= n -> exists tok, tokens !! pos = Some tok.
Proof.
  intros H. destruct Hlexed as (Hlen & _).
  apply lookup_lt_is_Some_2. lia.
Qed.

Lemma token_well_typed pos tok : tokens !! pos = Some tok -> well_typed tok = true.
Proof.
  intros H. destruct Hlexed as (_ & _ & Hwt & _).
  rewrite Forall_forall in Hwt. apply Hwt. eapply list_elem_of_lookup_2. exact H.
Qed.

Lemma not_eof_lt pos tok :
  pos <= n -> tokens !! pos = Some tok -> type tok <> EOF -> pos < n.
Proof.
  intros Hle Htok Hk. destruct Hlexed as (_ & Heof & _).
  destruct (Nat.eq_dec pos n) as [->|]; [|lia].
  unfold type_at in Heof. rewrite Htok in Heof. simpl in Heof. congruence.
Qed.

Lemma type_at_tok pos tok : tokens !! pos = Some tok -> type_at tokens pos = Some (type tok).
Proof. intros H. unfold type_at. now rewrite H. Qed.

Lemma ok_other i k : type_at tokens i = Some k -> k <> MINUS -> k <> ASSIGN -> ok_at tokens i.
Proof. intros H H1 H2. split; intros [H' _]; congruence. Qed.

Lemma ok_prefix_minus i k :
  type_at tokens i = Some MINUS -> type_at tokens (S i) = Some k -> k <> MINUS -> ok_at tokens i.
Proof. intros H H1 H2. split; [intros (_ & H' & _) | intros [H' _]]; congruence. Qed.

Lemma ok_binary_minus i :
  type_at tokens i = Some MINUS -> prev_is tokens operand_end i -> ok_at tokens i.
Proof. intros H H1. split; [intros (_ & _ & H') | intros [H' _]]; [tauto | congruence]. Qed.

Lemma ok_assign p :
  type_at tokens (S p) = Some ASSIGN -> type_at tokens p = Some IDENT ->
  (p = 0 \/ prev_is tokens boundary p) -> ok_at tokens (S p).
Proof.
  intros H H1 H2. split; [intros (H' & _) | intros [_ H']]; [congruence|].
  apply H'. exists p. auto.
Qed.

Lemma clean_refl a : clean tokens a a.
Proof. intros i Hi. lia. Qed.

Lemma clean_snoc a b : clean tokens a b -> ok_at tokens b -> clean tokens a (S b).
Proof.
  intros H Hb i Hi. destruct (Nat.eq_dec i b) as [->|]; [exact Hb | apply H; lia].
Qed.

Lemma clean_trans a b c : clean tokens a b -> clean tokens b c -> clean tokens a c.
Proof.
  intros H1 H2 i Hi. destruct (Nat.lt_ge_cases i b); [apply H1 | apply H2]; lia.
Qed.

Lemma clean_one a : ok_at tokens a -> clean tokens a (S a).
Proof. intros H. apply clean_snoc; [apply clean_refl | exact H]. Qed.

Lemma prev_is_tok c pos tok :
  tokens !! pos = Some tok -> c (type tok) = true -> prev_is tokens c (S pos).
Proof. intros H Hc. exists pos, (type tok). rewrite (type_at_tok _ _ H). auto. Qed.

Lemma prev_operand_boundary pos : prev_is tokens operand_end pos -> prev_is tokens boundary pos.
Proof.
  intros (p & k & -> & Hk & Hc). exists p, k. repeat split; [exact Hk|].
  destruct k; try discriminate; reflexivity.
Qed.

(** ** Steps *)

Lemma parses_bind {A B : Type} (m : P A) (k : A -> P B) pos (Q1 Q2 : nat -> Prop) :
  parses (m pos) Q1 ->
  (forall a p, Q1 p -> parses (k a p) Q2) ->
  parses (bind m k pos) Q2.
Proof.
  intros Hm Hk. unfold bind. destruct (m pos) as [[a p]|e| |]; simpl in *; auto.
Qed.

Lemma parses_weaken {A : Type} (r : result (A * nat)) (Q1 Q2 : nat -> Prop) :
  parses r Q1 -> (forall p, Q1 p -> Q2 p) -> parses r Q2.
Proof. destruct r as [[a p]|e| |]; simpl; auto. Qed.

Lemma current_lexed pos :
  pos <= n -> exists tok, tokens !! pos = Some tok /\ current tokens pos = Ok (tok, pos).
Proof.
  intros H. destruct (token_at pos H) as [tok Htok].
  exists tok. split; [exact Htok | now apply current_at].
Qed.

Lemma eat_spec k pos :
  pos <= n -> k <> EOF ->
  parses (eat tokens k pos)
    (fun p => p = S pos /\ S pos <= n /\ type_at tokens pos = Some k).
Proof.
  intros Hle Hk. unfold eat. unfold bind at 1.
  destruct (current_lexed pos Hle) as (tok & Htok & ->).
  destruct (TokenType.eqb (type tok) k) eqn:E; simpl.
  - apply TokenType_eqb_eq in E. subst k.
    split; [reflexivity|]. split; [|now apply type_at_tok].
    pose proof (not_eof_lt pos tok Hle Htok Hk). lia.
  - exact I.
Qed.

Lemma eat_ok pos tok k :
  tokens !! pos = Some tok -> type tok = k -> eat tokens k pos = Ok (tok, S pos).
Proof.
  intros Htok <-. unfold eat. unfold bind at 1. rewrite (current_at _ _ _ Htok).
  replace (TokenType.eqb (type tok) (type tok)) with true
    by (symmetry; now apply TokenType_eqb_eq).
  reflexivity.
Qed.

Lemma text_of_typed tok pos :
  well_typed tok = true -> type tok <> NUMBER -> type tok <> EOF ->
  exists s, text_of tok pos = Ok (s, pos).
Proof.
  unfold well_typed, text_of. intros H H1 H2.
  destruct (tvalue tok); [|eauto|].
  - apply TokenType_eqb_eq in H. congruence.
  - apply TokenType_eqb_eq in H. congruence.
Qed.

Lemma number_of_typed tok pos :
  well_typed tok = true -> type tok = NUMBER ->
  exists v, number_of tok pos = Ok (v, pos).
Proof.
  unfold well_typed, number_of. intros H H1. rewrite H1 in H.
  destruct (tvalue tok); [eauto|discriminate|discriminate].
Qed.

(** The same for the stricter reading of a span that the expression grammar
    keeps: no [=] at all. *)
Lemma okE_other i k :
  type_at tokens i = Some k -> k <> MINUS -> k <> ASSIGN -> expr_ok_at tokens i.
Proof. intros H H1 H2. split; [eapply ok_other; eauto | congruence]. Qed.

Lemma okE_prefix_minus i k :
  type_at tokens i = Some MINUS -> type_at tokens (S i) = Some k -> k <> MINUS ->
  expr_ok_at tokens i.
Proof. intros H H1 H2. split; [eapply ok_prefix_minus; eauto | congruence]. Qed.

Lemma okE_binary_minus i :
  type_at tokens i = Some MINUS -> prev_is tokens operand_end i -> expr_ok_at tokens i.
Proof. intros H H1. split; [now apply ok_binary_minus | congruence]. Qed.

Lemma clean_expr_refl a : clean_expr tokens a a.
Proof. intros i Hi. lia. Qed.

Lemma clean_expr_snoc a b :
  clean_expr tokens a b -> expr_ok_at tokens b -> clean_expr tokens a (S b).
Proof.
  intros H Hb i Hi. destruct (Nat.eq_dec i b) as [->|]; [exact Hb | apply H; lia].
Qed.

Lemma clean_expr_trans a b c :
  clean_expr tokens a b -> clean_expr tokens b c -> clean_expr tokens a c.
Proof.
  intros H1 H2 i Hi. destruct (Nat.lt_ge_cases i b); [apply H1 | apply H2]; lia.
Qed.

Lemma clean_expr_one a : expr_ok_at tokens a -> clean_expr tokens a (S a).
Proof. intros H. apply clean_expr_snoc; [apply clean_expr_refl | exact H]. Qed.

Lemma clean_expr_clean a b : clean_expr tokens a b -> clean tokens a b.
Proof. intros H i Hi. exact (proj1 (H i Hi)). Qed.

Lemma primary_step fuel :
  (forall pos, pos <= n -> need n 7 pos fuel ->
     parses (expression tokens fuel pos) (Post_e tokens n pos)) ->
  forall pos, pos <= n -> need n 1 pos (S fuel) ->
    parses (primary tokens (S fuel) pos) (Post_e tokens n pos).
Proof.
  intros IHe pos Hle Hneed. cbn [primary]. unfold bind at 1.
  destruct (current_lexed pos Hle) as (tok & Htok & ->).
  pose proof (token_well_typed _ _ Htok) as Hwt.
  pose proof (type_at_tok _ _ Htok) as Hty.
  destruct (TokenType.eqb (type tok) NUMBER) eqn:E1.
  { apply TokenType_eqb_eq in E1.
    assert (pos < n) by (eapply not_eof_lt; eauto; congruence).
    destruct (number_of_typed tok (S pos) Hwt E1) as [v Hv].
    unfold bind, advance. rewrite Hv. simpl.
    split; [lia|]; split; [lia|]; split.
    - apply clean_expr_one. eapply okE_other; eauto; congruence.
    - eapply prev_is_tok; eauto. now rewrite E1. }
  destruct (TokenType.eqb (type tok) IDENT) eqn:E2.
  { apply TokenType_eqb_eq in E2.
    assert (pos < n) by (eapply not_eof_lt; eauto; congruence).
    destruct (text_of_typed tok (S pos) Hwt) as [v Hv]; try congruence.
    unfold bind, advance. rewrite Hv. simpl.
    split; [lia|]; split; [lia|]; split.
    - apply clean_expr_one. eapply okE_other; eauto; congruence.
    - eapply prev_is_tok; eauto. now rewrite E2. }
  destruct (TokenType.eqb (type tok) LPAREN) eqn:E3; [|exact I].
  apply TokenType_eqb_eq in E3.
  assert (pos < n) by (eapply not_eof_lt; eauto; congruence).
  unfold bind at 1. cbn [advance]. 
  eapply parses_bind; [apply IHe; [lia | unfold need in *; lia]|].
  intros e p1 (Hlt & Hle1 & Hclean & _).
  eapply parses_bind; [apply eat_spec; [lia | discriminate]|].
  intros t p2 (-> & Hle2 & Hty2). simpl.
  split; [lia|]; split; [lia|]; split.
  - apply clean_expr_snoc; [|eapply okE_other; eauto; congruence].
    eapply clean_expr_trans; [|exact Hclean].
    apply clean_expr_one. eapply okE_other; eauto; congruence.
  - exists p1, RPAREN. auto.
Qed.

Lemma unary_step fuel :
  (forall pos, pos <= n -> need n 1 pos fuel ->
     parses (primary tokens fuel pos) (Post_e tokens n pos)) ->
  forall pos, pos <= n -> need n 2 pos (S fuel) ->
    parses (unary tokens (S fuel) pos) (Post_e tokens n pos).
Proof.
  intros IHp pos Hle Hneed. cbn [unary]. unfold bind at 1.
  destruct (current_lexed pos Hle) as (tok & Htok & ->).
  pose proof (type_at_tok _ _ Htok) as Hty.
  destruct (TokenType.eqb (type tok) MINUS) eqn:E1;
    [|apply IHp; [lia | unfold need in *; lia]].
  apply TokenType_eqb_eq in E1. rewrite E1 in Hty.
  assert (pos < n) by (eapply not_eof_lt; eauto; congruence).
  unfold bind at 1. cbn [advance].
  destruct (token_at (S pos) ltac:(lia)) as [tok2 Htok2].
  destruct (starts_primary (type tok2)) eqn:Esp.
  - eapply parses_bind; [apply IHp; [lia | unfold need in *; lia]|].
    intros e p1 (Hlt & Hle1 & Hclean & Hprev). simpl. post; [|exact Hprev].
    eapply clean_expr_trans; [|exact Hclean]. apply clean_expr_one.
    eapply okE_prefix_minus; [exact Hty | exact (type_at_tok _ _ Htok2) |].
    intros Hk. rewrite Hk in Esp. discriminate.
  - destruct fuel as [|fuel]; [unfold need in *; lia|].
    unfold bind at 1. rewrite (primary_unexpected tokens fuel (S pos) tok2 Htok2 Esp).
    exact I.
Qed.

Lemma power_step fuel :
  (forall pos, pos <= n -> need n 2 pos fuel ->
     parses (unary tokens fuel pos) (Post_e tokens n pos)) ->
  (forall pos, pos <= n -> need n 3 pos fuel ->
     parses (power tokens fuel pos) (Post_e tokens n pos)) ->
  forall pos, pos <= n -> need n 3 pos (S fuel) ->
    parses (power tokens (S fuel) pos) (Post_e tokens n pos).
Proof.
  intros IHu IHp pos Hle Hneed. cbn [power].
  eapply parses_bind; [apply IHu; [lia | unfold need in *; lia]|].
  intros base p1 (Hlt & Hle1 & Hclean & Hprev). unfold bind at 1.
  destruct (current_lexed p1 Hle1) as (tok & Htok & ->).
  pose proof (type_at_tok _ _ Htok) as Hty.
  destruct (TokenType.eqb (type tok) POW) eqn:E1;
    [|unfold ret; simpl; post; assumption].
  apply TokenType_eqb_eq in E1. rewrite E1 in Hty.
  assert (p1 < n) by (eapply not_eof_lt; eauto; congruence).
  unfold bind at 1. cbn [advance].
  eapply parses_bind; [apply IHp; [lia | unfold need in *; lia]|].
  intros e p2 (Hlt2 & Hle2 & Hclean2 & Hprev2). simpl. post; [|exact Hprev2].
  eapply clean_expr_trans; [|exact Hclean2]. apply clean_expr_snoc; [exact Hclean|].
  eapply okE_other; eauto; congruence.
Qed.

Lemma multiplicative_loop_step fuel :
  (forall pos, pos <= n -> need n 3 pos fuel ->
     parses (power tokens fuel pos) (Post_e tokens n pos)) ->
  (forall left pos, pos <= n -> need n 1 pos fuel -> prev_is tokens operand_end pos ->
     parses (multiplicative_loop tokens fuel left pos) (Post_l tokens n pos)) ->
  forall left pos, pos <= n -> need n 1 pos (S fuel) -> prev_is tokens operand_end pos ->
    parses (multiplicative_loop tokens (S fuel) left pos) (Post_l tokens n pos).
Proof.
  intros IHp IHl left pos Hle Hneed Hprev. cbn [multiplicative_loop]. unfold bind at 1.
  destruct (current_lexed pos Hle) as (tok & Htok & ->).
  pose proof (token_well_typed _ _ Htok) as Hwt.
  pose proof (type_at_tok _ _ Htok) as Hty.
  destruct (TokenType.eqb (type tok) MUL || TokenType.eqb (type tok) DIV
            || TokenType.eqb (type tok) MOD) eqn:E1;
    [|unfold ret; simpl; post; [apply clean_expr_refl | exact Hprev]].
  assert (type tok = MUL \/ type tok = DIV \/ type tok = MOD) as Hk.
  { rewrite !orb_true_iff, !TokenType_eqb_eq in E1. tauto. }
  assert (pos < n) by (eapply not_eof_lt; eauto; intuition congruence).
  destruct (text_of_typed tok pos Hwt) as [op Hop]; [intuition congruence..|].
  unfold bind at 1. rewrite Hop. unfold bind at 1. cbn [advance].
  eapply parses_bind; [apply IHp; [lia | unfold need in *; lia]|].
  intros e p1 (Hlt1 & Hle1 & Hclean1 & Hprev1).
  eapply parses_weaken; [apply IHl; [lia | unfold need in *; lia | exact Hprev1]|].
  intros p2 (Hlt2 & Hle2 & Hclean2 & Hprev2). post; [|exact Hprev2].
  eapply clean_expr_trans; [|exact Hclean2]. eapply clean_expr_trans; [|exact Hclean1].
  apply clean_expr_one. eapply okE_other; eauto; intuition congruence.
Qed.

Lemma multiplicative_step fuel :
  (forall pos, pos <= n -> need n 3 pos fuel ->
     parses (power tokens fuel pos) (Post_e tokens n pos)) ->
  (forall left pos, pos <= n -> need n 1 pos fuel -> prev_is tokens operand_end pos ->
     parses (multiplicative_loop tokens fuel left pos) (Post_l tokens n pos)) ->
  forall pos, pos <= n -> need n 4 pos (S fuel) ->
    parses (multiplicative tokens (S fuel) pos) (Post_e tokens n pos).
Proof.
  intros IHp IHl pos Hle Hneed. cbn [multiplicative].
  eapply parses_bind; [apply IHp; [lia | unfold need in *; lia]|].
  intros left p1 (Hlt1 & Hle1 & Hclean1 & Hprev1).
  eapply parses_weaken; [apply IHl; [lia | unfold need in *; lia | exact Hprev1]|].
  intros p2 (Hlt2 & Hle2 & Hclean2 & Hprev2). post; [|exact Hprev2].
  eapply clean_expr_trans; eassumption.
Qed.

Lemma additive_loop_step fuel :
  (forall pos, pos <= n -> need n 4 pos fuel ->
     parses (multiplicative tokens fuel pos) (Post_e tokens n pos)) ->
  (forall left pos, pos <= n -> need n 1 pos fuel -> prev_is tokens operand_end pos ->
     parses (additive_loop tokens fuel left pos) (Post_l tokens n pos)) ->
  forall left pos, pos <= n -> need n 1 pos (S fuel) -> prev_is tokens operand_end pos ->
    parses (additive_loop tokens (S fuel) left pos) (Post_l tokens n pos).
Proof.
  intros IHp IHl left pos Hle Hneed Hprev. cbn [additive_loop]. unfold bind at 1.
  destruct (current_lexed pos Hle) as (tok & Htok & ->).
  pose proof (token_well_typed _ _ Htok) as Hwt.
  pose proof (type_at_tok _ _ Htok) as Hty.
  destruct (TokenType.eqb (type tok) PLUS || TokenType.eqb (type tok) MINUS) eqn:E1;
    [|unfold ret; simpl; post; [apply clean_expr_refl | exact Hprev]].
  assert (type tok = PLUS \/ type tok = MINUS) as Hk.
  { rewrite !orb_true_iff, !TokenType_eqb_eq in E1. tauto. }
  assert (pos < n) by (eapply not_eof_lt; eauto; intuition congruence).
  destruct (text_of_typed tok pos Hwt) as [op Hop]; [intuition congruence..|].
  unfold bind at 1. rewrite Hop. unfold bind at 1. cbn [advance].
  eapply parses_bind; [apply IHp; [lia | unfold need in *; lia]|].
  intros e p1 (Hlt1 & Hle1 & Hclean1 & Hprev1).
  eapply parses_weaken; [apply IHl; [lia | unfold need in *; lia | exact Hprev1]|].
  intros p2 (Hlt2 & Hle2 & Hclean2 & Hprev2). post; [|exact Hprev2].
  eapply clean_expr_trans; [|exact Hclean2]. eapply clean_expr_trans; [|exact Hclean1].
  apply clean_expr_one. destruct Hk as [Hk|Hk]; rewrite Hk in Hty.
  - eapply okE_other; eauto; congruence.
  - now apply okE_binary_minus.
Qed.

Lemma additive_step fuel :
  (forall pos, pos <= n -> need n 4 pos fuel ->
     parses (multiplicative tokens fuel pos) (Post_e tokens n pos)) ->
  (forall left pos, pos <= n -> need n 1 pos fuel -> prev_is tokens operand_end pos ->
     parses (additive_loop tokens fuel left pos) (Post_l tokens n pos)) ->
  forall pos, pos <= n -> need n 5 pos (S fuel) ->
    parses (additive tokens (S fuel) pos) (Post_e tokens n pos).
Proof.
  intros IHp IHl pos Hle Hneed. cbn [additive].
  eapply parses_bind; [apply IHp; [lia | unfold need in *; lia]|].
  intros left p1 (Hlt1 & Hle1 & Hclean1 & Hprev1).
  eapply parses_weaken; [apply IHl; [lia | unfold need in *; lia | exact Hprev1]|].
  intros p2 (Hlt2 & Hle2 & Hclean2 & Hprev2). post; [|exact Hprev2].
  eapply clean_expr_trans; eassumption.
Qed.

Lemma comparison_ops_some k op :
  comparison_ops k = Some op -> k <> MINUS /\ k <> ASSIGN /\ k <> EOF.
Proof. destruct k; simpl; intros H; try discriminate; repeat split; discriminate. Qed.

Lemma comparison_loop_step fuel :
  (forall pos, pos <= n -> need n 5 pos fuel ->
     parses (additive tokens fuel pos) (Post_e tokens n pos)) ->
  (forall left pos, pos <= n -> need n 1 pos fuel -> prev_is tokens operand_end pos ->
     parses (comparison_loop tokens fuel left pos) (Post_l tokens n pos)) ->
  forall left pos, pos <= n -> need n 1 pos (S fuel) -> prev_is tokens operand_end pos ->
    parses (comparison_loop tokens (S fuel) left pos) (Post_l tokens n pos).
Proof.
  intros IHp IHl left pos Hle Hneed Hprev. cbn [comparison_loop]. unfold bind at 1.
  destruct (current_lexed pos Hle) as (tok & Htok & ->).
  pose proof (type_at_tok _ _ Htok) as Hty.
  destruct (comparison_ops (type tok)) as [op|] eqn:E1;
    [|unfold ret; simpl; post; [apply clean_expr_refl | exact Hprev]].
  destruct (comparison_ops_some _ _ E1) as (K1 & K2 & K3).
  assert (pos < n) by (eapply not_eof_lt; eauto).
  unfold bind at 1. cbn [advance].
  eapply parses_bind; [apply IHp; [lia | unfold need in *; lia]|].
  intros e p1 (Hlt1 & Hle1 & Hclean1 & Hprev1).
  eapply parses_weaken; [apply IHl; [lia | unfold need in *; lia | exact Hprev1]|].
  intros p2 (Hlt2 & Hle2 & Hclean2 & Hprev2). post; [|exact Hprev2].
  eapply clean_expr_trans; [|exact Hclean2]. eapply clean_expr_trans; [|exact Hclean1].
  apply clean_expr_one. eapply okE_other; eauto.
Qed.

Lemma comparison_step fuel :
  (forall pos, pos <= n -> need n 5 pos fuel ->
     parses (additive tokens fuel pos) (Post_e tokens n pos)) ->
  (forall left pos, pos <= n -> need n 1 pos fuel -> prev_is tokens operand_end pos ->
     parses (comparison_loop tokens fuel left pos) (Post_l tokens n pos)) ->
  forall pos, pos <= n -> need n 6 pos (S fuel) ->
    parses (comparison tokens (S fuel) pos) (Post_e tokens n pos).
Proof.
  intros IHp IHl pos Hle Hneed. cbn [comparison].
  eapply parses_bind; [apply IHp; [lia | unfold need in *; lia]|].
  intros left p1 (Hlt1 & Hle1 & Hclean1 & Hprev1).
  eapply parses_weaken; [apply IHl; [lia | unfold need in *; lia | exact Hprev1]|].
  intros p2 (Hlt2 & Hle2 & Hclean2 & Hprev2). post; [|exact Hprev2].
  eapply clean_expr_trans; eassumption.
Qed.

Lemma expression_group_holds fuel : expression_group tokens n fuel.
Proof.
  induction fuel as [|fuel (He & Hc & Hcl & Ha & Hal & Hm & Hml & Hp & Hu & Hpr)].
  - unfold expression_group, need. repeat split; intros; lia.
  - unfold expression_group. repeat split.
    + intros pos Hle Hneed. cbn [expression]. apply Hc; [lia | unfold need in *; lia].
    + now apply comparison_step.
    + now apply comparison_loop_step.
    + now apply additive_step.
    + now apply additive_loop_step.
    + now apply multiplicative_step.
    + now apply multiplicative_loop_step.
    + now apply power_step.
    + now apply unary_step.
    + now apply primary_step.
Qed.

(** What the statement grammar uses of an expression. *)
Lemma expression_parses fuel pos :
  pos <= n -> need n 7 pos fuel ->
  parses (expression tokens fuel pos)
    (fun p => pos < p /\ p <= n /\ clean tokens pos p /\ prev_is tokens operand_end p).
Proof.
  intros Hle Hneed. destruct (expression_group_holds fuel) as (IHe & _).
  eapply parses_weaken; [now apply IHe|].
  intros p (H1 & H2 & H3 & H4). post; [now apply clean_expr_clean | exact H4].
Qed.

Lemma optional_semicolon_spec pos :
  pos <= n -> prev_is tokens boundary pos ->
  parses (optional_semicolon tokens pos)
    (fun p => pos <= p /\ p <= n /\ clean tokens pos p /\ prev_is tokens boundary p).
Proof.
  intros Hle Hprev. unfold optional_semicolon. unfold bind at 1.
  destruct (current_lexed pos Hle) as (tok & Htok & ->).
  pose proof (type_at_tok _ _ Htok) as Hty.
  destruct (TokenType.eqb (type tok) SEMICOL) eqn:E1.
  - apply TokenType_eqb_eq in E1.
    assert (pos < n) by (eapply not_eof_lt; eauto; congruence).
    simpl. post.
    + apply clean_one. eapply ok_other; eauto; congruence.
    + eapply prev_is_tok; eauto. now rewrite E1.
  - simpl. post; [apply clean_refl | exact Hprev].
Qed.

(** What follows a parsed expression in a statement: the optional
    semicolon, then the node is returned. *)
Lemma statement_tail {A : Type} (node : A) start pos :
  start < pos -> pos <= n -> clean tokens start pos -> prev_is tokens boundary pos ->
  parses (bind (optional_semicolon tokens) (fun _ => ret node) pos) (Post_s tokens n start).
Proof.
  intros Hlt Hle Hclean Hprev.
  eapply parses_bind; [now apply optional_semicolon_spec|].
  intros _ p (H1 & H2 & H3 & H4). unfold ret. simpl. post; [|exact H4].
  eapply clean_trans; eassumption.
Qed.

Lemma ok_plain pos tok :
  tokens !! pos = Some tok -> type tok <> MINUS -> type tok <> ASSIGN -> ok_at tokens pos.
Proof. intros H. apply ok_other. now apply type_at_tok. Qed.

Lemma statement_step fuel :
  (forall pos, pos <= n -> need n 8 pos fuel -> Pre_s tokens pos ->
     parses (if_stmt tokens fuel pos) (Post_s tokens n pos)) ->
  (forall pos, pos <= n -> need n 8 pos fuel -> Pre_s tokens pos ->
     parses (while_stmt tokens fuel pos) (Post_s tokens n pos)) ->
  forall pos, pos <= n -> need n 9 pos (S fuel) -> Pre_s tokens pos ->
    parses (statement tokens (S fuel) pos) (Post_s tokens n pos).
Proof.
  intros IHif IHwhile pos Hle Hneed Hpre.
  pose proof (expression_parses fuel) as IHe.
  cbn [statement]. unfold bind at 1.
  destruct (current_lexed pos Hle) as (tok & Htok & ->).
  pose proof (token_well_typed _ _ Htok) as Hwt.
  pose proof (type_at_tok _ _ Htok) as Hty.
  destruct (TokenType.eqb (type tok) PRINT) eqn:E1.
  { apply TokenType_eqb_eq in E1.
    assert (pos < n) by (eapply not_eof_lt; eauto; congruence).
    unfold bind at 1. cbn [advance].
    eapply parses_bind; [apply eat_spec; [lia | discriminate]|].
    intros _ p1 (-> & Hle1 & Hty1).
    eapply parses_bind; [apply IHe; [lia | unfold need in *; lia]|].
    intros e p2 (Hlt2 & Hle2 & Hclean2 & _).
    eapply parses_bind; [apply eat_spec; [lia | discriminate]|].
    intros _ p3 (-> & Hle3 & Hty3).
    apply statement_tail; [lia | lia | | exists p2, RPAREN; auto].
    apply clean_snoc; [|eapply ok_other; eauto; congruence].
    eapply clean_trans; [|exact Hclean2].
    apply clean_snoc; [|eapply ok_other; eauto; congruence].
    apply clean_one. eapply ok_other; eauto; congruence. }
  destruct (TokenType.eqb (type tok) IF) eqn:E2;
    [apply IHif; [lia | unfold need in *; lia | exact Hpre]|].
  destruct (TokenType.eqb (type tok) WHILE) eqn:E3;
    [apply IHwhile; [lia | unfold need in *; lia | exact Hpre]|].
  assert (forall start p (e : Node), start < p -> p <= n -> clean tokens start p ->
            prev_is tokens operand_end p ->
            parses (bind (optional_semicolon tokens) (fun _ => ret e) p)
              (Post_s tokens n start)) as Htail.
  { intros start p e ? ? ? ?. apply (statement_tail (A := Node)); auto.
    now apply prev_operand_boundary. }
  destruct (TokenType.eqb (type tok) IDENT) eqn:E4.
  - apply TokenType_eqb_eq in E4.
    assert (pos < n) by (eapply not_eof_lt; eauto; congruence).
    destruct (token_at (S pos) ltac:(lia)) as [tok2 Htok2].
    unfold bind at 1, bind at 1, peek. rewrite Nat.add_1_r, Htok2. unfold ret at 1.
    cbv beta iota.
    destruct (TokenType.eqb (type tok2) ASSIGN) eqn:E5.
    + apply TokenType_eqb_eq in E5.
      assert (S pos < n) by (apply (not_eof_lt (S pos) tok2); [lia | exact Htok2 | congruence]).
      unfold bind at 1. rewrite (eat_ok _ _ _ Htok E4).
      destruct (text_of_typed tok (S pos) Hwt) as [name Hname]; try congruence.
      unfold bind at 1. rewrite Hname.
      unfold bind at 1. rewrite (eat_ok _ _ _ Htok2 E5).
      eapply parses_bind; [apply IHe; [lia | unfold need in *; lia]|].
      intros e p1 (Hlt1 & Hle1 & Hclean1 & Hprev1). apply Htail; [lia | lia | | exact Hprev1].
      eapply clean_trans; [|exact Hclean1].
      apply clean_snoc; [apply clean_one; eapply ok_plain; eauto; congruence|].
      apply ok_assign; [rewrite <- E5; now apply type_at_tok | now rewrite <- E4 | exact Hpre].
    + eapply parses_bind; [apply IHe; [lia | unfold need in *; lia]|].
      intros e p1 (Hlt1 & Hle1 & Hclean1 & Hprev1). now apply Htail.
  - unfold bind at 1, ret at 1. cbv beta iota.
    eapply parses_bind; [apply IHe; [lia | unfold need in *; lia]|].
    intros e p1 (Hlt1 & Hle1 & Hclean1 & Hprev1). now apply Htail.
Qed.

(** A body in braces, from the opening brace on. *)
Lemma braces_step fuel :
  (forall stop body pos, pos <= n -> need n 10 pos fuel -> Pre_s tokens pos ->
     parses (statements_until tokens fuel stop body pos) (Post_until tokens n stop pos)) ->
  forall {A : Type} (k : list Node -> P A) start pos (Q : nat -> Prop),
    pos <= n -> need n 11 pos (S fuel) -> clean tokens start pos ->
    (forall stmts p, pos < p -> p <= n -> clean tokens start p -> prev_is tokens boundary p ->
       parses (k stmts p) Q) ->
    parses (bind (eat tokens LBRACE)
              (fun _ => bind (statements_until tokens fuel RBRACE [])
                 (fun stmts => bind (eat tokens RBRACE) (fun _ => k stmts))) pos) Q.
Proof.
  intros IHu A k start pos Q Hle Hneed Hclean Hk.
  eapply parses_bind; [apply eat_spec; [lia | discriminate]|].
  intros _ p1 (-> & Hle1 & Hty1).
  eapply parses_bind;
    [apply IHu; [lia | unfold need in *; lia | right; exists pos, LBRACE; auto]|].
  intros stmts p2 (Hlt2 & Hle2 & Hclean2 & Hty2 & _).
  eapply parses_bind; [apply eat_spec; [lia | discriminate]|].
  intros _ p3 (-> & Hle3 & Hty3).
  apply Hk; [lia | lia | | exists p2, RBRACE; auto].
  apply clean_snoc; [|eapply ok_other; eauto; congruence].
  eapply clean_trans; [|exact Hclean2].
  apply clean_snoc; [exact Hclean|eapply ok_other; eauto; congruence].
Qed.

(** The head of [if] and [while]: the keyword, then the condition in
    parentheses. *)
Lemma head_step fuel :
  forall {A : Type} (kw : TokenType.t) (k : Node -> P A) pos (Q : nat -> Prop),
    kw <> EOF -> kw <> MINUS -> kw <> ASSIGN ->
    pos <= n -> need n 8 pos (S fuel) ->
    (forall cond p, S pos < p -> p <= n -> clean tokens pos p -> parses (k cond p) Q) ->
    parses (bind (eat tokens kw)
              (fun _ => bind (eat tokens LPAREN)
                 (fun _ => bind (expression tokens fuel)
                    (fun cond => bind (eat tokens RPAREN) (fun _ => k cond)))) pos) Q.
Proof.
  intros A kw k pos Q K1 K2 K3 Hle Hneed Hk.
  pose proof (expression_parses fuel) as IHe.
  eapply parses_bind; [apply eat_spec; [lia | exact K1]|].
  intros _ p1 (-> & Hle1 & Hty1).
  eapply parses_bind; [apply eat_spec; [lia | discriminate]|].
  intros _ p2 (-> & Hle2 & Hty2).
  eapply parses_bind; [apply IHe; [lia | unfold need in *; lia]|].
  intros cond p3 (Hlt3 & Hle3 & Hclean3 & _).
  eapply parses_bind; [apply eat_spec; [lia | discriminate]|].
  intros _ p4 (-> & Hle4 & Hty4).
  apply Hk; [lia | lia |].
  apply clean_snoc; [|eapply ok_other; eauto; congruence].
  eapply clean_trans; [|exact Hclean3].
  apply clean_snoc; [|eapply ok_other; eauto; congruence].
  apply clean_one. eapply ok_other; eauto.
Qed.

Lemma while_stmt_step fuel :
  (forall stop body pos, pos <= n -> need n 10 pos fuel -> Pre_s tokens pos ->
     parses (statements_until tokens fuel stop body pos) (Post_until tokens n stop pos)) ->
  forall pos, pos <= n -> need n 8 pos (S fuel) -> Pre_s tokens pos ->
    parses (while_stmt tokens (S fuel) pos) (Post_s tokens n pos).
Proof.
  intros IHu pos Hle Hneed _. cbn [while_stmt].
  apply head_step; try discriminate; [exact Hle | exact Hneed |].
  intros cond p Hlt Hlep Hclean.
  eapply (braces_step fuel IHu); [exact Hlep | unfold need in *; lia | exact Hclean |].
  intros stmts p' Hlt' Hle' Hclean' Hprev'. unfold ret. simpl. post; assumption.
Qed.

Lemma if_stmt_step fuel :
  (forall stop body pos, pos <= n -> need n 10 pos fuel -> Pre_s tokens pos ->
     parses (statements_until tokens fuel stop body pos) (Post_until tokens n stop pos)) ->
  forall pos, pos <= n -> need n 8 pos (S fuel) -> Pre_s tokens pos ->
    parses (if_stmt tokens (S fuel) pos) (Post_s tokens n pos).
Proof.
  intros IHu pos Hle Hneed _. cbn [if_stmt].
  apply head_step; try discriminate; [exact Hle | exact Hneed |].
  intros cond p Hlt Hlep Hclean.
  eapply (braces_step fuel IHu); [exact Hlep | unfold need in *; lia | exact Hclean |].
  intros then_body p1 Hlt1 Hle1 Hclean1 Hprev1. unfold bind at 1.
  destruct (current_lexed p1 Hle1) as (tok & Htok & ->).
  destruct (TokenType.eqb (type tok) ELSE) eqn:E1;
    [|unfold ret; simpl; post; assumption].
  apply TokenType_eqb_eq in E1.
  assert (p1 < n) by (eapply not_eof_lt; eauto; congruence).
  unfold bind at 1. cbn [advance].
  eapply (braces_step fuel IHu (fun else_body => ret (IfNode cond then_body (Some else_body)))
            pos (S p1));
    [lia | unfold need in *; lia | |].
  - apply clean_snoc; [exact Hclean1 | eapply ok_plain; eauto; congruence].
  - intros stmts p' Hlt' Hle' Hclean' Hprev'. unfold ret. simpl. post; assumption.
Qed.

Lemma statements_until_step fuel :
  (forall pos, pos <= n -> need n 9 pos fuel -> Pre_s tokens pos ->
     parses (statement tokens fuel pos) (Post_s tokens n pos)) ->
  (forall stop body pos, pos <= n -> need n 10 pos fuel -> Pre_s tokens pos ->
     parses (statements_until tokens fuel stop body pos) (Post_until tokens n stop pos)) ->
  forall stop body pos, pos <= n -> need n 10 pos (S fuel) -> Pre_s tokens pos ->
    parses (statements_until tokens (S fuel) stop body pos) (Post_until tokens n stop pos).
Proof.
  intros IHs IHu stop body pos Hle Hneed Hpre. cbn [statements_until]. unfold bind at 1.
  destruct (current_lexed pos Hle) as (tok & Htok & ->).
  pose proof (type_at_tok _ _ Htok) as Hty.
  destruct (TokenType.eqb (type tok) stop) eqn:E1; simpl negb; cbv iota.
  - apply TokenType_eqb_eq in E1. unfold ret. simpl. post; [apply clean_refl|].
    split; [now rewrite <- E1 | exact Hpre].
  - eapply parses_bind; [apply IHs; [lia | unfold need in *; lia | exact Hpre]|].
    intros stmt p1 (Hlt1 & Hle1 & Hclean1 & Hprev1).
    eapply parses_weaken;
      [apply IHu; [lia | unfold need in *; lia | right; exact Hprev1]|].
    intros p2 (Hlt2 & Hle2 & Hclean2 & Hstop). post; [|exact Hstop].
    eapply clean_trans; eassumption.
Qed.

Lemma statement_group_holds fuel : statement_group tokens n fuel.
Proof.
  induction fuel as [|fuel (Hs & Hu & Hi & Hw)].
  - unfold statement_group, need. repeat split; intros; lia.
  - unfold statement_group. repeat split.
    + now apply statement_step.
    + now apply statements_until_step.
    + now apply if_stmt_step.
    + now apply while_stmt_step.
Qed.

(** On the tokens of the lexer the parser answers with a tree or with one
    of its two errors; when it answers with a tree, no token before EOF is a
    doubled leading minus or a misplaced [=]. *)
Lemma parse_lexed :
  (exists ast, parse tokens = Ok ast /\ clean tokens 0 n)
  \/ (exists e, parse tokens = Raise e /\ parser_error e).
Proof.
  destruct (statement_group_holds (parse_fuel tokens)) as (_ & Hu & _).
  specialize (Hu EOF [] 0 ltac:(lia)).
  assert (need n 10 0 (parse_fuel tokens)) as Hneed.
  { unfold need, parse_fuel. destruct Hlexed as (-> & _). lia. }
  specialize (Hu Hneed (or_introl eq_refl)).
  unfold parse. destruct (statements_until tokens (parse_fuel tokens) EOF [] 0)
    as [[stmts p]|e| |]; simpl in Hu; try contradiction.
  - left. exists (BlockNode stmts). split; [reflexivity|].
    destruct Hu as (_ & Hle & Hclean & Hty & _).
    destruct Hlexed as (_ & _ & _ & Hno).
    destruct (Nat.eq_dec p n) as [->|]; [exact Hclean|].
    exfalso. apply (Hno p); [lia | exact Hty].
  - right. eauto.
Qed.
End Lexed.

Lemma parser_error_caught e : parser_error e -> caught_by_run e = true.
Proof. destruct e as [[]| | | | | | | | |]; simpl; tauto. Qed.

(** An expression reads no [=]: whatever it is started on, the tokens it
    consumed hold none. *)
Lemma expression_reads_no_assign tokens n fuel pos e p :
  lexed tokens n -> (pos <= n)%nat -> need n 7 pos fuel ->
  Parser.expression tokens fuel pos = Ok (e, p) ->
  (pos < p <= n)%nat
  /\ forall i, (pos <= i < p)%nat -> type_at tokens i <> Some ASSIGN.
Proof.
  intros Hlexed Hle Hneed Hp.
  destruct (expression_group_holds tokens n Hlexed fuel) as (IHe & _).
  specialize (IHe pos Hle Hneed). rewrite Hp in IHe.
  destruct IHe as (H1 & H2 & H3 & _). split; [lia|].
  intros i Hi. exact (proj2 (H3 i Hi)).
Qed.

(** After [tokenize], [parse] answers with a tree or with an error of the
    parser. *)
Lemma parse_tokenized source tokens :
  Lexer.tokenize source = Ok tokens ->
  (exists ast, Parser.parse tokens = Ok ast)
  \/ (exists e, Parser.parse tokens = Raise e /\ parser_error e).
Proof.
  intros H. destruct (tokenize_lexed _ _ H) as [n Hn].
  destruct (parse_lexed tokens n Hn) as [(ast & Hast & _)|He]; eauto.
Qed.

(** A doubled leading minus or a misplaced [=] anywhere in the text makes
    [parse] fail with an error of the parser. *)
Lemma parse_rejects source tokens i :
  Lexer.tokenize source = Ok tokens ->
  doubled_leading_minus tokens i \/ misplaced_assign tokens i ->
  exists e, Parser.parse tokens = Raise e /\ parser_error e.
Proof.
  intros H Hbad. destruct (tokenize_lexed _ _ H) as [n Hn].
  destruct (parse_lexed tokens n Hn) as [(ast & _ & Hclean)|He]; [exfalso|exact He].
  assert (exists k, type_at tokens i = Some k /\ k <> EOF) as (k & Hk & Hne).
  { destruct Hbad as [(Hk & _)|(Hk & _)]; eexists; (split; [exact Hk | discriminate]). }
  destruct Hn as (Hlen & Heof & _ & _).
  assert (i < n)%nat as Hi.
  { assert (i < length tokens)%nat.
    { apply lookup_lt_is_Some. unfold type_at in Hk.
      destruct (tokens !! i); [eauto | discriminate]. }
    destruct (Nat.eq_dec i n) as [->|]; [congruence | lia]. }
  destruct (Hclean i ltac:(lia)) as [H1 H2]. tauto.
Qed.

(** [run] reports the parser's error and gives back the interpreter as it
    was passed. *)
Lemma run_parser_error host source tokens e interpreter :
  Lexer.tokenize source = Ok tokens ->
  Parser.parse tokens = Raise e -> parser_error e ->
  run host source (Some interpreter) = Returned interpreter (Some e).
Proof.
  intros Ht Hp He. unfold run. rewrite Ht, Hp. unfold handle.
  now rewrite (parser_error_caught _ He).
Qed.

(** The embedding answers wherever the program does: no call of [run] ends
    on a used-up counter or on an ill-typed token. *)
Lemma run_defined host source interpreter : run host source interpreter <> Undefined.
Proof.
  unfold run.
  destruct (tokenize_total source) as [[tokens Ht]|[(c & ln & Ht)|Ht]]; rewrite Ht.
  - destruct (parse_tokenized _ _ Ht) as [[ast Hp]|(e & Hp & He)]; rewrite Hp.
    + pose proof (eval_defined host ast
        (match interpreter with Some i => i | None => new_interpreter end)) as Hd.
      destruct (eval host ast _) as [[v|e| |] st]; simpl in Hd; try contradiction.
      * discriminate.
      * unfold handle. destruct (caught_by_run e); discriminate.
    + unfold handle. destruct (caught_by_run e); discriminate.
  - discriminate.
  - discriminate.
Qed.

(* ===================================================================== *)
(** * Parser: the call stack *)
(* ===================================================================== *)

Section Refinement.
Import Parser.
Variable tokens : list Token.

Lemma approximates_refl {A : Type} (m : P A) : approximates m m.
Proof. intros pos. now left. Qed.

Lemma approximates_bind {A B : Type} (m' m : P A) (k' k : A -> P B) :
  approximates m' m -> (forall a, approximates (k' a) (k a)) ->
  approximates (bind m' k') (bind m k).
Proof.
  intros Hm Hk pos. unfold bind. destruct (Hm pos) as [->| ->]; [|now right].
  destruct (m pos) as [[a p]|e| |]; try (now left). apply Hk.
Qed.

Lemma approximates_call {A : Type} frames (m' : nat -> P A) (m : P A) :
  (forall frames', approximates (m' frames') m) -> approximates (Bounded.call frames m') m.
Proof. intros H. destruct frames; [intros pos; now right | apply H]. Qed.

Lemma approximates_current frames :
  approximates (Bounded.current tokens frames) (current tokens).
Proof. apply approximates_call. intros _. apply approximates_refl. Qed.

Ltac approximate :=
  repeat first
    [ apply approximates_refl
    | apply approximates_current
    | apply approximates_call; intros ?
    | apply approximates_bind; [|intros ?]
    | match goal with
      | |- approximates (if ?c then _ else _) _ => destruct c
      | |- approximates (match ?c with Some _ => _ | None => _ end) _ => destruct c
      end
    | solve [auto] ].

Lemma approximates_eat k frames : approximates (Bounded.eat tokens k frames) (eat tokens k).
Proof. unfold Bounded.eat, eat. approximate. Qed.

Lemma approximates_optional_semicolon frames :
  approximates (Bounded.optional_semicolon tokens frames) (optional_semicolon tokens).
Proof. unfold Bounded.optional_semicolon, optional_semicolon. approximate. Qed.

#[local] Hint Resolve approximates_eat approximates_optional_semicolon : core.

Lemma expression_bounded_holds fuel : expression_bounded tokens fuel.
Proof.
  induction fuel as [|fuel IH]; intros frames.
  - repeat split; intros; apply approximates_refl.
  - assert (forall f, approximates (Bounded.expression tokens fuel f) (expression tokens fuel))
      as IHe by (intros f; apply (IH f)).
    assert (forall f, approximates (Bounded.comparison tokens fuel f) (comparison tokens fuel))
      as IHc by (intros f; apply (IH f)).
    assert (forall f left, approximates (Bounded.comparison_loop tokens fuel f left)
                             (comparison_loop tokens fuel left))
      as IHcl by (intros f; apply (IH f)).
    assert (forall f, approximates (Bounded.additive tokens fuel f) (additive tokens fuel))
      as IHa by (intros f; apply (IH f)).
    assert (forall f left, approximates (Bounded.additive_loop tokens fuel f left)
                             (additive_loop tokens fuel left))
      as IHal by (intros f; apply (IH f)).
    assert (forall f, approximates (Bounded.multiplicative tokens fuel f)
                        (multiplicative tokens fuel))
      as IHm by (intros f; apply (IH f)).
    assert (forall f left, approximates (Bounded.multiplicative_loop tokens fuel f left)
                             (multiplicative_loop tokens fuel left))
      as IHml by (intros f; apply (IH f)).
    assert (forall f, approximates (Bounded.power tokens fuel f) (power tokens fuel))
      as IHp by (intros f; apply (IH f)).
    assert (forall f, approximates (Bounded.unary tokens fuel f) (unary tokens fuel))
      as IHu by (intros f; apply (IH f)).
    assert (forall f, approximates (Bounded.primary tokens fuel f) (primary tokens fuel))
      as IHpr by (intros f; apply (IH f)).
    clear IH.
    repeat split; intros;
      cbn [Bounded.expression Bounded.comparison Bounded.comparison_loop Bounded.additive
           Bounded.additive_loop Bounded.multiplicative Bounded.multiplicative_loop
           Bounded.power Bounded.unary Bounded.primary
           expression comparison comparison_loop additive additive_loop multiplicative
           multiplicative_loop power unary primary];
      approximate.
Qed.

Lemma statement_bounded_holds fuel : statement_bounded tokens fuel.
Proof.
  induction fuel as [|fuel IH]; intros frames.
  - repeat split; intros; apply approximates_refl.
  - assert (forall f, approximates (Bounded.expression tokens fuel f) (expression tokens fuel))
      as IHe by (intros f; apply (expression_bounded_holds fuel f)).
    assert (forall f, approximates (Bounded.statement tokens fuel f) (statement tokens fuel))
      as IHs by (intros f; apply (IH f)).
    assert (forall f stop body,
              approximates (Bounded.statements_until tokens fuel f stop body)
                (statements_until tokens fuel stop body))
      as IHu by (intros f; apply (IH f)).
    assert (forall f, approximates (Bounded.if_stmt tokens fuel f) (if_stmt tokens fuel))
      as IHi by (intros f; apply (IH f)).
    assert (forall f, approximates (Bounded.while_stmt tokens fuel f) (while_stmt tokens fuel))
      as IHw by (intros f; apply (IH f)).
    clear IH.
    repeat split; intros;
      cbn [Bounded.statement Bounded.statements_until Bounded.if_stmt Bounded.while_stmt
           statement statements_until if_stmt while_stmt];
      approximate.
Qed.

(** The bounded parser answers as the parser does, or with RecursionError. *)
Lemma parse_refines frames : refines (Bounded.parse tokens frames) (parse tokens).
Proof.
  unfold Bounded.parse, parse. destruct frames as [|frames]; [now right|].
  destruct (statement_bounded_holds (parse_fuel tokens) frames) as (_ & Hu & _).
  destruct (Hu EOF [] 0%nat) as [->| ->]; [now left | now right].
Qed.
End Refinement.

Section Ample.
Import Parser.
Variable tokens : list Token.

Lemma agrees_refl {A : Type} (m : P A) : agrees m m.
Proof. intros pos. reflexivity. Qed.

Lemma agrees_bind {A B : Type} (m' m : P A) (k' k : A -> P B) :
  agrees m' m -> (forall a, agrees (k' a) (k a)) -> agrees (bind m' k') (bind m k).
Proof.
  intros Hm Hk pos. unfold bind. rewrite (Hm pos).
  destruct (m pos) as [[a p]|e| |]; try reflexivity. apply Hk.
Qed.

Lemma agrees_current frames : agrees (Bounded.current tokens (S frames)) (current tokens).
Proof. apply agrees_refl. Qed.

Lemma agrees_eat k frames : agrees (Bounded.eat tokens k (S (S frames))) (eat tokens k).
Proof. apply agrees_refl. Qed.

Lemma agrees_optional_semicolon frames :
  agrees (Bounded.optional_semicolon tokens (S (S frames))) (optional_semicolon tokens).
Proof. apply agrees_refl. Qed.

Ltac agree :=
  repeat first
    [ apply agrees_refl
    | apply agrees_current
    | apply agrees_eat
    | apply agrees_optional_semicolon
    | apply agrees_bind; [|intros ?]
    | match goal with
      | |- agrees (if ?c then _ else _) _ => destruct c
      | |- agrees (match ?c with Some _ => _ | None => _ end) _ => destruct c
      end
    | match goal with
      | IH : forall frames, (_ <= frames)%nat -> _ |- _ => apply IH; lia
      end ].

Lemma expression_unbounded_holds fuel : expression_unbounded tokens fuel.
Proof.
  induction fuel as [|fuel IH]; intros frames Hf.
  - repeat split; intros; apply agrees_refl.
  - destruct frames as [|[|[|frames]]]; try lia.
    assert (forall f, (fuel + 2 <= f)%nat ->
              agrees (Bounded.expression tokens fuel f) (expression tokens fuel))
      as IHe by (intros f H; apply (IH f H)).
    assert (forall f, (fuel + 2 <= f)%nat ->
              agrees (Bounded.comparison tokens fuel f) (comparison tokens fuel))
      as IHc by (intros f H; apply (IH f H)).
    assert (forall f, (fuel + 2 <= f)%nat ->
              forall left, agrees (Bounded.comparison_loop tokens fuel f left)
                             (comparison_loop tokens fuel left))
      as IHcl by (intros f H; apply (IH f H)).
    assert (forall f, (fuel + 2 <= f)%nat ->
              agrees (Bounded.additive tokens fuel f) (additive tokens fuel))
      as IHa by (intros f H; apply (IH f H)).
    assert (forall f, (fuel + 2 <= f)%nat ->
              forall left, agrees (Bounded.additive_loop tokens fuel f left)
                             (additive_loop tokens fuel left))
      as IHal by (intros f H; apply (IH f H)).
    assert (forall f, (fuel + 2 <= f)%nat ->
              agrees (Bounded.multiplicative tokens fuel f) (multiplicative tokens fuel))
      as IHm by (intros f H; apply (IH f H)).
    assert (forall f, (fuel + 2 <= f)%nat ->
              forall left, agrees (Bounded.multiplicative_loop tokens fuel f left)
                             (multiplicative_loop tokens fuel left))
      as IHml by (intros f H; apply (IH f H)).
    assert (forall f, (fuel + 2 <= f)%nat ->
              agrees (Bounded.power tokens fuel f) (power tokens fuel))
      as IHp by (intros f H; apply (IH f H)).
    assert (forall f, (fuel + 2 <= f)%nat ->
              agrees (Bounded.unary tokens fuel f) (unary tokens fuel))
      as IHu by (intros f H; apply (IH f H)).
    assert (forall f, (fuel + 2 <= f)%nat ->
              agrees (Bounded.primary tokens fuel f) (primary tokens fuel))
      as IHpr by (intros f H; apply (IH f H)).
    clear IH.
    repeat split; intros;
      cbn [Bounded.call Bounded.expression Bounded.comparison Bounded.comparison_loop Bounded.additive
           Bounded.additive_loop Bounded.multiplicative Bounded.multiplicative_loop
           Bounded.power Bounded.unary Bounded.primary
           expression comparison comparison_loop additive additive_loop multiplicative
           multiplicative_loop power unary primary];
      agree.
Qed.

Lemma statement_unbounded_holds fuel : statement_unbounded tokens fuel.
Proof.
  induction fuel as [|fuel IH]; intros frames Hf.
  - repeat split; intros; apply agrees_refl.
  - destruct frames as [|[|[|frames]]]; try lia.
    assert (forall f, (fuel + 2 <= f)%nat ->
              agrees (Bounded.expression tokens fuel f) (expression tokens fuel))
      as IHe by (intros f H; apply (expression_unbounded_holds fuel f H)).
    assert (forall f, (fuel + 2 <= f)%nat ->
              agrees (Bounded.statement tokens fuel f) (statement tokens fuel))
      as IHs by (intros f H; apply (IH f H)).
    assert (forall f, (fuel + 2 <= f)%nat ->
              forall stop body, agrees (Bounded.statements_until tokens fuel f stop body)
                                  (statements_until tokens fuel stop body))
      as IHu by (intros f H; apply (IH f H)).
    assert (forall f, (fuel + 2 <= f)%nat ->
              agrees (Bounded.if_stmt tokens fuel f) (if_stmt tokens fuel))
      as IHi by (intros f H; apply (IH f H)).
    assert (forall f, (fuel + 2 <= f)%nat ->
              agrees (Bounded.while_stmt tokens fuel f) (while_stmt tokens fuel))
      as IHw by (intros f H; apply (IH f H)).
    clear IH.
    repeat split; intros;
      cbn [Bounded.call Bounded.statement Bounded.statements_until Bounded.if_stmt Bounded.while_stmt
           statement statements_until if_stmt while_stmt];
      agree.
Qed.

(** With ample frames the bounded parser is the parser. *)
Lemma parse_ample frames :
  (ample_frames tokens <= frames)%nat -> Bounded.parse tokens frames = parse tokens.
Proof.
  unfold ample_frames, Bounded.parse, parse. intros H.
  destruct frames as [|frames]; [lia|].
  destruct (statement_unbounded_holds (parse_fuel tokens) frames ltac:(lia)) as (_ & Hu & _).
  now rewrite (Hu EOF [] 0%nat).
Qed.
End Ample.

(* ===================================================================== *)
(** * Parser: what a prefix minus is followed by *)
(* ===================================================================== *)

Section Spans.
Import Parser.
Local Open Scope nat_scope.
Variable tokens : list Token.

(** ** What a method returned *)

Lemma reaches_bind {A B : Type} (m : P A) (k : A -> P B) pos (Q : nat -> Prop) :
  (forall a p, m pos = Ok (a, p) -> reaches (k a p) Q) -> reaches (bind m k pos) Q.
Proof. intros H. unfold bind. destruct (m pos) as [[a p]|e| |]; simpl; auto. Qed.








(** ** Parentheses that close each other *)






(** ** Where an operand ends *)





(** ** Where no prefix minus is doubled *)








(** ** Spans *)







(** ** The methods *)

Ltac step := apply reaches_bind; intros ? ? ?.










(** The loop over the statements stops in front of a token of the type it
    waits for, and nowhere else. *)
Lemma statements_until_stops fuel : forall stop body pos stmts p,
  statements_until tokens fuel stop body pos = Ok (stmts, p) ->
  exists tok, tokens !! p = Some tok /\ type tok = stop.
Proof.
  induction fuel as [|fuel IH]; intros stop body pos stmts p H; [discriminate|].
  cbn [statements_until] in H. unfold bind at 1 in H.
  unfold current, peek in H. rewrite Nat.add_0_r in H.
  destruct (tokens !! pos) as [tok|] eqn:Etok; [|discriminate].
  destruct (TokenType.eqb (type tok) stop) eqn:Ek; simpl in H.
  - injection H as <- <-. exists tok. split; [exact Etok|].
    now apply TokenType_eqb_eq.
  - unfold bind at 1 in H.
    destruct (statement tokens fuel pos) as [[stmt p']| | |]; try discriminate.
    exact (IH _ _ _ _ _ H).
Qed.

End Spans.


(* ===================================================================== *)
(** * Parser: texts too deep for the stack *)
(* ===================================================================== *)

Section TooDeep.
Import Parser.
Local Open Scope nat_scope.
Variable tokens : list Token.

Lemma bind_raises {A B : Type} (m : P A) (k : A -> P B) pos e :
  m pos = Raise e -> bind m k pos = Raise e.
Proof. intros H. unfold bind. now rewrite H. Qed.

Lemma current_no_frame pos : Bounded.current tokens 0 pos = Raise RecursionError.
Proof. reflexivity. Qed.

Lemma current_frame frames pos tok :
  tokens !! pos = Some tok -> Bounded.current tokens (S frames) pos = Ok (tok, pos).
Proof. intros H. unfold Bounded.current, Bounded.call. now apply current_at. Qed.

Section Level.
Variable k : nat.
Hypothesis expression_deeper : forall fuel frames pos,
  7 * k + 1 <= fuel -> frames <= 7 * k -> parentheses_from tokens k pos ->
  Bounded.expression tokens fuel frames pos = Raise RecursionError.

Lemma primary_too_deep fuel frames pos :
  7 * k + 2 <= fuel -> frames <= 7 * k + 1 -> parentheses_from tokens (S k) pos ->
  Bounded.primary tokens fuel frames pos = Raise RecursionError.
Proof.
  intros Hfuel Hframes Hp. destruct fuel as [|fuel]; [lia|]. cbn [Bounded.primary].
  destruct frames as [|frames]; [reflexivity|]. cbn [Bounded.call].
  destruct (Hp 0 ltac:(lia)) as (tok & Ht & Hk). rewrite Nat.add_0_r in Ht.
  destruct frames as [|frames]; [reflexivity|].
  unfold bind at 1. rewrite (current_frame _ _ _ Ht), Hk.
  cbn [TokenType.eqb TokenType.tag Nat.eqb]. cbv iota.
  unfold bind at 1. cbn [advance]. apply bind_raises.
  apply expression_deeper; [lia | lia |].
  intros j Hj. destruct (Hp (S j) ltac:(lia)) as (t & Ht' & Hk').
  exists t. split; [|exact Hk']. now replace (S pos + j) with (pos + S j) by lia.
Qed.

Lemma unary_too_deep fuel frames pos :
  7 * k + 3 <= fuel -> frames <= 7 * k + 2 -> parentheses_from tokens (S k) pos ->
  Bounded.unary tokens fuel frames pos = Raise RecursionError.
Proof.
  intros Hfuel Hframes Hp. destruct fuel as [|fuel]; [lia|]. cbn [Bounded.unary].
  destruct frames as [|frames]; [reflexivity|]. cbn [Bounded.call].
  destruct (Hp 0 ltac:(lia)) as (tok & Ht & Hk). rewrite Nat.add_0_r in Ht.
  destruct frames as [|frames]; [reflexivity|].
  unfold bind at 1. rewrite (current_frame _ _ _ Ht), Hk.
  cbn [TokenType.eqb TokenType.tag Nat.eqb]. cbv iota.
  apply primary_too_deep; [lia | lia | exact Hp].
Qed.

Lemma power_too_deep fuel frames pos :
  7 * k + 4 <= fuel -> frames <= 7 * k + 3 -> parentheses_from tokens (S k) pos ->
  Bounded.power tokens fuel frames pos = Raise RecursionError.
Proof.
  intros Hfuel Hframes Hp. destruct fuel as [|fuel]; [lia|]. cbn [Bounded.power].
  destruct frames as [|frames]; [reflexivity|]. cbn [Bounded.call].
  apply bind_raises. apply unary_too_deep; [lia | lia | exact Hp].
Qed.

Lemma multiplicative_too_deep fuel frames pos :
  7 * k + 5 <= fuel -> frames <= 7 * k + 4 -> parentheses_from tokens (S k) pos ->
  Bounded.multiplicative tokens fuel frames pos = Raise RecursionError.
Proof.
  intros Hfuel Hframes Hp. destruct fuel as [|fuel]; [lia|]. cbn [Bounded.multiplicative].
  destruct frames as [|frames]; [reflexivity|]. cbn [Bounded.call].
  apply bind_raises. apply power_too_deep; [lia | lia | exact Hp].
Qed.

Lemma additive_too_deep fuel frames pos :
  7 * k + 6 <= fuel -> frames <= 7 * k + 5 -> parentheses_from tokens (S k) pos ->
  Bounded.additive tokens fuel frames pos = Raise RecursionError.
Proof.
  intros Hfuel Hframes Hp. destruct fuel as [|fuel]; [lia|]. cbn [Bounded.additive].
  destruct frames as [|frames]; [reflexivity|]. cbn [Bounded.call].
  apply bind_raises. apply multiplicative_too_deep; [lia | lia | exact Hp].
Qed.

Lemma comparison_too_deep fuel frames pos :
  7 * k + 7 <= fuel -> frames <= 7 * k + 6 -> parentheses_from tokens (S k) pos ->
  Bounded.comparison tokens fuel frames pos = Raise RecursionError.
Proof.
  intros Hfuel Hframes Hp. destruct fuel as [|fuel]; [lia|]. cbn [Bounded.comparison].
  destruct frames as [|frames]; [reflexivity|]. cbn [Bounded.call].
  apply bind_raises. apply additive_too_deep; [lia | lia | exact Hp].
Qed.
End Level.

(** Seven methods are called from one parenthesis to the next, so seven
    frames for each parenthesis are not enough. *)
Lemma expression_too_deep k : forall fuel frames pos,
  7 * k + 1 <= fuel -> frames <= 7 * k -> parentheses_from tokens k pos ->
  Bounded.expression tokens fuel frames pos = Raise RecursionError.
Proof.
  induction k as [|k IH]; intros fuel frames pos Hfuel Hframes Hp;
    (destruct fuel as [|fuel]; [lia|]); cbn [Bounded.expression];
    (destruct frames as [|frames]; [reflexivity|]); [lia|].
  cbn [Bounded.call]. apply (comparison_too_deep k IH); [lia | lia | exact Hp].
Qed.

(** The same from [parse] on: a text that starts with as many parentheses
    as there are frames is too deep. *)
Lemma parse_too_deep frames :
  parentheses_from tokens frames 0 -> Bounded.parse tokens frames = Raise RecursionError.
Proof.
  intros Hp. unfold Bounded.parse. destruct frames as [|frames]; [reflexivity|].
  destruct (Hp 0 ltac:(lia)) as (tok & Ht & Hk). simpl in Ht.
  assert (S frames <= length tokens) as Hlen.
  { destruct (Hp frames ltac:(lia)) as (t & Hl & _). apply lookup_lt_Some in Hl. simpl in Hl.
    lia. }
  assert (exists fuel, parse_fuel tokens = S (S fuel) /\ 7 * S frames + 1 <= fuel)
    as (fuel & -> & Hfuel).
  { unfold parse_fuel. exists (S (length tokens) * 16 - 2). lia. }
  cbn [Bounded.statements_until].
  destruct frames as [|frames]; [reflexivity|].
  unfold bind at 1. rewrite (current_frame _ _ _ Ht), Hk.
  cbn [TokenType.eqb TokenType.tag Nat.eqb negb]. cbv iota.
  unfold bind at 1. cbn [Bounded.statement Bounded.call].
  destruct frames as [|frames]; [reflexivity|].
  unfold bind at 1. rewrite (current_frame _ _ _ Ht), Hk.
  cbn [TokenType.eqb TokenType.tag Nat.eqb]. cbv iota.
  unfold bind at 1, ret at 1. cbv beta iota.
  unfold bind at 1.
  rewrite (expression_too_deep (S (S (S frames)))); [reflexivity | lia | lia | exact Hp].
Qed.
End TooDeep.

(** The tokens of [--5] after [n] opening parentheses: a doubled prefix
    minus, in a text too deep for [n] frames. *)
Lemma nested_doubled_minus_tokens n :
  Lexer.tokenize (nested n "--5") = Ok (nested_doubled_minus n).
Proof. now rewrite tokenize_nested. Qed.

Lemma nested_doubled_minus_lookup n j :
  (j < n)%nat -> nested_doubled_minus n !! j = Some (lparen_token 1).
Proof.
  intros H. unfold nested_doubled_minus.
  rewrite lookup_app_l by (rewrite length_replicate; lia).
  now apply lookup_replicate_2.
Qed.


Lemma nested_doubled_minus_too_deep n :
  Bounded.parse (nested_doubled_minus n) n = Raise RecursionError.
Proof.
  apply parse_too_deep. intros j Hj. exists (lparen_token 1).
  split; [now apply nested_doubled_minus_lookup | reflexivity].
Qed.


(** C2.  [2 + 3 * 4] is 14, [(2 + 3) * 4] is 20 and [2 ** 3 ** 2] is 512.
    The trees show why: [*] is below [+], and [**] is parsed as
    [2 ** (3 ** 2)], for any three numbers, because the power rule parses
    what follows a [**] by calling itself. *)
Theorem precedence_and_associativity host :
  evaluate host "2 + 3 * 4" new_interpreter = (Ok (VInt 14), new_interpreter)
  /\ evaluate host "(2 + 3) * 4" new_interpreter = (Ok (VInt 20), new_interpreter)
  /\ evaluate host "2 ** 3 ** 2" new_interpreter = (Ok (VInt 512), new_interpreter)
  /\ parse_text "2 + 3 * 4"
     = Ok (BlockNode
             [BinOpNode (NumberNode (VInt 2)) "+"
                (BinOpNode (NumberNode (VInt 3)) "*" (NumberNode (VInt 4)))])
  /\ parse_text "(2 + 3) * 4"
     = Ok (BlockNode
             [BinOpNode
                (BinOpNode (NumberNode (VInt 2)) "+" (NumberNode (VInt 3)))
                "*" (NumberNode (VInt 4))])
  /\ (forall a b c v2 v4 v6 l1 l2 l3 l4 l5 l6,
        Parser.parse
          [mkToken NUMBER (TNum a) l1; mkToken POW v2 l2; mkToken NUMBER (TNum b) l3;
           mkToken POW v4 l4; mkToken NUMBER (TNum c) l5; mkToken EOF v6 l6]
        = Ok (BlockNode
                [BinOpNode (NumberNode a) "**"
                   (BinOpNode (NumberNode b) "**" (NumberNode c))]))
  /\ (forall tokens fuel pos base p1 tok exp p2,
        Parser.unary tokens fuel pos = Ok (base, p1) ->
        tokens !! p1 = Some tok -> type tok = POW ->
        Parser.power tokens fuel (S p1) = Ok (exp, p2) ->
        Parser.power tokens (S fuel) pos = Ok (BinOpNode base "**" exp, p2)).
Proof.
  repeat split; try (vm_compute; reflexivity).
  apply power_recurses.
Qed.

(** A second [=] after [= name] is misplaced. *)
Lemma chained_is_misplaced tokens i :
  type_at tokens i = Some ASSIGN ->
  type_at tokens (S i) = Some IDENT ->
  type_at tokens (S (S i)) = Some ASSIGN ->
  misplaced_assign tokens (S (S i)).
Proof.
  intros H0 H1 H2. split; [exact H2|].
  intros (p & Hp & _ & [Hz|(p' & k & Hp' & Hk & Hb)]).
  - lia.
  - assert (p' = i) as -> by lia. rewrite H0 in Hk. injection Hk as <-. discriminate.
Qed.

(** C9.  A second [=] in a statement is rejected.  In any text, an [=]
    that follows [= name] makes [parse] fail with a SyntaxError of the
    parser, which [run] reports, leaving the interpreter as it was: the
    expression after the first [=] reads no [=] (no expression does), so
    the second one is left to start a statement, and no rule starts with
    it.  For any two names and whatever follows, the statement rule parses
    [x = y] (three tokens) and the next statement raises on the second [=];
    so it is with [a = b = 1]. *)
Theorem chained_assignment_rejected host :
  (forall source tokens i,
     Lexer.tokenize source = Ok tokens ->
     type_at tokens i = Some ASSIGN ->
     type_at tokens (S i) = Some IDENT ->
     type_at tokens (S (S i)) = Some ASSIGN ->
     exists e,
       Parser.parse tokens = Raise e /\ parser_error e
       /\ forall interpreter,
            run host source (Some interpreter) = Returned interpreter (Some e))
  /\ (forall tokens n fuel pos e p,
        lexed tokens n -> (pos <= n)%nat -> need n 7 pos fuel ->
        Parser.expression tokens fuel pos = Ok (e, p) ->
        (pos < p <= n)%nat
        /\ forall i, (pos <= i < p)%nat -> type_at tokens i <> Some ASSIGN)
  /\ (forall x y v2 v4 l1 l2 l3 l4 rest,
        let tokens := mkToken IDENT (TStr x) l1 :: mkToken ASSIGN v2 l2
                      :: mkToken IDENT (TStr y) l3 :: mkToken ASSIGN v4 l4 :: rest in
        Parser.statement tokens (Parser.parse_fuel tokens) 0%nat
        = Ok (AssignNode x (VarNode y), 3%nat)
        /\ Parser.statement tokens (Parser.parse_fuel tokens) 3%nat
           = Raise (SyntaxError (ParserUnexpected (mkToken ASSIGN v4 l4)))
        /\ Parser.parse tokens
           = Raise (SyntaxError (ParserUnexpected (mkToken ASSIGN v4 l4))))
  /\ parse_text "a = b = 1"
     = Raise (SyntaxError (ParserUnexpected (mkToken ASSIGN (TStr "=") 1)))
  /\ run host "a = b = 1" None
     = Returned new_interpreter
         (Some (SyntaxError (ParserUnexpected (mkToken ASSIGN (TStr "=") 1)))).
Proof.
  split; [|split; [|repeat split; vm_compute; reflexivity]].
  - intros source tokens i Ht H0 H1 H2.
    destruct (parse_rejects source tokens (S (S i)) Ht) as (e & Hp & He).
    { right. now apply chained_is_misplaced. }
    exists e. split; [exact Hp|]. split; [exact He|].
    intros interpreter. now apply (run_parser_error host source tokens).
  - intros tokens n fuel pos e p. apply expression_reads_no_assign.
Qed.

Lemma chained_assignment_rejected_witness :
  exists e,
    Parser.parse chained_tokens = Raise e /\ parser_error e
    /\ forall interpreter,
         run example_host "a = b = 1" (Some interpreter) = Returned interpreter (Some e).
Proof.
  apply (proj1 (chained_assignment_rejected example_host) "a = b = 1"%string
           chained_tokens 1%nat); reflexivity.
Defined.



(* ===================================================================== *)
(** * Further properties of the evaluator *)
(* ===================================================================== *)

Section Frame.
Variable host : HostMath.

Lemma changes_only_refl names log st : changes_only names log st st.
Proof. split; reflexivity. Qed.

Lemma changes_only_trans names log a b c :
  changes_only names log a b -> changes_only names log b c -> changes_only names log a c.
Proof.
  intros [Ha Ho] [Hb Hp]. split.
  - intros name Hn. now rewrite Hb, Ha.
  - intros Hl. now rewrite Hp, Ho.
Qed.

Lemma changes_only_mono names names' log log' st st' :
  (forall name, name ∈ names -> name ∈ names') ->
  (log = true -> log' = true) ->
  changes_only names log st st' -> changes_only names' log' st st'.
Proof.
  intros Hn Hl [He Ho]. split.
  - intros name Hnot. apply He. intros Hin. apply Hnot, Hn, Hin.
  - intros Hf. apply Ho. destruct log; [|reflexivity]. now rewrite Hl in Hf.
Qed.

Lemma changes_bind {A B : Type} names log (m : M A) (k : A -> M B) :
  (forall st, changes_only names log st (snd (m st))) ->
  (forall a st, changes_only names log st (snd (k a st))) ->
  forall st, changes_only names log st (snd (bind m k st)).
Proof.
  intros Hm Hk st. unfold bind. specialize (Hm st).
  destruct (m st) as [[a| | |] st1]; simpl in *; try assumption.
  eapply changes_only_trans; [exact Hm | apply Hk].
Qed.

Lemma changes_eval_each names log (ev : Node -> M value) stmts :
  Forall (fun stmt => forall st, changes_only names log st (snd (ev stmt st))) stmts ->
  forall v st, changes_only names log st (snd (eval_each ev stmts v st)).
Proof.
  induction 1 as [|stmt stmts Hs _ IH]; intros v; simpl.
  - intros st. apply changes_only_refl.
  - apply changes_bind; [exact Hs | exact IH].
Qed.

Lemma changes_while_loop names log (condition body : M value) :
  (forall st, changes_only names log st (snd (condition st))) ->
  (forall st, changes_only names log st (snd (body st))) ->
  forall fuel iterations st,
    changes_only names log st (snd (while_loop condition body fuel iterations st)).
Proof.
  intros Hc Hb. induction fuel as [|fuel IH]; intros iterations; simpl.
  - intros st. apply changes_only_refl.
  - apply changes_bind; [exact Hc|]. intros c.
    destruct (Num.truthy c); [|intros st; apply changes_only_refl].
    destruct (MAX_ITERATIONS <? iterations + 1); [intros st; apply changes_only_refl|].
    apply changes_bind; [exact Hb | intros _; apply IH].
Qed.

(** The statements of a body change what the body as a whole can change. *)
Lemma changes_body (stmts : list Node) names log :
  (forall name, name ∈ flat_map assigned stmts -> name ∈ names) ->
  (existsb prints stmts = true -> log = true) ->
  Forall (fun stmt => forall st,
            changes_only (assigned stmt) (prints stmt) st (snd (eval host stmt st))) stmts ->
  Forall (fun stmt => forall st, changes_only names log st (snd (eval host stmt st))) stmts.
Proof.
  intros Hn Hl H. induction H as [|stmt stmts Hs _ IH]; constructor.
  - intros st. eapply changes_only_mono; [| |apply Hs].
    + intros name Hin. apply Hn. simpl. apply elem_of_app. now left.
    + intros Hp. apply Hl. simpl. now rewrite Hp.
  - apply IH.
    + intros name Hin. apply Hn. simpl. apply elem_of_app. now right.
    + intros Hp. apply Hl. simpl. rewrite Hp. apply orb_true_r.
Qed.

Lemma eval_changes node :
  forall st, changes_only (assigned node) (prints node) st (snd (eval host node st)).
Proof.
  induction node as [v|name|l op r IHl IHr|op operand IH|name v IH|e IH
                     |c t e IHc IHt IHe|c b IHc IHb|stmts IHs] using Node_ind;
    cbn [eval assigned prints].
  - intros st. apply changes_only_refl.
  - intros st. unfold lookup_var. destruct (env st !! name); apply changes_only_refl.
  - apply changes_bind.
    + intros st. eapply changes_only_mono; [| |apply IHl].
      * intros name Hin. apply elem_of_app. now left.
      * intros ->. reflexivity.
    + intros a. apply changes_bind.
      * intros st. eapply changes_only_mono; [| |apply IHr].
        -- intros name Hin. apply elem_of_app. now right.
        -- intros ->. apply orb_true_r.
      * intros b st. apply changes_only_refl.
  - apply changes_bind; [exact IH|]. intros a st.
    destruct (String.eqb op "-"); apply changes_only_refl.
  - apply changes_bind.
    + intros st. eapply changes_only_mono; [| |apply IH]; [|auto].
      intros x Hin. apply elem_of_app. now left.
    + intros a. apply changes_bind; [|intros _ st; apply changes_only_refl].
      intros st. split; simpl; [|reflexivity].
      intros x Hx. apply lookup_insert_ne. intros ->. apply Hx.
      apply elem_of_app. right. apply list_elem_of_singleton. reflexivity.
  - apply changes_bind.
    + intros st. eapply changes_only_mono; [| |apply IH]; auto.
    + intros a. apply changes_bind; [intros st; apply changes_only_refl|].
      intros r. apply changes_bind; [|intros _ st; apply changes_only_refl].
      intros st. split; simpl; [reflexivity | discriminate].
  - apply changes_bind.
    + intros st. eapply changes_only_mono; [| |apply IHc].
      * intros x Hin. apply elem_of_app. now left.
      * intros ->. reflexivity.
    + intros a. destruct (Num.truthy a).
      * apply changes_bind; [|intros _ st; apply changes_only_refl].
        apply changes_eval_each. apply changes_body; [| |exact IHt].
        -- intros x Hin. apply elem_of_app. right. apply elem_of_app. now left.
        -- intros ->. rewrite orb_true_r. reflexivity.
      * destruct e as [[|s stmts]|]; try (intros st; apply changes_only_refl).
        apply changes_bind; [|intros _ st; apply changes_only_refl].
        apply changes_eval_each. apply changes_body; [| |exact IHe].
        -- intros x Hin. apply elem_of_app. right. apply elem_of_app. now right.
        -- intros ->. apply orb_true_r.
  - apply changes_while_loop.
    + intros st. eapply changes_only_mono; [| |apply IHc].
      * intros x Hin. apply elem_of_app. now left.
      * intros ->. reflexivity.
    + apply changes_eval_each. apply changes_body; [| |exact IHb].
      * intros x Hin. apply elem_of_app. now right.
      * intros ->. apply orb_true_r.
  - apply changes_eval_each. apply changes_body; [| |exact IHs]; auto.
Qed.
End Frame.

Section Invariants.
Variable host : HostMath.

(** A property of the state that the condition and the statements of a
    body keep is kept by the loop. *)
Lemma invariant_eval_each (I : Interp -> Prop) stmts :
  Forall (fun stmt => forall st, I st -> I (snd (eval host stmt st))) stmts ->
  forall v st, I st -> I (snd (eval_each (eval host) stmts v st)).
Proof.
  induction 1 as [|stmt stmts Hs _ IH]; intros v st Hst; simpl; [exact Hst|].
  unfold bind. specialize (Hs st Hst).
  destruct (eval host stmt st) as [[w| | |] st1]; simpl in *; try exact Hs.
  now apply IH.
Qed.

Lemma invariant_while_loop (I : Interp -> Prop) (condition body : M value) :
  (forall st, I st -> I (snd (condition st))) ->
  (forall st, I st -> I (snd (body st))) ->
  forall fuel iterations st, I st -> I (snd (while_loop condition body fuel iterations st)).
Proof.
  intros Hc Hb. induction fuel as [|fuel IH]; intros iterations st Hst; simpl;
    [exact Hst|].
  unfold bind. specialize (Hc st Hst).
  destruct (condition st) as [[c| | |] st1]; simpl in *; try exact Hc.
  destruct (Num.truthy c); [|exact Hc].
  destruct (MAX_ITERATIONS <? iterations + 1); [exact Hc|].
  specialize (Hb st1 Hc).
  destruct (body st1) as [[w| | |] st2]; simpl in *; try exact Hb.
  now apply IH.
Qed.
End Invariants.

(** X1.  Evaluation of a tree always ends, whatever the tree (parsed or
    built by hand) and whatever the state: it returns a value or raises an
    exception, a [while] never runs on past its bound.  The state it leaves
    has the whole output log of the start as a prefix of its own and every
    variable of the start, whether a value or an exception came out. *)
Theorem eval_always_answers host node st :
  answers (fst (eval host node st)) /\ extends st (snd (eval host node st)).
Proof.
  split.
  - apply eval_defined.
  - apply eval_extends.
Qed.

(** X2.  [run] always comes back: it returns the interpreter, with no report
    or with the report of an exception of the four classes it catches, or
    an exception outside those classes leaves it.  Either way the
    interpreter keeps the output log and the variables it had. *)
Theorem run_always_returns host source interpreter :
  exists st',
    extends (match interpreter with None => new_interpreter | Some i => i end) st'
    /\ ((exists reported,
           run host source interpreter = Returned st' reported
           /\ match reported with Some e => caught_by_run e = true | None => True end)
        \/ (exists e,
              run host source interpreter = Uncaught e st'
              /\ caught_by_run e = false)).
Proof.
  unfold run. set (st := match interpreter with None => new_interpreter | Some i => i end).
  assert (forall e st', extends st st' ->
            exists st'', extends st st''
              /\ ((exists reported, handle e st' = Returned st'' reported
                     /\ match reported with
                        | Some e => caught_by_run e = true | None => True end)
                  \/ (exists e', handle e st' = Uncaught e' st''
                        /\ caught_by_run e' = false))) as Hhandle.
  { intros e st' Hext. exists st'. split; [exact Hext|]. unfold handle.
    destruct (caught_by_run e) eqn:Hc.
    - left. exists (Some e). now split.
    - right. exists e. now split. }
  destruct (Lexer.tokenize source) as [tokens|e| |] eqn:Ht.
  - destruct (parse_tokenized source tokens Ht) as [[ast Hp]|[e [Hp _]]]; rewrite Hp.
    + pose proof (eval_defined host ast st) as Hd.
      pose proof (eval_extends host ast st) as He.
      destruct (eval host ast st) as [[v|e| |] st']; simpl in *; try contradiction.
      * exists st'. split; [exact He|]. left. exists None. now split.
      * now apply Hhandle.
    + apply Hhandle, extends_refl.
  - apply Hhandle, extends_refl.
  - destruct (tokenize_total source) as [[ts H]|[[c [ln H]]|H]]; congruence.
  - destruct (tokenize_total source) as [[ts H]|[[c [ln H]]|H]]; congruence.
Qed.

(** A failure of [tokenize], or of [parse] on the tokens of a text, with
    any number of frames for the parser: a SyntaxError, the RecursionError of
    the parser or the ValueError of the lexer. *)
Lemma parse_text_raises frames source e :
  parse_text_within frames source = Raise e ->
  (exists msg, e = SyntaxError msg /\ parse_text source = Raise e)
  \/ e = RecursionError
  \/ (e = ValueError /\ Lexer.tokenize source = Raise ValueError).
Proof.
  unfold parse_text_within, parse_text. intros H.
  destruct (Lexer.tokenize source) as [tokens|e'| |] eqn:Ht; try discriminate.
  - destruct (parse_refines tokens frames) as [Hr|Hr]; rewrite Hr in H.
    + destruct (parse_tokenized source tokens Ht) as [[ast Hp]|[e' [Hp He]]];
        rewrite Hp in H; [discriminate|]. injection H as <-. left.
      destruct e' as [msg| | | | | | | | |]; try contradiction. now exists msg.
    + injection H as <-. right. now left.
  - injection H as <-.
    destruct (tokenize_total source) as [[ts H]|[[c [ln H]]|H]]; rewrite H in Ht.
    + discriminate.
    + injection Ht as <-. left. eexists. split; reflexivity.
    + injection Ht as <-. right. right. now split.
Qed.

(** X3.  A text with a lexical or a syntax error anywhere runs nothing.
    When [tokenize] fails, or [parse] with the frames that are left for it,
    the exception is a SyntaxError, the RecursionError of a text nested too
    deep for those frames, or the ValueError of an int literal of more than
    4300 digits.  [run] reports the SyntaxError and returns the interpreter
    exactly as it was given, even if the statements before the error are
    well formed; its [except] clause catches the RecursionError as it
    catches every RuntimeError; the ValueError leaves [run], and the
    interpreter is as it was. *)
Theorem syntax_error_runs_nothing host frames source st e :
  parse_text_within frames source = Raise e ->
  ((exists msg, e = SyntaxError msg) \/ e = RecursionError \/ e = ValueError)
  /\ (forall msg, e = SyntaxError msg -> run host source (Some st) = Returned st (Some e))
  /\ (e = RecursionError -> handle e st = Returned st (Some e))
  /\ (e = ValueError -> run host source (Some st) = Uncaught e st).
Proof.
  intros H. destruct (parse_text_raises frames source e H) as [(msg & -> & Hp)|[->|[-> Ht]]].
  - split; [left; now exists msg|]. split; [|split; discriminate].
    intros _ _. unfold parse_text in Hp. unfold run.
    destruct (Lexer.tokenize source) as [tokens|e'| |]; try discriminate.
    + now rewrite Hp.
    + now injection Hp as ->.
  - split; [right; now left|]. split; [discriminate|]. split; [reflexivity | discriminate].
  - split; [right; now right|]. split; [discriminate|]. split; [discriminate|].
    intros _. unfold run. now rewrite Ht.
Qed.

Lemma syntax_error_runs_nothing_witness :
  run example_host "x = 1; print(x); y = 2 $ 3" (Some new_interpreter)
  = Returned new_interpreter (Some (SyntaxError (LexerUnknownChar "$" 1))).
Proof.
  apply (proj1 (proj2 (syntax_error_runs_nothing example_host 1000%nat
                        "x = 1; print(x); y = 2 $ 3" new_interpreter
                        (SyntaxError (LexerUnknownChar "$" 1)) eq_refl))
           (LexerUnknownChar "$" 1) eq_refl).
Defined.

(** X4.  Evaluation changes only what the tree names: a variable that the
    tree never assigns has the value (or the absence) it had, a tree with no
    PrintNode leaves the output log as it was, and a tree with neither (an
    expression of numbers, variables and operators, for one) leaves the
    interpreter untouched.  This holds for failed evaluations too. *)
Theorem eval_frame host node st :
  (forall name, name ∉ assigned node ->
     env (snd (eval host node st)) !! name = env st !! name)
  /\ (prints node = false -> output (snd (eval host node st)) = output st)
  /\ (assigned node = [] -> prints node = false -> snd (eval host node st) = st).
Proof.
  destruct (eval_changes host node st) as [He Ho].
  split; [exact He|]. split; [exact Ho|].
  intros Ha Hp. specialize (Ho Hp). rewrite Ha in He.
  destruct (snd (eval host node st)) as [env' out'], st as [env0 out0]; simpl in *.
  f_equal; [|exact Ho].
  apply map_eq. intros name. apply He. apply not_elem_of_nil.
Qed.

(** X5.  An assignment binds the value of its expression: when the
    expression evaluates to [v], the assignment returns [v], a read of the
    variable right after gives [v] and changes nothing, the other
    variables and the output log are those the expression left.  When the
    expression fails, the assignment fails the same way and binds nothing.
    A variable that was never bound reads as a NameError that carries its
    name. *)
Theorem assignment_binds host name e st :
  match eval host e st with
  | (Ok v, st1) =>
      exists st',
        eval host (AssignNode name e) st = (Ok v, st')
        /\ eval host (VarNode name) st' = (Ok v, st')
        /\ output st' = output st1
        /\ (forall other, other <> name -> env st' !! other = env st1 !! other)
  | (r, st1) => eval host (AssignNode name e) st = (r, st1)
  end
  /\ (env st !! name = None <->
      eval host (VarNode name) st = (Raise (NameError name), st)).
Proof.
  split.
  - cbn [eval]. unfold bind. destruct (eval host e st) as [[v|ex| |] st1]; try reflexivity.
    eexists. split; [reflexivity|]. unfold lookup_var. simpl.
    rewrite lookup_insert_eq. split; [reflexivity|]. split; [reflexivity|].
    intros other Hne. now apply lookup_insert_ne.
  - cbn [eval]. unfold lookup_var. destruct (env st !! name) as [v|].
    + split; discriminate.
    + split; reflexivity.
Qed.


(* ===================================================================== *)
(** * Further properties of the operators *)
(* ===================================================================== *)

Section OperatorsMore.
Variable host : HostMath.

Lemma ordering_answer holds a b :
  (exists t, Num.ordering holds a b = Return t)
  \/ (Num.ordering holds a b = Throw TypeError /\ is_real a && is_real b = false).
Proof.
  unfold Num.ordering, pybind. destruct a, b; simpl; eauto.
Qed.

Lemma ordering_result holds a b :
  let r := pybind (Num.ordering holds a b) (fun t => Return (Num.int_of_bool t)) in
  r = Return (VInt 0) \/ r = Return (VInt 1)
  \/ (r = Throw TypeError /\ is_real a && is_real b = false).
Proof.
  simpl. destruct (ordering_answer holds a b) as [[t ->]|[-> H]]; simpl.
  - destruct t; auto.
  - auto.
Qed.

Lemma float_opp_involutive (f : float) : (- - f)%float = f.
Proof.
  apply FloatAxioms.Prim2SF_inj. rewrite !FloatAxioms.opp_spec.
  destruct (Prim2SF f) as [s|s| |s m e]; simpl; try reflexivity;
    now rewrite negb_involutive.
Qed.

Lemma py_neg_involutive v :
  pybind (Num.py_neg v) Num.py_neg
  = match v with VNone => Throw TypeError | _ => Return v end.
Proof.
  destruct v as [|z|f|re im]; simpl; try reflexivity.
  - now rewrite Z.opp_involutive.
  - now rewrite float_opp_involutive.
  - now rewrite !float_opp_involutive.
Qed.
End OperatorsMore.

(** X11.  A comparison gives the int 1 or the int 0, never a bool, so its
    result can go on into arithmetic.  [==] and [!=] answer on every pair of
    values, with opposite results; the four orderings answer on every pair
    of ints and floats, and raise TypeError when an operand is [None] or
    complex.  On two ints each of the six is the comparison of the
    integers. *)
Theorem comparison_results host :
  (forall a b,
     Forall (fun op =>
               apply_op host op a b = Return (VInt 0)
               \/ apply_op host op a b = Return (VInt 1)
               \/ (apply_op host op a b = Throw TypeError
                   /\ is_real a && is_real b = false))
       comparison_operators)
  /\ (forall a b, exists t,
        apply_op host "==" a b = Return (Num.int_of_bool t)
        /\ apply_op host "!=" a b = Return (Num.int_of_bool (negb t)))
  /\ (forall x y,
        apply_op host "==" (VInt x) (VInt y) = Return (Num.int_of_bool (x =? y))
        /\ apply_op host "!=" (VInt x) (VInt y) = Return (Num.int_of_bool (negb (x =? y)))
        /\ apply_op host "<" (VInt x) (VInt y) = Return (Num.int_of_bool (x <? y))
        /\ apply_op host ">" (VInt x) (VInt y) = Return (Num.int_of_bool (x >? y))
        /\ apply_op host "<=" (VInt x) (VInt y) = Return (Num.int_of_bool (x <=? y))
        /\ apply_op host ">=" (VInt x) (VInt y) = Return (Num.int_of_bool (x >=? y))).
Proof.
  split; [|split].
  - intros a b. unfold comparison_operators.
    repeat first [apply List.Forall_nil | apply List.Forall_cons];
      unfold apply_op; cbn [String.eqb Ascii.eqb Bool.eqb];
      try apply ordering_result.
    + destruct (Num.py_eq a b); auto.
    + destruct (Num.py_ne a b); auto.
  - intros a b. exists (Num.py_eq a b). split; reflexivity.
  - intros x y. unfold apply_op, Num.py_ne, Num.py_eq, Num.py_lt, Num.py_gt, Num.py_le,
      Num.py_ge, Num.ordering. simpl.
    rewrite Z.eqb_compare, Z.gtb_ltb, Z.geb_leb. unfold Z.ltb, Z.leb.
    rewrite (Z.compare_antisym x y).
    destruct (x ?= y); simpl; repeat split; reflexivity.
Qed.

(** X12.  Negating twice gives the value back: when an expression
    evaluates to an int, a float or a complex number, the tree of
    [-(-(e))] evaluates to that same value and leaves the same state; on
    [None] it raises TypeError. *)
Theorem double_negation host e st v st' :
  eval host e st = (Ok v, st') ->
  eval host (UnaryNode "-" (UnaryNode "-" e)) st
  = (match v with VNone => Raise TypeError | _ => Ok v end, st').
Proof.
  intros H. cbn [eval]. unfold bind. rewrite H. simpl.
  pose proof (py_neg_involutive v) as Hn. unfold builtin.
  destruct v as [|z|f|re im]; simpl in *; try reflexivity.
  - injection Hn as ->. reflexivity.
  - injection Hn as ->. reflexivity.
  - injection Hn as -> ->. reflexivity.
Qed.

Lemma double_negation_witness :
  eval example_host (UnaryNode "-" (UnaryNode "-" (NumberNode (VFloat 2.5)))) new_interpreter
  = (Ok (VFloat 2.5), new_interpreter).
Proof.
  apply (double_negation example_host (NumberNode (VFloat 2.5)) new_interpreter
           (VFloat 2.5) new_interpreter).
  reflexivity.
Defined.
(* ===================================================================== *)
(** * Further properties of the lexer *)
(* ===================================================================== *)

Section LexerMore.
Import Lexer.

(** ** The lines of the loop *)

Lemma make_token_shift ttype val ln k :
  make_token ttype val (ln + k)
  = pybind (make_token ttype val ln) (fun tok => Return (shift_line k tok)).
Proof.
  destruct ttype; unfold make_token; try reflexivity.
  - destruct (contains "." val); [reflexivity|].
    destruct (python_int val); reflexivity.
  - destruct (existsb (String.eqb val) KEYWORDS); reflexivity.
Qed.

Lemma shift_prepend k front r :
  shift_lines k (prepend front r) = prepend (map (shift_line k) front) (shift_lines k r).
Proof.
  destruct r as [ts|e| |]; simpl; try reflexivity.
  - now rewrite map_app.
  - destruct e as [[c ln| |]| | | | | | | | |]; reflexivity.
Qed.

(** The line the loop starts on is only added to the lines of its result. *)
Lemma tokenize_loop_shift fuel : forall rest ln k,
  tokenize_loop fuel rest (ln + k) [] = shift_lines k (tokenize_loop fuel rest ln []).
Proof.
  induction fuel as [|fuel IH]; intros rest ln k; [reflexivity|].
  cbn [tokenize_loop]. destruct rest as [|c rest']; [reflexivity|].
  destruct (isspace c).
  { destruct (Ascii.eqb c newline); [|apply IH].
    replace (ln + k + 1) with (ln + 1 + k) by lia. apply IH. }
  destruct (String.prefix "//" (String c rest')); [apply IH|].
  destruct (first_match TOKEN_PATTERNS (String c rest')) as [[ttype val]|]; [|reflexivity].
  rewrite make_token_shift.
  destruct (make_token ttype val ln) as [tok|e] eqn:Emk; simpl.
  - rewrite tokenize_loop_acc, (tokenize_loop_acc _ _ ln), shift_prepend, IH. reflexivity.
  - now rewrite (make_token_throw _ _ _ _ Emk).
Qed.
End LexerMore.

Section LexerErrors.
Import Lexer.

(** ** The character of the error *)

Lemma ident_start_matches c s :
  is_ident_start c = true ->
  first_match TOKEN_PATTERNS (String c s) = Some (IDENT, String c (take_while is_word s)).
Proof.
  intros Hi. unfold TOKEN_PATTERNS. cbn [first_match re_match take_while].
  assert (is_digit c = false) as ->.
  { destruct (is_digit c) eqn:Hd; [|reflexivity].
    now rewrite (is_digit_not_ident_start c Hd) in Hi. }
  now rewrite Hi.
Qed.

(** Where no rule matches, the first character is none a token starts
    with. *)
Lemma no_match_not_lexable c rest :
  isspace c = false ->
  first_match TOKEN_PATTERNS (String c rest) = None -> lexable c = false.
Proof.
  intros Hsp Hm. unfold lexable. rewrite Hsp. simpl.
  destruct (is_digit c) eqn:Hd.
  { destruct (digit_starts_number c rest Hd) as [val Hv]. congruence. }
  destruct (is_ident_start c) eqn:Hi.
  { rewrite (ident_start_matches c rest Hi) in Hm. discriminate. }
  simpl. clear Hsp Hd Hi. revert Hm.
  destruct c as [[] [] [] [] [] [] [] []]; try reflexivity;
    destruct rest as [|c2 rest]; try (vm_compute; congruence);
    destruct c2 as [[] [] [] [] [] [] [] []]; try (vm_compute; congruence);
    destruct rest; vm_compute; congruence.
Qed.

Lemma contains_app c s t : contains c (s ++ t) = contains c s || contains c t.
Proof.
  induction s as [|c' s IH]; [reflexivity|].
  rewrite append_cons. simpl. now rewrite IH, orb_assoc.
Qed.

(** A run of digits found further on in a text is found in the text. *)
Lemma has_long_number_app s t :
  has_long_number t = true -> has_long_number (s ++ t) = true.
Proof.
  intros H. induction s as [|c s IH]; [exact H|].
  rewrite append_cons. cbn [has_long_number]. rewrite <- append_cons, IH.
  apply orb_true_r.
Qed.

Lemma has_long_number_cons c s : has_long_number s = true -> has_long_number (String c s) = true.
Proof. intros H. cbn [has_long_number]. rewrite H. apply orb_true_r. Qed.

Lemma first_match_number s val :
  first_match TOKEN_PATTERNS s = Some (NUMBER, val) -> re_match PatNumber s = Some val.
Proof.
  unfold TOKEN_PATTERNS. cbn [first_match].
  destruct (re_match PatNumber s) as [v|]; [now intros [= <-]|].
  intros H.
  repeat match type of H with
         | match ?m with Some _ => _ | None => _ end = _ =>
             destruct m; [discriminate H|]
         end.
  discriminate H.
Qed.

(** A match of the number rule with no point in it is the run of digits
    the text starts with. *)
Lemma number_without_point_run s val :
  re_match PatNumber s = Some val -> contains "." val = false ->
  val = take_while is_digit s.
Proof.
  cbn [re_match]. intros H Hc.
  destruct (take_while is_digit s) as [|d ds]; [discriminate|].
  destruct (drop_while is_digit s) as [|c after]; [now injection H as <-|].
  destruct (Ascii.eqb c ".") eqn:Ec.
  - apply Ascii.eqb_eq in Ec. subst c.
    destruct (take_while is_digit after) as [|f fs]; [now injection H as <-|].
    injection H as <-. rewrite contains_app in Hc. simpl in Hc.
    rewrite orb_true_r in Hc. discriminate.
  - assert (Some (String d ds) = Some val) as Hv.
    { revert H. destruct c as [[] [] [] [] [] [] [] []]; try discriminate Ec; auto. }
    now injection Hv as <-.
Qed.

(** Where [make_token] raises, the text starts with too many digits. *)
Lemma make_token_raises rest k val ln e :
  first_match TOKEN_PATTERNS rest = Some (k, val) -> make_token k val ln = Throw e ->
  e = ValueError
  /\ (MAX_STR_DIGITS <? Z.of_nat (String.length (take_while is_digit rest))) = true.
Proof.
  intros Hm Hk. split; [exact (make_token_throw _ _ _ _ Hk)|].
  destruct k; try discriminate Hk. unfold make_token, python_int in Hk.
  destruct (contains "." val) eqn:Ec; [discriminate|].
  rewrite <- (number_without_point_run rest val (first_match_number _ _ Hm) Ec).
  destruct (MAX_STR_DIGITS <? Z.of_nat (String.length val)); [reflexivity | discriminate].
Qed.

(** The errors of the loop: the unknown character, which stands in the
    text where no rule matches, on the line the error names; or the
    ValueError, in a text with too many digits in a row. *)
Lemma tokenize_loop_error fuel : forall rest ln tokens e,
  tokenize_loop fuel rest ln tokens = Raise e ->
  (exists pre c post,
     rest = (pre ++ String c post)%string
     /\ e = SyntaxError (LexerUnknownChar c (ln + count_newlines pre))
     /\ lexable c = false
     /\ first_match TOKEN_PATTERNS (String c post) = None)
  \/ (e = ValueError /\ has_long_number rest = true).
Proof.
  induction fuel as [|fuel IH]; intros rest ln tokens e H;
    cbn [tokenize_loop] in H; [discriminate|].
  destruct rest as [|c rest']; [discriminate|].
  destruct (isspace c) eqn:Esp.
  { apply IH in H. destruct H as [(pre & c' & post & -> & -> & Hc)|[-> Hl]].
    - left. exists (String c pre), c', post. split; [reflexivity|]. split; [|exact Hc].
      cbn [count_newlines]. destruct (Ascii.eqb c newline); do 2 f_equal; lia.
    - right. split; [reflexivity | now apply has_long_number_cons]. }
  destruct (String.prefix "//" (String c rest')) eqn:Ecom.
  { pose proof (take_drop_while (fun c => negb (Ascii.eqb c newline)) (String c rest')) as Hs.
    apply IH in H. destruct H as [(pre & c' & post & Hrest & -> & Hc)|[-> Hl]].
    - pose proof (take_while_no_newline (fun c => negb (Ascii.eqb c newline))
                    (String c rest')) as Hn.
      rewrite Hrest in Hs. left.
      exists (take_while (fun c => negb (Ascii.eqb c newline)) (String c rest') ++ pre)%string,
        c', post.
      split; [now rewrite append_assoc|]. split; [|exact Hc].
      rewrite count_newlines_app, Hn; [reflexivity|].
      intros x Hx. now apply negb_true_iff in Hx.
    - right. split; [reflexivity|]. rewrite <- Hs. now apply has_long_number_app. }
  destruct (first_match TOKEN_PATTERNS (String c rest')) as [[ttype val]|] eqn:Em.
  - destruct (first_match_ok _ _ _ _ TOKEN_PATTERNS_ok Em) as (_ & [s' Hs'] & Hn & _).
    destruct (make_token ttype val ln) as [tok|e'] eqn:Emk.
    + apply IH in H. rewrite Hs', drop_app_length in H.
      destruct H as [(pre & c' & post & Hrest & -> & Hc)|[-> Hl]].
      * subst s'. left. exists (val ++ pre)%string, c', post.
        split; [now rewrite Hs', append_assoc|]. split; [|exact Hc].
        rewrite count_newlines_app, Hn. reflexivity.
      * right. split; [reflexivity|]. rewrite Hs'. now apply has_long_number_app.
    + injection H as <-. right.
      destruct (make_token_raises _ _ _ _ _ Em Emk) as [-> Hl].
      split; [reflexivity|]. cbn [has_long_number]. now rewrite Hl.
  - injection H as <-. left. exists EmptyString, c, rest'.
    split; [reflexivity|]. split; [simpl; now rewrite Z.add_0_r|].
    split; [now apply (no_match_not_lexable c rest') | exact Em].
Qed.

Lemma all_chars_app p s t : all_chars p (s ++ t) = all_chars p s && all_chars p t.
Proof.
  induction s as [|c s IH]; [reflexivity|].
  rewrite append_cons. simpl. rewrite IH. now rewrite andb_assoc.
Qed.
End LexerErrors.

(** X6.  The errors of [tokenize].  One is the SyntaxError of the unknown
    character, and it tells where: the character it names stands in the
    text, at a place where it is no white space and no rule of
    [TOKEN_PATTERNS] matches (it is none of the characters a text is
    written with, or it is a [!] that no [=] follows), and the line it
    names is one more than the number of newlines before that character.
    The other is the ValueError of [int], in a text with more than 4300
    digits in a row; no other exception leaves [tokenize].  A text written
    only with white space, digits, letters, [_] and the operator characters
    [= < > + - * / % ( ) { } ;], with no more than 4300 digits in a row, is
    always tokenized. *)
Theorem tokenize_unknown_character source :
  (forall e, Lexer.tokenize source = Raise e ->
     (exists pre c post,
        source = (pre ++ String c post)%string
        /\ e = SyntaxError (LexerUnknownChar c (1 + count_newlines pre))
        /\ lexable c = false
        /\ Lexer.first_match Lexer.TOKEN_PATTERNS (String c post) = None)
     \/ (e = ValueError /\ has_long_number source = true))
  /\ (all_chars lexable source = true -> has_long_number source = false ->
      exists tokens, Lexer.tokenize source = Ok tokens)
  /\ (forall post, Lexer.tokenize (String "!" post) = Raise (SyntaxError (LexerUnknownChar "!" 1))
                   \/ exists rest, post = String "=" rest).
Proof.
  split; [|split].
  - intros e H. exact (tokenize_loop_error _ _ _ _ _ H).
  - intros Hall Hshort.
    destruct (tokenize_total source) as [Hok|[[c [ln H]]|H]]; [exact Hok| |].
    + destruct (tokenize_loop_error _ _ _ _ _ H)
        as [(pre & c' & post & Hs & _ & Hc & _)|[He _]]; [|discriminate].
      rewrite Hs, all_chars_app in Hall. simpl in Hall. rewrite Hc in Hall.
      simpl in Hall. rewrite andb_false_r in Hall. discriminate.
    + destruct (tokenize_loop_error _ _ _ _ _ H)
        as [(pre & c' & post & _ & He & _)|[_ Hl]]; [discriminate | congruence].
  - intros [|c rest]; [now left|].
    destruct (Ascii.eqb c "=") eqn:Ec.
    + apply Ascii.eqb_eq in Ec. subst c. right. now exists rest.
    + left. revert Ec. destruct c as [[] [] [] [] [] [] [] []]; try discriminate;
        intros _; destruct rest; reflexivity.
Qed.

Section LexerTexts.
Import Lexer.

(** ** White space and comments *)

Lemma tokenize_loop_blank fuel : forall s ln tokens,
  (String.length s < fuel)%nat -> all_chars isspace s = true ->
  tokenize_loop fuel s ln tokens = Ok (tokens ++ [eof_token (ln + count_newlines s)]).
Proof.
  induction fuel as [|fuel IH]; intros s ln tokens Hlen Hall; [lia|].
  cbn [tokenize_loop]. destruct s as [|c s].
  - simpl. now rewrite Z.add_0_r.
  - simpl in Hlen, Hall. apply andb_true_iff in Hall. destruct Hall as [Hc Hs].
    rewrite Hc, IH by (lia || exact Hs). cbn [count_newlines].
    destruct (Ascii.eqb c newline).
    + now replace (ln + 1 + count_newlines s) with (ln + (1 + count_newlines s)) by lia.
    + reflexivity.
Qed.

Lemma drop_while_comment text rest :
  all_chars not_newline text = true ->
  drop_while (fun c => negb (Ascii.eqb c newline)) (text ++ String newline rest)
  = String newline rest.
Proof.
  induction text as [|c text IH]; intros H; [reflexivity|].
  rewrite append_cons. simpl in H. apply andb_true_iff in H. destruct H as [Hc Ht].
  cbn [drop_while]. unfold not_newline in Hc. rewrite Hc. now apply IH.
Qed.

Lemma drop_while_comment_end text :
  all_chars not_newline text = true ->
  drop_while (fun c => negb (Ascii.eqb c newline)) text = EmptyString.
Proof.
  induction text as [|c text IH]; intros H; [reflexivity|].
  simpl in H. apply andb_true_iff in H. destruct H as [Hc Ht].
  cbn [drop_while]. unfold not_newline in Hc. rewrite Hc. now apply IH.
Qed.

Lemma comment_prefix s : String.prefix "//" (String "/" (String "/" s)) = true.
Proof. destruct s; reflexivity. Qed.

(** ** Identifiers *)

Lemma take_while_word word rest :
  all_chars is_word word = true -> ends_word rest = true ->
  take_while is_word (word ++ rest) = word.
Proof.
  intros Hw Hr. induction word as [|c word IH].
  - destruct rest as [|c rest]; [reflexivity|]. simpl in Hr.
    change (EmptyString ++ String c rest)%string with (String c rest).
    cbn [take_while]. apply negb_true_iff in Hr. now rewrite Hr.
  - simpl in Hw. apply andb_true_iff in Hw. destruct Hw as [Hc Hw].
    rewrite append_cons. cbn [take_while]. rewrite Hc, IH by exact Hw. reflexivity.
Qed.

Lemma ident_start_not_space c : is_ident_start c = true -> isspace c = false.
Proof. by_cases_on_char c. Qed.

Lemma ident_start_not_comment c s :
  is_ident_start c = true -> String.prefix "//" (String c s) = false.
Proof. by_cases_on_char c. Qed.
End LexerTexts.

(** X7.  A text of white space only, the empty text included, has no token
    but EOF, on the line after its last newline; [run] on it evaluates the
    empty program: it returns the interpreter as it was and reports
    nothing. *)
Theorem blank_source source :
  all_chars Lexer.isspace source = true ->
  Lexer.tokenize source = Ok [eof_token (1 + count_newlines source)]
  /\ forall host st, run host source (Some st) = Returned st None.
Proof.
  intros H.
  assert (Lexer.tokenize source = Ok [eof_token (1 + count_newlines source)]) as Ht.
  { unfold Lexer.tokenize. rewrite tokenize_loop_blank by (lia || exact H). reflexivity. }
  split; [exact Ht|]. intros host st. unfold run. rewrite Ht. reflexivity.
Qed.

Lemma blank_source_witness :
  Lexer.tokenize (String " " (String Lexer.newline (String " " EmptyString)))
  = Ok [eof_token 2]
  /\ forall host st,
       run host (String " " (String Lexer.newline (String " " EmptyString))) (Some st)
       = Returned st None.
Proof.
  apply (blank_source (String " " (String Lexer.newline (String " " EmptyString)))).
  reflexivity.
Defined.

(** X8.  A comment runs from [//] to the end of its line and leaves no
    trace: the tokens of a text that starts with a comment are those of
    the text from the newline that ends the comment, with the same lines,
    and a text that is one comment has no token but EOF. *)
Theorem comment_ignored text rest :
  all_chars not_newline text = true ->
  Lexer.tokenize ("//" ++ text ++ String Lexer.newline rest)
  = Lexer.tokenize (String Lexer.newline rest)
  /\ Lexer.tokenize ("//" ++ text) = Ok [eof_token 1].
Proof.
  intros H. split.
  - change ("//" ++ text ++ String Lexer.newline rest)%string
      with (String "/" (String "/" (text ++ String Lexer.newline rest))).
    unfold Lexer.tokenize at 1. cbn [Lexer.tokenize_loop].
    change (Lexer.isspace "/") with false.
    rewrite comment_prefix.
    cbn match. cbn [Lexer.drop_while].
    change (negb (Ascii.eqb "/" Lexer.newline)) with true. cbn match.
    rewrite drop_while_comment by exact H.
    apply tokenize_from. simpl. rewrite length_append. simpl. lia.
  - change ("//" ++ text)%string with (String "/" (String "/" text)).
    unfold Lexer.tokenize. cbn [Lexer.tokenize_loop].
    change (Lexer.isspace "/") with false.
    rewrite comment_prefix.
    cbn match. cbn [Lexer.drop_while].
    change (negb (Ascii.eqb "/" Lexer.newline)) with true. cbn match.
    rewrite drop_while_comment_end by exact H.
    now destruct (String.length text).
Qed.

Lemma comment_ignored_witness :
  Lexer.tokenize ("//" ++ " x = $" ++ String Lexer.newline "y")
  = Lexer.tokenize (String Lexer.newline "y")
  /\ Lexer.tokenize ("//" ++ " x = $") = Ok [eof_token 1].
Proof.
  apply (comment_ignored " x = $" "y"). reflexivity.
Defined.

(** X9.  An identifier is read as far as it goes: a letter or [_] followed
    by word characters, up to the end of the text or to a character that
    is none, gives one token, and the lexer goes on with what follows.  The
    token is the keyword's when the whole word is [print], [if], [else] or
    [while], and an IDENT otherwise, also when the word only starts with a
    keyword. *)
Theorem identifier_is_one_token c word rest :
  Lexer.is_ident_start c = true ->
  all_chars Lexer.is_word word = true ->
  ends_word rest = true ->
  Lexer.tokenize (String c word ++ rest)
  = prepend
      [mkToken (if existsb (String.eqb (String c word)) Lexer.KEYWORDS
                then Lexer.keyword_type (String c word) else IDENT)
         (TStr (String c word)) 1]
      (Lexer.tokenize rest).
Proof.
  intros Hc Hw Hr. rewrite append_cons.
  unfold Lexer.tokenize at 1. cbn [Lexer.tokenize_loop].
  rewrite (ident_start_not_space c Hc), (ident_start_not_comment c _ Hc).
  rewrite (ident_start_matches c _ Hc), (take_while_word word rest Hw Hr).
  rewrite <- append_cons, drop_app_length. cbn [Lexer.make_token]. cbv iota.
  rewrite tokenize_loop_acc, tokenize_from.
  - destruct (existsb (String.eqb (String c word)) Lexer.KEYWORDS); reflexivity.
  - rewrite append_cons. simpl. rewrite length_append. lia.
Qed.

Lemma identifier_is_one_token_witness :
  Lexer.tokenize ("iffy" ++ "=1")
  = prepend [mkToken IDENT (TStr "iffy") 1] (Lexer.tokenize "=1").
Proof.
  apply (identifier_is_one_token "i" "ffy" "=1"); reflexivity.
Defined.

Section LexerLines.
Import Lexer.

(** ** What a newline stops *)

Lemma take_while_stop p a b :
  p newline = false -> take_while p (a ++ String newline b) = take_while p a.
Proof.
  intros Hp. induction a as [|c a IH].
  - change (EmptyString ++ String newline b)%string with (String newline b).
    cbn [take_while]. now rewrite Hp.
  - rewrite append_cons. cbn [take_while]. now rewrite IH.
Qed.

Lemma drop_while_stop p a b :
  p newline = false ->
  drop_while p (a ++ String newline b) = (drop_while p a ++ String newline b)%string.
Proof.
  intros Hp. induction a as [|c a IH].
  - change (EmptyString ++ String newline b)%string with (String newline b).
    cbn [drop_while]. now rewrite Hp.
  - rewrite append_cons. cbn [drop_while]. destruct (p c); [exact IH | reflexivity].
Qed.

Lemma prefix_nil s : String.prefix "" s = true.
Proof. now destruct s. Qed.

Lemma prefix_line text : forall a b,
  count_newlines text = 0 ->
  String.prefix text (a ++ String newline b) = String.prefix text a.
Proof.
  induction text as [|t text IH]; intros a b Hn.
  - now rewrite !prefix_nil.
  - cbn [count_newlines] in Hn. pose proof (count_newlines_nonneg text) as Hpos.
    destruct (Ascii.eqb t newline) eqn:Et; [lia|].
    destruct a as [|c a].
    + change (EmptyString ++ String newline b)%string with (String newline b).
      cbn [String.prefix]. destruct (ascii_dec t newline) as [->|]; [|reflexivity].
      now rewrite Ascii.eqb_refl in Et.
    + rewrite append_cons. cbn [String.prefix].
      destruct (ascii_dec t c); [apply IH; lia | reflexivity].
Qed.

(** What follows the digits of a number, when the line ends there or
    later. *)
Lemma fraction_line ds d b :
  match (d ++ String newline b)%string with
  | String "." after =>
      match take_while is_digit after with
      | EmptyString => Some ds
      | fs => Some (ds ++ String "." fs)%string
      end
  | _ => Some ds
  end
  = match d with
    | String "." after =>
        match take_while is_digit after with
        | EmptyString => Some ds
        | fs => Some (ds ++ String "." fs)%string
        end
    | _ => Some ds
    end.
Proof.
  destruct d as [|c after].
  - reflexivity.
  - rewrite append_cons.
    destruct c as [[] [] [] [] [] [] [] []]; try reflexivity.
    now rewrite take_while_stop.
Qed.

Lemma re_match_line p k a b :
  pattern_ok (p, k) -> re_match p (a ++ String newline b) = re_match p a.
Proof.
  intros [Hp _]. destruct p as [| |text]; simpl in Hp; cbn [re_match].
  - rewrite take_while_stop, drop_while_stop by reflexivity.
    destruct (take_while is_digit a); [reflexivity|]. apply fraction_line.
  - destruct a as [|c a]; [reflexivity|]. rewrite append_cons.
    now rewrite take_while_stop.
  - now rewrite prefix_line.
Qed.

Lemma first_match_line patterns a b :
  Forall pattern_ok patterns ->
  first_match patterns (a ++ String newline b) = first_match patterns a.
Proof.
  induction 1 as [|[p k] patterns Hp _ IH]; [reflexivity|].
  cbn [first_match]. rewrite (re_match_line p k a b Hp), IH. reflexivity.
Qed.

(** ** The loop on a first line and the rest *)

Lemma tokenize_loop_line f1 : forall f2 f3 a b ln tokens,
  (String.length (a ++ String newline b) < f1)%nat ->
  (String.length a < f2)%nat -> (String.length b < f3)%nat ->
  tokenize_loop f1 (a ++ String newline b) ln tokens
  = match tokenize_loop f2 a ln tokens with
    | Ok ts => tokenize_loop f3 b (ln + count_newlines a + 1) (removelast ts)
    | r => r
    end.
Proof.
  induction f1 as [|f1 IH]; intros f2 f3 a b ln tokens H1 H2 H3; [lia|].
  destruct f2 as [|f2]; [lia|].
  rewrite length_append in H1. simpl in H1.
  destruct a as [|c a].
  - change (EmptyString ++ String newline b)%string with (String newline b).
    cbn [tokenize_loop]. change (isspace newline) with true.
    change (Ascii.eqb newline newline) with true. cbn match.
    rewrite removelast_last. simpl count_newlines. rewrite Z.add_0_r.
    apply tokenize_loop_fuel; simpl in *; lia.
  - rewrite append_cons. cbn [tokenize_loop]. simpl in H1, H2.
    destruct (isspace c).
    { rewrite (IH f2 f3) by (rewrite ?length_append; simpl; lia).
      cbn [count_newlines].
      destruct (tokenize_loop f2 a _ tokens); try reflexivity.
      f_equal. destruct (Ascii.eqb c newline); lia. }
    rewrite <- append_cons, (prefix_line "//") by reflexivity.
    destruct (String.prefix "//" (String c a)) eqn:Ecom.
    { rewrite drop_while_stop by reflexivity.
      apply prefix_app in Ecom. destruct Ecom as [s' Hs'].
      rewrite append_cons in Hs'. injection Hs' as -> Ha.
      pose proof (drop_while_length (fun c => negb (Ascii.eqb c newline)) a) as Hd.
      rewrite (IH f2 f3); [|rewrite length_append; simpl; lia| simpl; lia | lia].
      rewrite drop_while_newlines. reflexivity. }
    rewrite (first_match_line _ _ _ TOKEN_PATTERNS_ok).
    destruct (first_match TOKEN_PATTERNS (String c a)) as [[ttype val]|] eqn:Em;
      [|reflexivity].
    destruct (first_match_ok _ _ _ _ TOKEN_PATTERNS_ok Em) as (_ & [s' Hs'] & Hn & Hne).
    assert (String.length (String c a) = String.length (val ++ s')) as Hl
      by now rewrite Hs'.
    rewrite length_append in Hl. simpl in Hl.
    rewrite Hs', append_assoc, !drop_app_length.
    destruct (make_token ttype val ln); [|reflexivity].
    destruct val as [|v val]; [congruence|]. simpl in Hl.
    rewrite (IH f2 f3) by (rewrite ?length_append; simpl; lia).
    rewrite count_newlines_app, Hn, Z.add_0_l. reflexivity.
Qed.
End LexerLines.

(** X10.  Lines are tokenized one by one: the tokens of a text with a
    newline in it are the tokens of what stands before the newline, without
    their EOF, followed by the tokens of what stands after it, with their
    lines counted on from the lines before.  If the part before the
    newline has an unknown character, that is the error of the whole; if
    only the part after it has one, that is the error, on the line counted
    in the same way.  No token and no comment reaches across a newline. *)
Theorem lines_lexed_independently first rest :
  Lexer.tokenize (first ++ String Lexer.newline rest)
  = then_tokens (Lexer.tokenize first)
      (shift_lines (1 + count_newlines first) (Lexer.tokenize rest)).
Proof.
  unfold Lexer.tokenize at 1.
  rewrite (tokenize_loop_line _ (S (String.length first)) (S (String.length rest)))
    by lia.
  fold (Lexer.tokenize first).
  destruct (Lexer.tokenize first) as [ts|e| |]; [|reflexivity..].
  unfold then_tokens, Lexer.tokenize. rewrite tokenize_loop_acc. f_equal.
  replace (1 + count_newlines first + 1) with (1 + (1 + count_newlines first)) by lia.
  apply tokenize_loop_shift.
Qed.

Section CanonicalTokens.
Import Lexer.

(** ** What the tokens carry *)

Lemma first_match_in patterns s k val :
  first_match patterns s = Some (k, val) ->
  exists p, In (p, k) patterns /\ re_match p s = Some val.
Proof.
  induction patterns as [|[p k'] patterns IH]; simpl; [discriminate|].
  destruct (re_match p s) as [v|] eqn:E.
  - intros [= <- <-]. exists p. auto.
  - intros H. destruct (IH H) as (p' & Hin & Hm). exists p'. auto.
Qed.

Lemma all_chars_take_while p s : all_chars p (take_while p s) = true.
Proof.
  induction s as [|c s IH]; simpl; [reflexivity|].
  destruct (p c) eqn:E; simpl; [now rewrite E | reflexivity].
Qed.

(** A match of the number rule with no point in it is a run of digits. *)
Lemma number_without_point s val :
  re_match PatNumber s = Some val -> contains "." val = false ->
  all_chars is_digit val = true.
Proof.
  cbn [re_match]. intros H Hc.
  pose proof (all_chars_take_while is_digit s) as Hd.
  destruct (take_while is_digit s) as [|d ds]; [discriminate|].
  destruct (drop_while is_digit s) as [|c after]; [now injection H as <-|].
  destruct (Ascii.eqb c ".") eqn:Ec.
  - apply Ascii.eqb_eq in Ec. subst c.
    destruct (take_while is_digit after) as [|f fs]; [now injection H as <-|].
    injection H as <-. rewrite contains_app in Hc. simpl in Hc.
    rewrite orb_true_r in Hc. discriminate.
  - assert (Some (String d ds) = Some val) as Hv.
    { revert H. destruct c as [[] [] [] [] [] [] [] []]; try discriminate Ec; auto. }
    now injection Hv as <-.
Qed.

Lemma digit_code c : is_digit c = true -> 0 <= Z.of_nat (code c) - 48.
Proof.
  unfold is_digit, between. intros H. apply andb_true_iff in H.
  destruct H as [H _]. apply Nat.leb_le in H. lia.
Qed.

Lemma int_of_digits_nonneg s : forall acc,
  0 <= acc -> all_chars is_digit s = true -> 0 <= int_of_digits acc s.
Proof.
  induction s as [|c s IH]; intros acc Hacc H; simpl in *; [exact Hacc|].
  apply andb_true_iff in H. destruct H as [Hc Hs].
  apply IH; [|exact Hs]. pose proof (digit_code c Hc). lia.
Qed.

(** The token built for a match of the table is canonical. *)
Lemma make_token_canonical rest k val ln tok :
  first_match TOKEN_PATTERNS rest = Some (k, val) -> make_token k val ln = Return tok ->
  canonical tok = true.
Proof.
  intros H. destruct (first_match_in _ _ _ _ H) as (p & Hin & Hm).
  unfold TOKEN_PATTERNS in Hin. simpl in Hin.
  repeat (destruct Hin as [Hin|Hin]; [injection Hin as <- <-|]); try contradiction;
    try (intros [= <-]; reflexivity).
  - unfold make_token, python_int.
    destruct (contains "." val) eqn:Ec; [intros [= <-]; reflexivity|].
    destruct (MAX_STR_DIGITS <? _); simpl; [discriminate|]. intros [= <-].
    unfold canonical. simpl.
    apply Z.leb_le. apply int_of_digits_nonneg; [lia|].
    exact (number_without_point _ _ Hm Ec).
  - unfold make_token. destruct (existsb (String.eqb val) KEYWORDS) eqn:Ek; intros [= <-].
    + unfold keyword_type. repeat destruct (String.eqb val _); reflexivity.
    + unfold canonical. cbn [type tvalue]. unfold variable_name. now rewrite Ek.
  - intros [= <-]. simpl in Hm. destruct (String.prefix "+" rest); [|discriminate].
    now injection Hm as <-.
  - intros [= <-]. simpl in Hm. destruct (String.prefix "-" rest); [|discriminate].
    now injection Hm as <-.
  - intros [= <-]. simpl in Hm. destruct (String.prefix "*" rest); [|discriminate].
    now injection Hm as <-.
  - intros [= <-]. simpl in Hm. destruct (String.prefix "/" rest); [|discriminate].
    now injection Hm as <-.
  - intros [= <-]. simpl in Hm. destruct (String.prefix "%" rest); [|discriminate].
    now injection Hm as <-.
Qed.

Lemma tokenize_loop_canonical fuel : forall rest ln tokens result,
  Forall (fun t => canonical t = true) tokens ->
  tokenize_loop fuel rest ln tokens = Ok result ->
  Forall (fun t => canonical t = true) result.
Proof.
  induction fuel as [|fuel IH]; intros rest ln tokens result Hall H;
    cbn [tokenize_loop] in H; [discriminate|].
  destruct rest as [|c rest'].
  - injection H as <-. apply List.Forall_app. split; [exact Hall|].
    now repeat constructor.
  - destruct (isspace c); [exact (IH _ _ _ _ Hall H)|].
    destruct (String.prefix "//" (String c rest')); [exact (IH _ _ _ _ Hall H)|].
    destruct (first_match TOKEN_PATTERNS (String c rest')) as [[ttype val]|] eqn:Em;
      [|discriminate].
    destruct (make_token ttype val ln) as [tok|e] eqn:Emk; [|discriminate].
    refine (IH _ _ _ _ _ H). apply List.Forall_app. split; [exact Hall|].
    constructor; [|constructor]. exact (make_token_canonical _ _ _ _ _ Em Emk).
Qed.

Lemma tokenize_canonical source tokens :
  tokenize source = Ok tokens -> Forall (fun t => canonical t = true) tokens.
Proof. apply tokenize_loop_canonical. constructor. Qed.
End CanonicalTokens.

Section LexerNumbers.
Import Lexer.

(** ** Number literals *)

Lemma take_while_all p w rest :
  all_chars p w = true -> starts_with p rest = false -> take_while p (w ++ rest) = w.
Proof.
  intros Hw Hr. induction w as [|c w IH].
  - destruct rest as [|c rest]; [reflexivity|]. simpl in Hr.
    change (EmptyString ++ String c rest)%string with (String c rest).
    cbn [take_while]. now rewrite Hr.
  - simpl in Hw. apply andb_true_iff in Hw. destruct Hw as [Hc Hw].
    rewrite append_cons. cbn [take_while]. rewrite Hc, IH by exact Hw. reflexivity.
Qed.

Lemma drop_while_all p w rest :
  all_chars p w = true -> starts_with p rest = false -> drop_while p (w ++ rest) = rest.
Proof.
  intros Hw Hr. induction w as [|c w IH].
  - destruct rest as [|c rest]; [reflexivity|]. simpl in Hr.
    change (EmptyString ++ String c rest)%string with (String c rest).
    cbn [drop_while]. now rewrite Hr.
  - simpl in Hw. apply andb_true_iff in Hw. destruct Hw as [Hc Hw].
    rewrite append_cons. cbn [drop_while]. rewrite Hc. now apply IH.
Qed.

Lemma digits_no_point d : all_chars is_digit d = true -> contains "." d = false.
Proof.
  induction d as [|c d IH]; intros H; [reflexivity|].
  simpl in H. apply andb_true_iff in H. destruct H as [Hc Hd].
  cbn [contains]. rewrite (IH Hd), orb_false_r.
  destruct (Ascii.eqb "." c) eqn:E; [|reflexivity].
  apply Ascii.eqb_eq in E. subst c. discriminate Hc.
Qed.

Lemma digit_not_space c : is_digit c = true -> isspace c = false.
Proof. by_cases_on_char c. Qed.

Lemma digit_not_comment c s : is_digit c = true -> String.prefix "//" (String c s) = false.
Proof. by_cases_on_char c. Qed.

Lemma ends_int_no_digit rest : ends_int rest = true -> starts_with is_digit rest = false.
Proof.
  destruct rest as [|c rest]; [reflexivity|]. simpl. intros H.
  apply andb_true_iff in H. destruct H as [H _]. now apply negb_true_iff in H.
Qed.

(** The rule of numbers on digits followed by what ends an int. *)
Lemma int_match c d rest :
  is_digit c = true -> all_chars is_digit d = true -> ends_int rest = true ->
  first_match TOKEN_PATTERNS (String c d ++ rest) = Some (NUMBER, String c d).
Proof.
  intros Hc Hd Hr. unfold TOKEN_PATTERNS. cbn [first_match re_match].
  assert (all_chars is_digit (String c d) = true) as Hall by (simpl; now rewrite Hc).
  rewrite (take_while_all _ _ _ Hall (ends_int_no_digit _ Hr)).
  rewrite (drop_while_all _ _ _ Hall (ends_int_no_digit _ Hr)).
  destruct rest as [|c2 after]; [reflexivity|].
  simpl in Hr. apply andb_true_iff in Hr. destruct Hr as [_ Hr].
  destruct c2 as [[] [] [] [] [] [] [] []]; try reflexivity.
  simpl in Hr. apply negb_true_iff in Hr.
  destruct after as [|c3 after]; [reflexivity|]. simpl in Hr.
  cbn [take_while]. now rewrite Hr.
Qed.

(** The rule of numbers on digits, a point and digits. *)
Lemma float_match c d c' f rest :
  is_digit c = true -> all_chars is_digit d = true ->
  is_digit c' = true -> all_chars is_digit f = true ->
  starts_with is_digit rest = false ->
  first_match TOKEN_PATTERNS (String c d ++ String "." (String c' f ++ rest))
  = Some (NUMBER, (String c d ++ String "." (String c' f))%string).
Proof.
  intros Hc Hd Hc' Hf Hr. unfold TOKEN_PATTERNS. cbn [first_match re_match].
  assert (all_chars is_digit (String c d) = true) as Hall by (simpl; now rewrite Hc).
  assert (all_chars is_digit (String c' f) = true) as Hall' by (simpl; now rewrite Hc').
  rewrite (take_while_all _ _ _ Hall) by reflexivity.
  rewrite (drop_while_all _ _ _ Hall) by reflexivity.
  rewrite (take_while_all _ _ _ Hall' Hr). reflexivity.
Qed.
End LexerNumbers.

(** A run of digits, up to where no number goes on, is given to [int]. *)
Lemma tokenize_int c d rest :
  Lexer.is_digit c = true -> all_chars Lexer.is_digit d = true -> ends_int rest = true ->
  Lexer.tokenize (String c d ++ rest)
  = match Lexer.python_int (String c d) with
    | Return z => prepend [mkToken NUMBER (TNum (VInt z)) 1] (Lexer.tokenize rest)
    | Throw e => Raise e
    end.
Proof.
  intros Hc Hd Hr. unfold Lexer.tokenize at 1.
  pose proof (int_match c d rest Hc Hd Hr) as Hm.
  rewrite append_cons in Hm |- *. cbn [Lexer.tokenize_loop].
  rewrite (digit_not_space c Hc), (digit_not_comment c _ Hc), Hm.
  rewrite <- append_cons, drop_app_length.
  unfold Lexer.make_token. rewrite digits_no_point by (simpl; now rewrite Hc).
  destruct (Lexer.python_int (String c d)) as [z|e];
    cbn [pybind app]; cbv iota; [|reflexivity].
  rewrite tokenize_loop_acc, tokenize_from; [reflexivity|].
  rewrite append_cons. simpl. rewrite length_append. lia.
Qed.

Lemma python_int_long val :
  Lexer.MAX_STR_DIGITS < Z.of_nat (String.length val) ->
  Lexer.python_int val = Throw ValueError.
Proof.
  intros H. unfold Lexer.python_int.
  destruct (Lexer.MAX_STR_DIGITS <? Z.of_nat (String.length val)) eqn:E;
    [reflexivity | apply Z.ltb_ge in E; lia].
Qed.

Lemma python_int_short val :
  Z.of_nat (String.length val) <= Lexer.MAX_STR_DIGITS ->
  Lexer.python_int val = Return (Lexer.int_of_digits 0 val).
Proof.
  intros H. unfold Lexer.python_int.
  destruct (Lexer.MAX_STR_DIGITS <? Z.of_nat (String.length val)) eqn:E;
    [apply Z.ltb_lt in E; lia | reflexivity].
Qed.

Lemma append_empty s : (s ++ "")%string = s.
Proof. induction s as [|c s IH]; [reflexivity|]. rewrite append_cons. now f_equal. Qed.

(** A text that is one run of more than 4300 digits. *)
Lemma tokenize_long_digits c d :
  Lexer.is_digit c = true -> all_chars Lexer.is_digit d = true ->
  Lexer.MAX_STR_DIGITS < Z.of_nat (String.length (String c d)) ->
  Lexer.tokenize (String c d) = Raise ValueError.
Proof.
  intros Hc Hd Hlen.
  pose proof (tokenize_int c d "" Hc Hd eq_refl) as H.
  rewrite append_empty in H. now rewrite H, python_int_long.
Qed.

(** X18.  Number literals.  A run of digits, up to the end of the text or
    to a character that is neither a digit nor a point with a digit after
    it, is one NUMBER token with an int value, leading zeros allowed, and
    the lexer goes on with what follows, when the digits are at most 4300;
    a longer run ends [tokenize] with the ValueError of [int].  Digits, a
    point and digits are one NUMBER token with a float value, whatever the
    number of digits.  A point that no digit follows, or that no digit
    precedes, is no part of a number: the lexer stops there with its
    error, so [1.] and [.5] are not literals. *)
Theorem number_is_one_token c d :
  Lexer.is_digit c = true -> all_chars Lexer.is_digit d = true ->
  (Z.of_nat (String.length (String c d)) <= Lexer.MAX_STR_DIGITS ->
   (forall rest, ends_int rest = true ->
      Lexer.tokenize (String c d ++ rest)
      = prepend [mkToken NUMBER (TNum (VInt (Lexer.int_of_digits 0 (String c d)))) 1]
          (Lexer.tokenize rest))
   /\ Lexer.tokenize (String c d ++ ".") = Raise (SyntaxError (LexerUnknownChar "." 1)))
  /\ (Lexer.MAX_STR_DIGITS < Z.of_nat (String.length (String c d)) ->
      forall rest, ends_int rest = true ->
        Lexer.tokenize (String c d ++ rest) = Raise ValueError)
  /\ (forall c' f rest,
        Lexer.is_digit c' = true -> all_chars Lexer.is_digit f = true ->
        starts_with Lexer.is_digit rest = false ->
        Lexer.tokenize (String c d ++ String "." (String c' f ++ rest))
        = prepend
            [mkToken NUMBER
               (TNum (VFloat (Lexer.python_float (String c d ++ String "." (String c' f))))) 1]
            (Lexer.tokenize rest))
  /\ Lexer.tokenize ("." ++ String c d) = Raise (SyntaxError (LexerUnknownChar "." 1)).
Proof.
  intros Hc Hd.
  split; [|split; [|split]].
  - intros Hlen. split.
    + intros rest Hr. now rewrite (tokenize_int c d rest Hc Hd Hr), python_int_short.
    + rewrite (tokenize_int c d "." Hc Hd eq_refl), python_int_short by exact Hlen.
      reflexivity.
  - intros Hlen rest Hr. now rewrite (tokenize_int c d rest Hc Hd Hr), python_int_long.
  - intros c' f rest Hc' Hf Hr. unfold Lexer.tokenize at 1.
    pose proof (float_match c d c' f rest Hc Hd Hc' Hf Hr) as Hm.
    rewrite append_cons in Hm |- *. cbn [Lexer.tokenize_loop].
    rewrite (digit_not_space c Hc), (digit_not_comment c _ Hc), Hm.
    replace (String c (d ++ String "." (String c' f ++ rest)))
      with ((String c d ++ String "." (String c' f)) ++ rest)%string
      by (rewrite append_assoc; reflexivity).
    rewrite drop_app_length.
    unfold Lexer.make_token. rewrite contains_app. cbn [Lexer.contains].
    rewrite Ascii.eqb_refl, orb_true_r. cbn [orb pybind]. cbv iota.
    rewrite tokenize_loop_acc, tokenize_from; [reflexivity|].
    rewrite length_append, append_cons. simpl. lia.
  - reflexivity.
Qed.

Lemma number_is_one_token_witness :
  Lexer.tokenize ("007" ++ "+x")
  = prepend [mkToken NUMBER (TNum (VInt 7)) 1] (Lexer.tokenize "+x").
Proof.
  apply (number_is_one_token "0" "07"); [reflexivity | reflexivity | | reflexivity].
  vm_compute. discriminate.
Defined.
(* ===================================================================== *)
(** * Further properties of the parser *)
(* ===================================================================== *)

(** X13.  How three operands group.  For every two binary operators and
    every three operands that are numbers or variables, [x o1 y o2 z] is
    one statement, and its tree is decided by the levels of the grammar
    (comparison, then [+ -], then [* / %], then [**]): the first operator
    takes [y] when the second does not bind tighter, except that [**]
    groups to the right with itself.  So operators of one level group to
    the left, [**] to the right. *)
Theorem three_operand_grouping x y z ln :
  Forall (fun o1 =>
    Forall (fun o2 =>
      Parser.parse (three_operands x o1 y o2 z ln)
      = Ok (BlockNode [if groups_left o1 o2 then left_grouped x o1 y o2 z
                       else right_grouped x o1 y o2 z]))
      binary_operators)
    binary_operators.
Proof.
  unfold binary_operators.
  repeat first [apply List.Forall_nil | apply List.Forall_cons];
    destruct x, y, z; reflexivity.
Qed.

(** X14.  A prefix minus takes the one operand right after it and nothing
    more: in front of [x o y] it negates [x] alone, for every binary
    operator, [**] included, so that [-2 ** 2] is 4.  After a binary
    operator a minus is read as the sign of the right operand. *)
Theorem unary_minus_binds_tightest x y ln :
  Forall (fun o =>
    Parser.parse [minus_token ln; operand_token x ln; operator_token o ln;
                  operand_token y ln; eof_token ln]
    = Ok (BlockNode [BinOpNode (UnaryNode "-" (operand_node x)) (snd o) (operand_node y)])
    /\ Parser.parse [operand_token x ln; operator_token o ln; minus_token ln;
                     operand_token y ln; eof_token ln]
       = Ok (BlockNode [BinOpNode (operand_node x) (snd o) (UnaryNode "-" (operand_node y))]))
    binary_operators
  /\ forall host,
       run host "print(-2 ** 2)" None = Returned (mkInterp ∅ [VInt 4]) None.
Proof.
  split.
  - unfold binary_operators.
    repeat first [apply List.Forall_nil | apply List.Forall_cons];
      destruct x, y; split; reflexivity.
  - intros host. vm_compute. reflexivity.
Qed.

(** X15.  [parse] needs the EOF token that [tokenize] puts last.  With
    any number of call frames it returns a tree only when it stopped in
    front of an EOF token; on a token list without one it never returns a
    tree: the empty list, and a list of one operand, end in an IndexError
    of [self.tokens[self.pos]] once the few frames these calls take are
    there.  On the tokens of a source text it never does: it returns a
    block, or raises one of the parser's two SyntaxErrors, or Python's
    RecursionError when the nesting of the text takes more frames than are
    left.  With frames enough for the length of the text the RecursionError
    is excluded; for every number of frames there is a text that raises
    it. *)
Theorem parse_needs_eof :
  (forall tokens frames ast,
     Bounded.parse tokens frames = Ok ast ->
     exists stmts p tok,
       ast = BlockNode stmts /\ tokens !! p = Some tok /\ type tok = EOF)
  /\ (forall frames, Bounded.parse [] (2 + frames) = Raise IndexError)
  /\ (forall frames x ln,
        Bounded.parse [operand_token x ln] (10 + frames) = Raise IndexError)
  /\ (forall frames source tokens,
        Lexer.tokenize source = Ok tokens ->
        (exists stmts, Bounded.parse tokens frames = Ok (BlockNode stmts))
        \/ (exists e, Bounded.parse tokens frames = Raise e
                      /\ (parser_error e \/ e = RecursionError)))
  /\ (forall frames source tokens,
        Lexer.tokenize source = Ok tokens ->
        (ample_frames tokens <= frames)%nat ->
        (exists stmts, Bounded.parse tokens frames = Ok (BlockNode stmts))
        \/ (exists e, Bounded.parse tokens frames = Raise e /\ parser_error e))
  /\ (forall frames, exists source tokens,
        Lexer.tokenize source = Ok tokens
        /\ Bounded.parse tokens frames = Raise RecursionError).
Proof.
  assert (forall source tokens,
            Lexer.tokenize source = Ok tokens ->
            (exists stmts, Parser.parse tokens = Ok (BlockNode stmts))
            \/ (exists e, Parser.parse tokens = Raise e /\ parser_error e)) as Hparse.
  { intros source tokens Ht.
    destruct (parse_tokenized source tokens Ht) as [[ast Hp]|He]; [left | now right].
    unfold Parser.parse in Hp |- *.
    destruct (Parser.statements_until tokens (Parser.parse_fuel tokens) EOF [] 0%nat)
      as [[stmts p]| | |]; try discriminate.
    exists stmts. reflexivity. }
  split; [|split; [|split; [|split; [|split]]]].
  - intros tokens frames ast H.
    destruct (parse_refines tokens frames) as [E|E]; rewrite E in H; [|discriminate].
    unfold Parser.parse in H.
    destruct (Parser.statements_until tokens (Parser.parse_fuel tokens) EOF [] 0%nat)
      as [[stmts p]| | |] eqn:Es; try discriminate.
    injection H as <-. destruct (statements_until_stops _ _ _ _ _ _ _ Es) as (tok & Ht & Hk).
    exists stmts, p, tok. split; [reflexivity|]. split; assumption.
  - intros frames. reflexivity.
  - intros frames x ln. destruct x; reflexivity.
  - intros frames source tokens Ht.
    destruct (parse_refines tokens frames) as [E|E]; rewrite E.
    + destruct (Hparse source tokens Ht) as [H|(e & He & Hk)]; [now left | right].
      exists e. split; [exact He | now left].
    + right. exists RecursionError. split; [reflexivity | now right].
  - intros frames source tokens Ht Hf. rewrite (parse_ample tokens frames Hf).
    exact (Hparse source tokens Ht).
  - intros frames. exists (nested frames "--5"), (nested_doubled_minus frames).
    split; [apply nested_doubled_minus_tokens | apply nested_doubled_minus_too_deep].
Qed.

(* ===================================================================== *)
(** * The shape of the trees *)
(* ===================================================================== *)

Section Shapes.
Import Parser.
Variable tokens : list Token.
Hypothesis Hcanonical : Forall (fun t => canonical t = true) tokens.

Lemma yields_bind {A B : Type} (m : P A) (k : A -> P B) pos (Q1 : A -> Prop) (Q2 : B -> Prop) :
  yields (m pos) Q1 ->
  (forall a p, Q1 a -> yields (k a p) Q2) ->
  yields (bind m k pos) Q2.
Proof.
  intros Hm Hk. unfold bind. destruct (m pos) as [[a p]|e| |]; simpl in *; auto.
Qed.

Lemma yields_any {A : Type} (r : result (A * nat)) : yields r (fun _ => True).
Proof. now destruct r as [[a p]|e| |]. Qed.

Lemma peek_yields k pos : yields (peek tokens k pos) (fun tok => canonical tok = true).
Proof.
  unfold peek. destruct (tokens !! (pos + k)%nat) as [tok|] eqn:E; simpl; [|exact I].
  rewrite Forall_forall in Hcanonical. apply Hcanonical.
  eapply list_elem_of_lookup_2. exact E.
Qed.

Lemma text_of_yields tok pos : yields (text_of tok pos) (fun s => tvalue tok = TStr s).
Proof. unfold text_of. now destruct (tvalue tok). Qed.

Lemma number_of_yields tok pos : yields (number_of tok pos) (fun v => tvalue tok = TNum v).
Proof. unfold number_of. now destruct (tvalue tok). Qed.

(** The text of an arithmetic operator token is a key of the table. *)
Lemma arithmetic_operator_known tok op :
  canonical tok = true -> tvalue tok = TStr op ->
  TokenType.eqb (type tok) PLUS || TokenType.eqb (type tok) MINUS
  || (TokenType.eqb (type tok) MUL || TokenType.eqb (type tok) DIV
      || TokenType.eqb (type tok) MOD) = true ->
  known_operator op = true.
Proof.
  unfold canonical. intros Hc Hv Hk. rewrite Hv in Hc.
  destruct (type tok); try discriminate Hk; apply String.eqb_eq in Hc; now subst op.
Qed.

Lemma comparison_operator_known k op : comparison_ops k = Some op -> known_operator op = true.
Proof. destruct k; simpl; intros [= <-]; reflexivity. Qed.

Lemma ident_token_name tok name :
  canonical tok = true -> TokenType.eqb (type tok) IDENT = true -> tvalue tok = TStr name ->
  variable_name name = true.
Proof.
  unfold canonical. intros Hc Hk Hv. rewrite Hv in Hc.
  destruct (type tok); try discriminate Hk. exact Hc.
Qed.

Lemma eat_yields k pos :
  yields (eat tokens k pos)
    (fun tok => canonical tok = true /\ TokenType.eqb (type tok) k = true).
Proof.
  unfold eat. eapply yields_bind; [apply (peek_yields 0)|]. intros tok p Hc.
  destruct (TokenType.eqb (type tok) k) eqn:E; simpl; [|exact I].
  unfold bind, advance, ret. simpl. now split.
Qed.

Lemma number_token_value tok v :
  canonical tok = true -> TokenType.eqb (type tok) NUMBER = true -> tvalue tok = TNum v ->
  number_value v = true.
Proof.
  unfold canonical. intros Hc Hk Hv. rewrite Hv in Hc.
  destruct (type tok); try discriminate Hk. exact Hc.
Qed.

Lemma expression_shapes_step fuel :
  expression_shapes tokens fuel -> expression_shapes tokens (S fuel).
Proof.
  intros (IHe & IHc & IHcl & IHa & IHal & IHm & IHml & IHp & IHu & IHpr).
  unfold expression_shapes. repeat split.
  - intros pos. cbn [expression]. apply IHc.
  - intros pos. cbn [comparison].
    eapply yields_bind; [apply IHa|]. intros left p Hl. now apply IHcl.
  - intros left pos Hl. cbn [comparison_loop].
    eapply yields_bind; [apply (peek_yields 0)|]. intros tok p Hc.
    destruct (comparison_ops (type tok)) as [op|] eqn:Eop; [|exact Hl].
    eapply yields_bind; [apply yields_any|]. intros _ p1 _.
    eapply yields_bind; [apply IHa|]. intros right p2 Hr.
    apply IHcl. simpl. now rewrite Hl, Hr, (comparison_operator_known _ _ Eop).
  - intros pos. cbn [additive].
    eapply yields_bind; [apply IHm|]. intros left p Hl. now apply IHal.
  - intros left pos Hl. cbn [additive_loop].
    eapply yields_bind; [apply (peek_yields 0)|]. intros tok p Hc.
    destruct (TokenType.eqb (type tok) PLUS || TokenType.eqb (type tok) MINUS) eqn:Ek;
      [|exact Hl].
    eapply yields_bind; [apply text_of_yields|]. intros op p0 Hop.
    eapply yields_bind; [apply yields_any|]. intros _ p1 _.
    eapply yields_bind; [apply IHm|]. intros right p2 Hr.
    apply IHal. simpl. rewrite Hl, Hr.
    rewrite (arithmetic_operator_known tok op Hc Hop); [reflexivity|].
    now rewrite Ek.
  - intros pos. cbn [multiplicative].
    eapply yields_bind; [apply IHp|]. intros left p Hl. now apply IHml.
  - intros left pos Hl. cbn [multiplicative_loop].
    eapply yields_bind; [apply (peek_yields 0)|]. intros tok p Hc.
    destruct (TokenType.eqb (type tok) MUL || TokenType.eqb (type tok) DIV
              || TokenType.eqb (type tok) MOD) eqn:Ek; [|exact Hl].
    eapply yields_bind; [apply text_of_yields|]. intros op p0 Hop.
    eapply yields_bind; [apply yields_any|]. intros _ p1 _.
    eapply yields_bind; [apply IHp|]. intros right p2 Hr.
    apply IHml. simpl. rewrite Hl, Hr.
    rewrite (arithmetic_operator_known tok op Hc Hop); [reflexivity|].
    rewrite Ek. apply orb_true_r.
  - intros pos. cbn [power].
    eapply yields_bind; [apply IHu|]. intros base p Hb.
    eapply yields_bind; [apply (peek_yields 0)|]. intros tok p0 Hc.
    destruct (TokenType.eqb (type tok) POW); [|exact Hb].
    eapply yields_bind; [apply yields_any|]. intros _ p1 _.
    eapply yields_bind; [apply IHp|]. intros exp p2 He.
    simpl. now rewrite Hb, He.
  - intros pos. cbn [unary].
    eapply yields_bind; [apply (peek_yields 0)|]. intros tok p Hc.
    destruct (TokenType.eqb (type tok) MINUS); [|apply IHpr].
    eapply yields_bind; [apply yields_any|]. intros _ p1 _.
    eapply yields_bind; [apply IHpr|]. intros operand p2 Ho. exact Ho.
  - intros pos. cbn [primary].
    eapply yields_bind; [apply (peek_yields 0)|]. intros tok p Hc.
    destruct (TokenType.eqb (type tok) NUMBER) eqn:E1.
    { eapply yields_bind; [apply yields_any|]. intros _ p1 _.
      eapply yields_bind; [apply number_of_yields|]. intros v p2 Hv.
      simpl. exact (number_token_value tok v Hc E1 Hv). }
    destruct (TokenType.eqb (type tok) IDENT) eqn:E2.
    { eapply yields_bind; [apply yields_any|]. intros _ p1 _.
      eapply yields_bind; [apply text_of_yields|]. intros name p2 Hn.
      simpl. exact (ident_token_name tok name Hc E2 Hn). }
    destruct (TokenType.eqb (type tok) LPAREN); [|exact I].
    eapply yields_bind; [apply yields_any|]. intros _ p1 _.
    eapply yields_bind; [apply IHe|]. intros e p2 He.
    eapply yields_bind; [apply yields_any|]. intros _ p3 _. exact He.
Qed.

Lemma expression_shapes_hold fuel : expression_shapes tokens fuel.
Proof.
  induction fuel as [|fuel IH]; [|now apply expression_shapes_step].
  unfold expression_shapes. repeat split; intros; exact I.
Qed.

Lemma expression_is_statement e : is_expression e = true -> is_statement e = true.
Proof. destruct e; simpl; intros H; try exact H; discriminate. Qed.

Lemma statement_shapes_step fuel :
  statement_shapes tokens fuel -> statement_shapes tokens (S fuel).
Proof.
  intros (IHs & IHu & IHi & IHw).
  destruct (expression_shapes_hold fuel) as (IHe & _).
  unfold statement_shapes. repeat split.
  - intros pos. cbn [statement].
    eapply yields_bind; [apply (peek_yields 0)|]. intros tok p Hc.
    destruct (TokenType.eqb (type tok) PRINT).
    { eapply yields_bind; [apply yields_any|]. intros _ p1 _.
      eapply yields_bind; [apply yields_any|]. intros _ p2 _.
      eapply yields_bind; [apply IHe|]. intros e p3 He.
      eapply yields_bind; [apply yields_any|]. intros _ p4 _.
      eapply yields_bind; [apply yields_any|]. intros _ p5 _. exact He. }
    destruct (TokenType.eqb (type tok) IF); [apply IHi|].
    destruct (TokenType.eqb (type tok) WHILE); [apply IHw|].
    eapply yields_bind; [apply yields_any|]. intros is_assignment p1 _.
    destruct is_assignment.
    + eapply yields_bind; [apply eat_yields|]. intros name_tok p2 [Hcn Hkn].
      eapply yields_bind; [apply text_of_yields|]. intros name p3 Hn.
      eapply yields_bind; [apply yields_any|]. intros _ p4 _.
      eapply yields_bind; [apply IHe|]. intros e p5 He.
      eapply yields_bind; [apply yields_any|]. intros _ p6 _.
      simpl. now rewrite He, (ident_token_name name_tok name Hcn Hkn Hn).
    + eapply yields_bind; [apply IHe|]. intros e p2 He.
      eapply yields_bind; [apply yields_any|]. intros _ p3 _.
      now apply expression_is_statement.
  - intros stop body pos Hb. cbn [statements_until].
    eapply yields_bind; [apply yields_any|]. intros tok p _.
    destruct (negb (TokenType.eqb (type tok) stop)); [|exact Hb].
    eapply yields_bind; [apply IHs|]. intros stmt p1 Hs.
    apply IHu. rewrite forallb_app, Hb. simpl. now rewrite Hs.
  - intros pos. cbn [if_stmt].
    eapply yields_bind; [apply yields_any|]. intros _ p1 _.
    eapply yields_bind; [apply yields_any|]. intros _ p2 _.
    eapply yields_bind; [apply IHe|]. intros cond p3 Hc.
    eapply yields_bind; [apply yields_any|]. intros _ p4 _.
    eapply yields_bind; [apply yields_any|]. intros _ p5 _.
    eapply yields_bind; [now apply IHu|]. intros then_body p6 Ht.
    eapply yields_bind; [apply yields_any|]. intros _ p7 _.
    eapply yields_bind; [apply yields_any|]. intros tok p8 _.
    destruct (TokenType.eqb (type tok) ELSE).
    + eapply yields_bind; [apply yields_any|]. intros _ p9 _.
      eapply yields_bind; [apply yields_any|]. intros _ p10 _.
      eapply yields_bind; [now apply IHu|]. intros else_body p11 Hel.
      eapply yields_bind; [apply yields_any|]. intros _ p12 _.
      simpl. now rewrite Hc, Ht, Hel.
    + simpl. now rewrite Hc, Ht.
  - intros pos. cbn [while_stmt].
    eapply yields_bind; [apply yields_any|]. intros _ p1 _.
    eapply yields_bind; [apply yields_any|]. intros _ p2 _.
    eapply yields_bind; [apply IHe|]. intros cond p3 Hc.
    eapply yields_bind; [apply yields_any|]. intros _ p4 _.
    eapply yields_bind; [apply yields_any|]. intros _ p5 _.
    eapply yields_bind; [now apply IHu|]. intros body p6 Hb.
    eapply yields_bind; [apply yields_any|]. intros _ p7 _.
    simpl. now rewrite Hc, Hb.
Qed.

Lemma statement_shapes_hold fuel : statement_shapes tokens fuel.
Proof.
  induction fuel as [|fuel IH]; [|now apply statement_shapes_step].
  unfold statement_shapes. repeat split; intros; exact I.
Qed.

Lemma parse_shape ast : parse tokens = Ok ast -> is_program ast = true.
Proof.
  unfold parse. intros H.
  destruct (statement_shapes_hold (parse_fuel tokens)) as (_ & Hu & _).
  specialize (Hu EOF [] 0%nat eq_refl).
  destruct (statements_until tokens (parse_fuel tokens) EOF [] 0%nat)
    as [[stmts p]| | |]; try discriminate.
  injection H as <-. exact Hu.
Qed.
End Shapes.

(** X16.  The tree of a source text follows the grammar.  It is a block of
    statements; a statement is a [print] or an assignment of an expression,
    an [if] or a [while] on an expression with statements as bodies, or an
    expression; an expression is built from number literals that are not
    negative, variables, binary operators and the unary minus.  Every
    binary operator of the tree is one of the twelve keys of the table
    [ops] of the evaluator, every unary operator is [-], and no variable
    that is read or assigned bears the name of a keyword. *)
Theorem parsed_tree_shape source ast :
  parse_text source = Ok ast -> is_program ast = true.
Proof.
  unfold parse_text. intros H.
  destruct (Lexer.tokenize source) as [tokens| | |] eqn:Ht; try discriminate.
  exact (parse_shape tokens (tokenize_canonical _ _ Ht) ast H).
Qed.

Lemma parsed_tree_shape_witness :
  parse_text "x = -2 ** 0.5 while (x < 3) { print(x); x = x + 1 }"
  = Ok (BlockNode
          [AssignNode "x" (BinOpNode (UnaryNode "-" (NumberNode (VInt 2))) "**"
                             (NumberNode (VFloat 0.5)));
           WhileNode (BinOpNode (VarNode "x") "<" (NumberNode (VInt 3)))
             [PrintNode (VarNode "x");
              AssignNode "x" (BinOpNode (VarNode "x") "+" (NumberNode (VInt 1)))]])
  /\ is_program
       (BlockNode
          [AssignNode "x" (BinOpNode (UnaryNode "-" (NumberNode (VInt 2))) "**"
                             (NumberNode (VFloat 0.5)));
           WhileNode (BinOpNode (VarNode "x") "<" (NumberNode (VInt 3)))
             [PrintNode (VarNode "x");
              AssignNode "x" (BinOpNode (VarNode "x") "+" (NumberNode (VInt 1)))]])
     = true.
Proof.
  split; [vm_compute; reflexivity|].
  apply (parsed_tree_shape "x = -2 ** 0.5 while (x < 3) { print(x); x = x + 1 }").
  vm_compute. reflexivity.
Defined.
(* ===================================================================== *)
(** * The sample programs *)
(* ===================================================================== *)

(** X17.  Each of the four sample programs of the menu runs to its end in
    a fresh interpreter, with no error, and prints: the first ten Fibonacci
    numbers; 720, the factorial of 6; the numbers 1 to 15 (the program
    named FizzBuzz prints the counter only); and 1024, 271 and 5, the last
    two being floats with no fractional part, shown as ints. *)
Theorem sample_programs_output host :
  map (fun p => (fst (snd p), printed (run host (snd (snd p)) None))) SAMPLE_PROGRAMS
  = [ ("Fibonacci",
       Some (map VInt [0; 1; 1; 2; 3; 5; 8; 13; 21; 34]));
      ("Factorial", Some [VInt 720]);
      ("FizzBuzz",
       Some (map (fun n => VInt (Z.of_nat n)) (seq 1 15)));
      ("Expressions", Some [VInt 1024; VInt 271; VInt 5]) ]%string.
Proof. vm_compute. reflexivity. Qed.
(* ===================================================================== *)
(** * The values of a session *)
(* ===================================================================== *)

Section Numbers.
Variable host : HostMath.

Lemma pybind_number {A : Type} (m : pyres A) (k : A -> pyres value) v :
  (forall a w, k a = Return w -> is_number w = true) ->
  pybind m k = Return v -> is_number v = true.
Proof. intros Hk. destruct m as [a|e]; simpl; [apply Hk | discriminate]. Qed.

Lemma float_pow_number a b x y v :
  Num.float_pow host a b x y = Return v -> is_number v = true.
Proof.
  unfold Num.float_pow.
  repeat match goal with
         | |- context [if ?c then _ else _] => destruct c
         end;
    try (intros [= <-]; reflexivity); try discriminate;
    apply pybind_number; intros ? ? [= <-]; reflexivity.
Qed.

Lemma arith_number on_int on_float on_complex a b v :
  (forall x y w, on_int x y = Return w -> is_number w = true) ->
  (forall p q x y w, on_float p q x y = Return w -> is_number w = true) ->
  (forall p q w, on_complex p q = Return w -> is_number w = true) ->
  Num.arith on_int on_float on_complex a b = Return v -> is_number v = true.
Proof.
  intros Hi Hf Hc. unfold Num.arith.
  destruct a, b; try discriminate; eauto;
    apply pybind_number; intros ? ?; apply Hf.
Qed.

Lemma complex_op_number op a b v :
  Num.complex_op host op a b = Return v -> is_number v = true.
Proof. apply pybind_number. intros ? ? [= <-]. reflexivity. Qed.

Lemma int_pow_number x y v : Num.int_pow host x y = Return v -> is_number v = true.
Proof.
  unfold Num.int_pow. destruct (0 <=? y); [intros [= <-]; reflexivity|].
  apply pybind_number. intros fx w. apply pybind_number. intros fy w'.
  apply float_pow_number.
Qed.

Lemma ordering_number holds a b v :
  pybind (Num.ordering holds a b) (fun t => Return (Num.int_of_bool t)) = Return v ->
  is_number v = true.
Proof. apply pybind_number. intros ? ? [= <-]. reflexivity. Qed.

(** Every operator of the table gives a number when it gives a value. *)
Lemma apply_op_number op a b v : apply_op host op a b = Return v -> is_number v = true.
Proof.
  unfold apply_op.
  repeat match goal with
         | |- context [if String.eqb op ?s then _ else _] => destruct (String.eqb op s)
         end;
    try apply ordering_number; try (intros [= <-]; reflexivity); try discriminate.
  - apply arith_number;
      [intros x y w [= <-]; reflexivity
      |intros p q x y w; unfold Num.float_add; intros [= <-]; reflexivity
      |intros p q w; apply complex_op_number].
  - apply arith_number;
      [intros x y w [= <-]; reflexivity
      |intros p q x y w; unfold Num.float_sub; intros [= <-]; reflexivity
      |intros p q w; apply complex_op_number].
  - apply arith_number;
      [intros x y w [= <-]; reflexivity
      |intros p q x y w; unfold Num.float_mul; intros [= <-]; reflexivity
      |intros p q w; apply complex_op_number].
  - destruct (Num.py_ne b (VInt 0)); [|discriminate].
    apply arith_number; [| |intros p q w; apply complex_op_number].
    + intros x y w. unfold Num.int_true_divide. destruct (y =? 0); [discriminate|].
      destruct (Num.round_ratio _ _ _); try discriminate; intros [= <-]; reflexivity.
    + intros p q x y w. unfold Num.float_div. destruct (PrimFloat.eqb y 0); [discriminate|].
      intros [= <-]. reflexivity.
  - apply arith_number; [| |discriminate].
    + intros x y w. unfold Num.int_mod. destruct (y =? 0); [discriminate|].
      intros [= <-]. reflexivity.
    + intros p q x y w. unfold Num.float_rem. destruct (PrimFloat.eqb y 0); [discriminate|].
      intros [= <-]. reflexivity.
  - apply arith_number;
      [intros x y w; apply int_pow_number
      |intros p q x y w; apply float_pow_number
      |intros p q w; apply complex_op_number].
Qed.

Lemma py_neg_number v w : is_number v = true -> Num.py_neg v = Return w -> is_number w = true.
Proof. destruct v; simpl; intros H; try discriminate; intros [= <-]; reflexivity. Qed.

Lemma display_number v w : is_number v = true -> display v = Return w -> is_number w = true.
Proof.
  destruct v as [|z|f|re im]; simpl; intros H; try discriminate;
    try (intros [= <-]; reflexivity).
  destruct (Num.float_is_integer f); [|intros [= <-]; reflexivity].
  apply pybind_number. intros ? ? [= <-]. reflexivity.
Qed.

Lemma literal_number v : number_value v = true -> is_number v = true.
Proof. now destruct v. Qed.

Lemma numbers_store name v st :
  numbers_only st -> is_number v = true ->
  numbers_only (mkInterp (<[name := v]> (env st)) (output st)).
Proof.
  intros [He Ho] Hv. split; [|exact Ho]. simpl. intros x w Hx.
  destruct (decide (x = name)) as [->|Hne].
  - rewrite lookup_insert_eq in Hx. now injection Hx as <-.
  - rewrite lookup_insert_ne in Hx by congruence. eapply He. exact Hx.
Qed.

Lemma numbers_append v st :
  numbers_only st -> is_number v = true ->
  numbers_only (mkInterp (env st) (output st ++ [v])).
Proof.
  intros [He Ho] Hv. split; [exact He|]. simpl.
  apply List.Forall_app. split; [exact Ho | now repeat constructor].
Qed.

(** An expression keeps the session in numbers and evaluates to one. *)
Lemma expression_number e :
  is_expression e = true ->
  forall st, numbers_only st ->
    numbers_only (snd (eval host e st))
    /\ forall v, fst (eval host e st) = Ok v -> is_number v = true.
Proof.
  induction e as [v|name|l op r IHl IHr|op operand IH|name v IH|e IH
                  |c t e IHc IHt IHe|c b IHc IHb|stmts IHs] using Node_ind;
    cbn [is_expression]; intros He st Hst; try discriminate.
  - simpl. split; [exact Hst|]. intros w [= <-]. now apply literal_number.
  - cbn [eval]. unfold lookup_var. destruct (env st !! name) as [w|] eqn:E; simpl.
    + split; [exact Hst|]. intros w' [= <-]. exact (proj1 Hst _ _ E).
    + split; [exact Hst | discriminate].
  - apply andb_true_iff in He. destruct He as [He Her].
    apply andb_true_iff in He. destruct He as [Hel _].
    cbn [eval]. unfold bind.
    destruct (IHl Hel st Hst) as [Hl1 Hl2].
    destruct (eval host l st) as [[vl| | |] st1]; simpl in *;
      try (split; [exact Hl1 | discriminate]).
    destruct (IHr Her st1 Hl1) as [Hr1 Hr2].
    destruct (eval host r st1) as [[vr| | |] st2]; simpl in *;
      try (split; [exact Hr1 | discriminate]).
    unfold builtin. simpl. split; [exact Hr1|].
    destruct (apply_op host op vl vr) as [w|ex] eqn:E; simpl; [|discriminate].
    intros w' [= <-]. exact (apply_op_number _ _ _ _ E).
  - apply andb_true_iff in He. destruct He as [Hop Heo].
    cbn [eval]. unfold bind. rewrite Hop.
    destruct (IH Heo st Hst) as [H1 H2].
    destruct (eval host operand st) as [[vo| | |] st1]; simpl in *;
      try (split; [exact H1 | discriminate]).
    unfold builtin. simpl. split; [exact H1|].
    destruct (Num.py_neg vo) as [w|ex] eqn:E; simpl; [|discriminate].
    intros w' [= <-]. exact (py_neg_number _ _ (H2 _ eq_refl) E).
Qed.

Lemma forallb_Forall {A : Type} (f : A -> bool) (P : A -> Prop) l :
  Forall (fun x => f x = true -> P x) l -> forallb f l = true -> Forall P l.
Proof.
  induction 1 as [|x l Hx _ IH]; simpl; intros H; constructor;
    apply andb_true_iff in H; destruct H; auto.
Qed.

(** A statement keeps the session in numbers, whether it ends or fails. *)
Lemma statement_numbers s :
  is_statement s = true ->
  forall st, numbers_only st -> numbers_only (snd (eval host s st)).
Proof.
  induction s as [v|name|l op r IHl IHr|op operand IH|name v IH|e IH
                  |c t e IHc IHt IHe|c b IHc IHb|stmts IHs] using Node_ind;
    intros Hs st Hst.
  - exact (proj1 (expression_number _ Hs st Hst)).
  - exact (proj1 (expression_number _ Hs st Hst)).
  - exact (proj1 (expression_number _ Hs st Hst)).
  - exact (proj1 (expression_number _ Hs st Hst)).
  - cbn [is_statement] in Hs. apply andb_true_iff in Hs. destruct Hs as [_ He].
    cbn [eval]. unfold bind.
    destruct (expression_number v He st Hst) as [H1 H2].
    destruct (eval host v st) as [[w| | |] st1]; simpl in *; try exact H1.
    apply numbers_store; [exact H1 | now apply H2].
  - cbn [is_statement] in Hs. cbn [eval]. unfold bind.
    destruct (expression_number e Hs st Hst) as [H1 H2].
    destruct (eval host e st) as [[w| | |] st1]; simpl in *; try exact H1.
    unfold builtin. simpl.
    destruct (display w) as [shown|ex] eqn:E; simpl; [|exact H1].
    apply numbers_append; [exact H1|].
    exact (display_number _ _ (H2 _ eq_refl) E).
  - cbn [is_statement] in Hs. apply andb_true_iff in Hs. destruct Hs as [Hs Hel].
    apply andb_true_iff in Hs. destruct Hs as [Hc Ht].
    cbn [eval]. unfold bind.
    destruct (expression_number c Hc st Hst) as [H1 _].
    destruct (eval host c st) as [[w| | |] st1]; simpl in *; try exact H1.
    destruct (Num.truthy w).
    + pose proof (invariant_eval_each host numbers_only t (forallb_Forall _ _ _ IHt Ht)
                  VNone st1 H1) as H.
      destruct (eval_each (eval host) t VNone st1) as [[w'| | |] st2]; exact H.
    + destruct e as [[|s stmts]|]; try exact H1.
      pose proof (invariant_eval_each host numbers_only _ (forallb_Forall _ _ _ IHe Hel)
                  VNone st1 H1) as H.
      destruct (eval_each (eval host) (s :: stmts) VNone st1) as [[w'| | |] st2]; exact H.
  - cbn [is_statement] in Hs. apply andb_true_iff in Hs. destruct Hs as [Hc Hb].
    cbn [eval]. apply (invariant_while_loop numbers_only); [| |exact Hst].
    + intros st0 H0. exact (proj1 (expression_number c Hc st0 H0)).
    + intros st0 H0.
      exact (invariant_eval_each host numbers_only b (forallb_Forall _ _ _ IHb Hb)
               VNone st0 H0).
  - discriminate Hs.
Qed.

Lemma program_numbers ast :
  is_program ast = true ->
  forall st, numbers_only st -> numbers_only (snd (eval host ast st)).
Proof.
  destruct ast as [| | | | | | | |stmts]; try discriminate. intros Hp st Hst.
  cbn [eval]. apply (invariant_eval_each host numbers_only); [|exact Hst].
  apply (forallb_Forall is_statement); [|exact Hp].
  apply Forall_forall. intros s _ Hs. now apply statement_numbers.
Qed.
End Numbers.

(** X19.  A session holds numbers only.  When every variable and every
    entry of the output log of the interpreter is an int, a float or a
    complex number, the same is true after [run] on any source text,
    whether the program ended, failed with a reported error or let an
    exception escape: [None], the value of an [if], of a [while] and of an
    empty program, is never stored in a variable and never printed. *)
Theorem session_holds_numbers host source st :
  numbers_only st ->
  exists st', left_behind (run host source (Some st)) = Some st' /\ numbers_only st'.
Proof.
  intros Hst. unfold run.
  assert (forall e st0, numbers_only st0 ->
            exists st', left_behind (handle e st0) = Some st' /\ numbers_only st') as Hh.
  { intros e st0 H0. exists st0. split; [|exact H0].
    unfold handle. now destruct (caught_by_run e). }
  destruct (Lexer.tokenize source) as [tokens|e| |] eqn:Ht.
  - destruct (parse_tokenized source tokens Ht) as [[ast Hp]|[e [Hp _]]]; rewrite Hp;
      [|now apply Hh].
    pose proof (parse_shape tokens (tokenize_canonical _ _ Ht) ast Hp) as Hprog.
    pose proof (program_numbers host ast Hprog st Hst) as Hn.
    pose proof (eval_defined host ast st) as Hd.
    destruct (eval host ast st) as [[v|e| |] st1]; simpl in *; try contradiction.
    + exists st1. now split.
    + now apply Hh.
  - now apply Hh.
  - destruct (tokenize_total source) as [[ts H]|[[c [ln H]]|H]]; congruence.
  - destruct (tokenize_total source) as [[ts H]|[[c [ln H]]|H]]; congruence.
Qed.

Lemma session_holds_numbers_witness :
  exists st',
    left_behind (run example_host "x = 3 / 2; if (x) { print(x) } y = z" (Some new_interpreter))
    = Some st'
    /\ numbers_only st'.
Proof.
  apply (session_holds_numbers example_host "x = 3 / 2; if (x) { print(x) } y = z"
           new_interpreter).
  split; [|constructor]. simpl. intros name v H.
  rewrite lookup_empty in H. discriminate.
Defined.

(* ===================================================================== *)
(** * A program in two calls of run *)
(* ===================================================================== *)

Section TwoSteps.
Variable host : HostMath.

(** [run] on a text with a tree. *)
Lemma run_parse_text source ast st :
  parse_text source = Ok ast ->
  run host source (Some st)
  = match eval host ast st with
    | (Ok _, st') => Returned st' None
    | (Raise e, st') => handle e st'
    | ((OutOfFuel | IllTyped), _) => Undefined
    end.
Proof.
  unfold parse_text. intros H.
  destruct (Lexer.tokenize source) as [tokens| | |] eqn:Ht; try discriminate.
  now apply run_parsed with tokens.
Qed.

(** What [run] makes of the evaluation of a block does not depend on the
    value the loop over its statements starts with. *)
Lemma eval_each_start stmts v v' st :
  match eval_each (eval host) stmts v st with
  | (Ok _, st') => Returned st' None
  | (Raise e, st') => handle e st'
  | ((OutOfFuel | IllTyped), _) => Undefined
  end
  = match eval_each (eval host) stmts v' st with
    | (Ok _, st') => Returned st' None
    | (Raise e, st') => handle e st'
    | ((OutOfFuel | IllTyped), _) => Undefined
    end.
Proof. destruct stmts; reflexivity. Qed.
End TwoSteps.

(** X20.  A program can be run in two calls.  When a text is the
    statements of a first text followed by those of a second one, [run] on
    the whole does what [run] on the first and then, on the interpreter it
    returned, [run] on the second do: the same interpreter comes back, with
    the same report.  If the first call reports an error or lets an
    exception escape, that is the outcome of the whole, and the second part
    is not run. *)
Theorem run_in_two_steps host source first second s1 s2 st :
  parse_text source = Ok (BlockNode (s1 ++ s2)) ->
  parse_text first = Ok (BlockNode s1) ->
  parse_text second = Ok (BlockNode s2) ->
  run host source (Some st)
  = match run host first (Some st) with
    | Returned st1 None => run host second (Some st1)
    | other => other
    end.
Proof.
  intros H H1 H2.
  rewrite (run_parse_text host _ _ st H), (run_parse_text host _ _ st H1).
  cbn [eval]. rewrite eval_each_app.
  destruct (eval_each (eval host) s1 VNone st) as [[v| | |] st1]; try reflexivity.
  - rewrite (run_parse_text host _ _ st1 H2). cbn [eval]. apply eval_each_start.
  - unfold handle. destruct (caught_by_run e); reflexivity.
Qed.

Lemma run_in_two_steps_witness :
  run example_host "x = 2 print(x) y = x * 3 print(y)" (Some new_interpreter)
  = match run example_host "x = 2 print(x)" (Some new_interpreter) with
    | Returned st1 None => run example_host "y = x * 3 print(y)" (Some st1)
    | other => other
    end.
Proof.
  apply (run_in_two_steps example_host
           "x = 2 print(x) y = x * 3 print(y)" "x = 2 print(x)" "y = x * 3 print(y)"
           [AssignNode "x" (NumberNode (VInt 2)); PrintNode (VarNode "x")]
           [AssignNode "y" (BinOpNode (VarNode "x") "*" (NumberNode (VInt 3)));
            PrintNode (VarNode "y")]
           new_interpreter);
    vm_compute; reflexivity.
Defined.
(* ===================================================================== *)
(** * Conditions and bodies *)
(* ===================================================================== *)

Section Conditions.
Variable host : HostMath.

Lemma float_eqb_zero f : PrimFloat.eqb f 0 = float_is_zero f.
Proof.
  rewrite FloatAxioms.eqb_spec. unfold float_is_zero.
  destruct (Prim2SF f) as [s|s| |s m e]; try destruct s; reflexivity.
Qed.

(** Python's truth value, read off the value. *)
Lemma truthy_counts v : Num.truthy v = negb (counts_as_false v).
Proof.
  unfold counts_as_false. destruct v as [|z|f|re im]; simpl.
  - reflexivity.
  - now rewrite orb_false_r.
  - now rewrite float_eqb_zero, orb_false_r.
  - now rewrite !float_eqb_zero, orb_false_r, negb_andb.
Qed.
End Conditions.

(** X21.  Which branch an [if] takes.  The condition is evaluated once.  It
    counts as false when its value is a zero (the int 0, a float zero of
    either sign, a complex zero) or [None], and as true otherwise, a NaN
    included.  On true the statements of the then-body run; on false those
    of the else-body, if there is one; an else-body with no statement is
    the same as none.  The [if] has the value [None], and a failure of a
    statement of the branch is the failure of the [if].  A [while] whose
    condition counts as false at once runs nothing of its body. *)
Theorem if_chooses_branch host c then_body else_body st v st1 :
  eval host c st = (Ok v, st1) ->
  eval host (IfNode c then_body else_body) st
  = match eval_each (eval host) (chosen_branch v then_body else_body) VNone st1 with
    | (Ok _, st2) => (Ok VNone, st2)
    | other => other
    end
  /\ (counts_as_false v = true ->
      forall body, eval host (WhileNode c body) st = (Ok VNone, st1)).
Proof.
  intros Hc. split.
  - cbn [eval]. unfold bind at 1. rewrite Hc. cbn match.
    unfold chosen_branch. rewrite truthy_counts.
    destruct (counts_as_false v); cbn [negb].
    + destruct else_body as [[|s stmts]|]; reflexivity.
    + reflexivity.
  - intros Hf body. cbn [eval]. unfold while_fuel.
    change (Z.to_nat (MAX_ITERATIONS + 1)) with (S (Z.to_nat MAX_ITERATIONS)).
    cbn [while_loop]. unfold bind. rewrite Hc. cbn match.
    rewrite truthy_counts, Hf. reflexivity.
Qed.

Lemma if_chooses_branch_witness :
  eval example_host
    (IfNode (BinOpNode (NumberNode (VFloat 0)) "*" (NumberNode (VInt (-1))))
       [PrintNode (NumberNode (VInt 1))] (Some [PrintNode (NumberNode (VInt 2))]))
    new_interpreter
  = (Ok VNone, mkInterp ∅ [VInt 2]).
Proof.
  apply (if_chooses_branch example_host
           (BinOpNode (NumberNode (VFloat 0)) "*" (NumberNode (VInt (-1))))
           [PrintNode (NumberNode (VInt 1))] (Some [PrintNode (NumberNode (VInt 2))])
           new_interpreter (VFloat (-0)) new_interpreter).
  vm_compute. reflexivity.
Defined.

(** X22.  A property of the interpreter that the parts keep, the whole
    keeps.  If the condition and every statement of the body leave a
    property of the state true whenever they start with it, whether they
    end or fail, then so does the [while] loop, however many rounds it
    makes and however it ends; the same for an [if] and its two bodies,
    and for a block and its statements. *)
Theorem control_keeps_invariant host (I : Interp -> Prop) c body orelse :
  (forall st, I st -> I (snd (eval host c st))) ->
  Forall (fun stmt => forall st, I st -> I (snd (eval host stmt st))) body ->
  Forall (fun stmt => forall st, I st -> I (snd (eval host stmt st))) orelse ->
  forall st, I st ->
    I (snd (eval host (WhileNode c body) st))
    /\ I (snd (eval host (IfNode c body (Some orelse)) st))
    /\ I (snd (eval host (IfNode c body None) st))
    /\ I (snd (eval host (BlockNode body) st)).
Proof.
  intros Hc Hb Ho st Hst.
  pose proof (invariant_eval_each host I body Hb) as Hbody.
  pose proof (invariant_eval_each host I orelse Ho) as Horelse.
  assert (forall stmts st0,
            (forall v st, I st -> I (snd (eval_each (eval host) stmts v st))) ->
            I st0 ->
            I (snd (bind (eval_each (eval host) stmts VNone) (fun _ => ret VNone) st0)))
    as Hthen.
  { intros stmts st0 H H0. unfold bind. specialize (H VNone st0 H0).
    destruct (eval_each (eval host) stmts VNone st0) as [[w| | |] st2]; exact H. }
  split; [|split; [|split]].
  - cbn [eval]. apply invariant_while_loop; [exact Hc | apply Hbody | exact Hst].
  - cbn [eval]. unfold bind at 1. specialize (Hc st Hst).
    destruct (eval host c st) as [[w| | |] st1]; simpl in *; try exact Hc.
    destruct (Num.truthy w); [now apply Hthen|].
    destruct orelse as [|s stmts]; [exact Hc | now apply Hthen].
  - cbn [eval]. unfold bind at 1. specialize (Hc st Hst).
    destruct (eval host c st) as [[w| | |] st1]; simpl in *; try exact Hc.
    destruct (Num.truthy w); [now apply Hthen | exact Hc].
  - cbn [eval]. now apply Hbody.
Qed.

Lemma control_keeps_invariant_witness :
  output (snd (eval example_host
                 (WhileNode (BinOpNode (VarNode "n") "<" (NumberNode (VInt 3)))
                    [AssignNode "n" (BinOpNode (VarNode "n") "+" (NumberNode (VInt 1)))])
                 (mkInterp (<["n"%string := VInt 0]> ∅) [])))
  = [].
Proof.
  apply (control_keeps_invariant example_host (fun st => output st = [])
           (BinOpNode (VarNode "n") "<" (NumberNode (VInt 3)))
           [AssignNode "n" (BinOpNode (VarNode "n") "+" (NumberNode (VInt 1)))] []).
  - intros st H. rewrite <- H. now apply eval_changes.
  - repeat constructor. intros st H. rewrite <- H. now apply eval_changes.
  - constructor.
  - reflexivity.
Defined.

Section NeedsParenthesis.
Import Parser.
Variable tokens : list Token.

Lemma eat_mismatch k pos tok :
  tokens !! pos = Some tok -> type tok <> k ->
  eat tokens k pos = Raise (SyntaxError (ParserExpected k tok)).
Proof.
  intros Htok Hne. unfold eat. unfold bind at 1. rewrite (current_at _ _ _ Htok).
  destruct (TokenType.eqb (type tok) k) eqn:E; [|reflexivity].
  apply TokenType_eqb_eq in E. contradiction.
Qed.

(** A statement that starts with one of the three keywords and goes on
    with anything but a parenthesis. *)
Lemma statement_needs_parenthesis fuel pos tok0 tok1 :
  tokens !! pos = Some tok0 -> tokens !! S pos = Some tok1 ->
  In (type tok0) statement_keywords -> type tok1 <> LPAREN ->
  statement tokens (S (S fuel)) pos = Raise (SyntaxError (ParserExpected LPAREN tok1)).
Proof.
  intros H0 H1 Hk Hne. cbn [statement]. unfold bind at 1.
  rewrite (current_at _ _ _ H0).
  pose proof (eat_mismatch LPAREN (S pos) tok1 H1 Hne) as Hp.
  simpl in Hk. destruct Hk as [Hk|[Hk|[Hk|[]]]]; rewrite <- Hk; cbn [TokenType.eqb TokenType.tag Nat.eqb].
  - unfold bind at 1. cbn [advance]. unfold bind at 1. now rewrite Hp.
  - cbn [if_stmt]. unfold bind at 1.
    rewrite (eat_ok tokens pos tok0 IF H0 (eq_sym Hk)).
    unfold bind at 1. now rewrite Hp.
  - cbn [while_stmt]. unfold bind at 1.
    rewrite (eat_ok tokens pos tok0 WHILE H0 (eq_sym Hk)).
    unfold bind at 1. now rewrite Hp.
Qed.
End NeedsParenthesis.

(** X23.  [print], [if] and [while] need their parenthesis.  When the
    first token of a text is one of these keywords and the next token is
    not an opening parenthesis, [parse] fails with the SyntaxError that
    says what was expected, LPAREN, and names the token found instead. *)
Theorem keyword_needs_parenthesis tok0 tok1 rest :
  In (type tok0) statement_keywords ->
  type tok1 <> LPAREN ->
  Parser.parse (tok0 :: tok1 :: rest) = Raise (SyntaxError (ParserExpected LPAREN tok1)).
Proof.
  intros Hk Hne. unfold Parser.parse.
  assert (exists fuel, Parser.parse_fuel (tok0 :: tok1 :: rest) = S (S (S fuel))) as [fuel ->].
  { unfold Parser.parse_fuel. cbn [length Nat.mul Nat.add]. eauto. }
  cbn [Parser.statements_until]. unfold Parser.bind at 1.
  rewrite (current_at (tok0 :: tok1 :: rest) 0 tok0 eq_refl).
  assert (TokenType.eqb (type tok0) EOF = false) as ->.
  { simpl in Hk. destruct Hk as [<-|[<-|[<-|[]]]]; reflexivity. }
  cbn [negb]. unfold Parser.bind at 1.
  now rewrite (statement_needs_parenthesis (tok0 :: tok1 :: rest) fuel 0 tok0 tok1
                 eq_refl eq_refl Hk Hne).
Qed.

Lemma keyword_needs_parenthesis_witness :
  Parser.parse [mkToken PRINT (TStr "print") 1; mkToken IDENT (TStr "x") 1; eof_token 1]
  = Raise (SyntaxError (ParserExpected LPAREN (mkToken IDENT (TStr "x") 1))).
Proof.
  apply (keyword_needs_parenthesis (mkToken PRINT (TStr "print") 1)
           (mkToken IDENT (TStr "x") 1) [eof_token 1]).
  - simpl. auto.
  - discriminate.
Defined.
(* ===================================================================== *)
(** * The exceptions of a program *)
(* ===================================================================== *)

Section Exceptions.
Variable host : HostMath.

Lemma pybind_throw {A B : Type} (m : pyres A) (k : A -> pyres B) e :
  pybind m k = Throw e -> m = Throw e \/ exists a, k a = Throw e.
Proof. destruct m as [a|e']; simpl; intros H; [right; eauto | left; congruence]. Qed.

Lemma int_to_float_throw z e : Num.int_to_float z = Throw e -> e = OverflowError.
Proof.
  unfold Num.int_to_float.
  destruct (binary_normalize Num.prec Num.emax z 0 false); try discriminate.
  now intros [= <-].
Qed.

Lemma expected_libm x y e : libm_pow host x y = Throw e -> expected host e.
Proof. intros H. right. right. right. right. left. eauto. Qed.

Lemma expected_complex op a b e : complex_arith host op a b = Throw e -> expected host e.
Proof. intros H. right. right. right. right. right. eauto. Qed.

Lemma complex_op_throw op a b e : Num.complex_op host op a b = Throw e -> expected host e.
Proof.
  unfold Num.complex_op. intros H. apply pybind_throw in H.
  destruct H as [H|[c H]]; [now apply expected_complex in H | discriminate].
Qed.

Lemma float_pow_throw a b x y e : Num.float_pow host a b x y = Throw e -> expected host e.
Proof.
  unfold Num.float_pow.
  repeat match goal with
         | |- context [if ?c then _ else _] => destruct c
         end;
    try discriminate; try (intros [= <-]; left; reflexivity);
    intros H; apply pybind_throw in H; destruct H as [H|[c H]]; try discriminate;
    first [now apply expected_libm in H | now apply expected_complex in H].
Qed.

Lemma arith_throw on_int on_float on_complex a b e :
  (forall x y, on_int x y = Throw e -> expected host e) ->
  (forall p q x y, on_float p q x y = Throw e -> expected host e) ->
  (forall p q, on_complex p q = Throw e -> expected host e) ->
  Num.arith on_int on_float on_complex a b = Throw e -> expected host e.
Proof.
  intros Hi Hf Hc. unfold Num.arith.
  destruct a, b; eauto;
    try (intros [= <-]; right; left; reflexivity);
    intros H; apply pybind_throw in H; destruct H as [H|[c H]]; eauto;
    apply int_to_float_throw in H; subst e; right; right; left; reflexivity.
Qed.

Lemma int_pow_throw x y e : Num.int_pow host x y = Throw e -> expected host e.
Proof.
  unfold Num.int_pow. destruct (0 <=? y); [discriminate|]. intros H.
  apply pybind_throw in H. destruct H as [H|[fx H]].
  { apply int_to_float_throw in H. subst e. right. right. left. reflexivity. }
  apply pybind_throw in H. destruct H as [H|[fy H]].
  { apply int_to_float_throw in H. subst e. right. right. left. reflexivity. }
  now apply float_pow_throw in H.
Qed.

Lemma ordering_throw holds a b e :
  pybind (Num.ordering holds a b) (fun t => Return (Num.int_of_bool t)) = Throw e ->
  expected host e.
Proof.
  intros H. destruct (ordering_answer holds a b) as [[t Ht]|[Ht _]]; rewrite Ht in H.
  - discriminate.
  - injection H as <-. right. left. reflexivity.
Qed.

(** An operator of the table raises expected exceptions only. *)
Lemma apply_op_throw op a b e :
  known_operator op = true -> apply_op host op a b = Throw e -> expected host e.
Proof.
  unfold apply_op, known_operator. cbn [map snd binary_operators existsb].
  repeat match goal with
         | |- context [if String.eqb op ?s then _ else _] =>
             destruct (String.eqb op s)
         end;
    try (intros Hk; simpl in Hk; discriminate Hk);
    intros _; try apply ordering_throw; try discriminate.
  - apply arith_throw;
      [discriminate | intros p q x y; discriminate | intros p q; apply complex_op_throw].
  - apply arith_throw;
      [discriminate | intros p q x y; discriminate | intros p q; apply complex_op_throw].
  - apply arith_throw;
      [discriminate | intros p q x y; discriminate | intros p q; apply complex_op_throw].
  - destruct (Num.py_ne b (VInt 0)); [|intros [= <-]; left; reflexivity].
    apply arith_throw; [| |intros p q; apply complex_op_throw].
    + intros x y. unfold Num.int_true_divide.
      destruct (y =? 0); [intros [= <-]; left; reflexivity|].
      destruct (Num.round_ratio _ _ _); try discriminate.
      intros [= <-]. right. right. left. reflexivity.
    + intros p q x y. unfold Num.float_div.
      destruct (PrimFloat.eqb y 0); [intros [= <-]; left; reflexivity | discriminate].
  - apply arith_throw.
    + intros x y. unfold Num.int_mod.
      destruct (y =? 0); [intros [= <-]; left; reflexivity | discriminate].
    + intros p q x y. unfold Num.float_rem.
      destruct (PrimFloat.eqb y 0); [intros [= <-]; left; reflexivity | discriminate].
    + intros p q [= <-]. right. left. reflexivity.
  - apply arith_throw;
      [intros x y; apply int_pow_throw
      |intros p q x y; apply float_pow_throw
      |intros p q; apply complex_op_throw].
Qed.

Lemma py_neg_throw v e : Num.py_neg v = Throw e -> expected host e.
Proof. destruct v; simpl; try discriminate. intros [= <-]. right. left. reflexivity. Qed.

Lemma display_throw v e : display v = Throw e -> False.
Proof. destruct (display_spec v) as (shown & -> & _). discriminate. Qed.

Lemma print_line_throw v e : Console.print_line v = Throw e -> e = ValueError.
Proof.
  destruct v as [|z|f|re im]; try discriminate. unfold Console.print_line.
  destruct (10 ^ Lexer.MAX_STR_DIGITS <=? Z.abs z); [|discriminate]. now intros [= <-].
Qed.

Lemma raises_bind {A B : Type} (m : M A) (k : A -> M B) :
  raises_expected host m -> (forall a, raises_expected host (k a)) ->
  raises_expected host (bind m k).
Proof.
  intros Hm Hk st e st'. unfold bind.
  destruct (m st) as [[a| | |] st1] eqn:E; try discriminate.
  - apply Hk.
  - intros [= <- <-]. exact (Hm _ _ _ E).
Qed.

Lemma raises_ret {A : Type} (a : A) : raises_expected host (ret a).
Proof. intros st e st'. discriminate. Qed.

Lemma raises_eval_each stmts :
  Forall (fun stmt => raises_expected host (Console.eval host stmt)) stmts ->
  forall v, raises_expected host (eval_each (Console.eval host) stmts v).
Proof.
  induction 1 as [|stmt stmts Hs _ IH]; intros v; simpl; [apply raises_ret|].
  apply raises_bind; [exact Hs | exact IH].
Qed.

Lemma raises_while_loop (condition body : M value) :
  raises_expected host condition -> raises_expected host body ->
  forall fuel iterations, raises_expected host (while_loop condition body fuel iterations).
Proof.
  intros Hc Hb. induction fuel as [|fuel IH]; intros iterations; simpl.
  - intros st e st'. discriminate.
  - apply raises_bind; [exact Hc|]. intros c.
    destruct (Num.truthy c); [|apply raises_ret].
    destruct (MAX_ITERATIONS <? iterations + 1).
    + intros st e st' [= <- <-]. left. reflexivity.
    + apply raises_bind; [exact Hb | intros _; apply IH].
Qed.

Lemma raises_builtin (r : pyres value) :
  (forall e, r = Throw e -> expected host e) -> raises_expected host (builtin r).
Proof.
  intros H st e st'. unfold builtin. destruct r as [v|e']; simpl; [discriminate|].
  intros [= <- <-]. now apply H.
Qed.

(** A tree of the grammar raises expected exceptions only. *)
Lemma statement_raises s :
  is_statement s = true -> raises_expected host (Console.eval host s).
Proof.
  induction s as [v|name|l op r IHl IHr|op operand IH|name v IH|e IH
                  |c t e IHc IHt IHe|c b IHc IHb|stmts IHs] using Node_ind;
    cbn [is_statement is_expression]; intros Hs; cbn [Console.eval].
  - apply raises_ret.
  - intros st ex st'. unfold lookup_var. destruct (env st !! name); [discriminate|].
    intros [= <- <-]. left. reflexivity.
  - apply andb_true_iff in Hs. destruct Hs as [Hs Hr].
    apply andb_true_iff in Hs. destruct Hs as [Hl Hop].
    apply raises_bind; [apply IHl; now apply expression_is_statement|]. intros a.
    apply raises_bind; [apply IHr; now apply expression_is_statement|]. intros b.
    apply raises_builtin. intros ex. now apply apply_op_throw.
  - apply andb_true_iff in Hs. destruct Hs as [Hop Ho].
    apply raises_bind; [apply IH; now apply expression_is_statement|]. intros a.
    rewrite Hop. apply raises_builtin. intros ex. apply py_neg_throw.
  - apply andb_true_iff in Hs. destruct Hs as [_ He].
    apply raises_bind; [apply IH; now apply expression_is_statement|]. intros a.
    apply raises_bind; [intros st ex st'; discriminate|]. intros _. apply raises_ret.
  - apply raises_bind; [apply IH; now apply expression_is_statement|]. intros a.
    apply raises_bind.
    { apply raises_builtin. intros ex H. destruct (display_throw _ _ H). }
    intros r. apply raises_bind.
    { intros st ex st'. unfold builtin.
      destruct (Console.print_line r) as [u|ex'] eqn:E; simpl; [discriminate|].
      intros [= <- <-]. apply print_line_throw in E. subst ex'.
      right. right. right. left. reflexivity. }
    intros _. apply raises_bind; [intros st ex st'; discriminate|]. intros _.
    apply raises_ret.
  - apply andb_true_iff in Hs. destruct Hs as [Hs Hel].
    apply andb_true_iff in Hs. destruct Hs as [Hc Ht].
    apply raises_bind; [apply IHc; now apply expression_is_statement|]. intros a.
    destruct (Num.truthy a).
    + apply raises_bind; [|intros _; apply raises_ret].
      apply raises_eval_each. exact (forallb_Forall _ _ _ IHt Ht).
    + destruct e as [[|s stmts]|]; try apply raises_ret.
      apply raises_bind; [|intros _; apply raises_ret].
      apply raises_eval_each. exact (forallb_Forall _ _ _ IHe Hel).
  - apply andb_true_iff in Hs. destruct Hs as [Hc Hb].
    apply raises_while_loop; [apply IHc; now apply expression_is_statement|].
    apply raises_eval_each. exact (forallb_Forall _ _ _ IHb Hb).
  - discriminate.
Qed.

Lemma program_raises ast :
  is_program ast = true -> raises_expected host (Console.eval host ast).
Proof.
  destruct ast as [| | | | | | | |stmts]; try discriminate. intros Hp.
  cbn [Console.eval]. apply raises_eval_each.
  apply (forallb_Forall is_statement); [|exact Hp].
  apply Forall_forall. intros s _ Hs. now apply statement_raises.
Qed.
End Exceptions.

(** X24.  What can escape from [run], the line that [print] writes
    included.  An exception that [run] does not catch is a TypeError or an
    OverflowError of Python's arithmetic, the ValueError of the digit limit
    of [int] and [str], or an exception raised by the host's [pow] or
    complex arithmetic: never a KeyError of the table of operators or an
    IndexError of the token list.  The ValueError does escape, in two ways:
    from [int] on a literal of more than 4300 digits, with nothing run, and
    from the line of a [print] of an int of more than 4300 digits, with
    nothing appended to the output. *)
Theorem escaping_exceptions host :
  (forall source interpreter e st',
     Console.run host source interpreter = Uncaught e st' ->
     e = TypeError \/ e = OverflowError \/ e = ValueError \/ host_raises host e)
  /\ (forall c d st,
        Lexer.is_digit c = true -> all_chars Lexer.is_digit d = true ->
        Lexer.MAX_STR_DIGITS < Z.of_nat (String.length (String c d)) ->
        Console.run host (String c d) (Some st) = Uncaught ValueError st)
  /\ Console.run host "print(10 ** 4300)" None = Uncaught ValueError new_interpreter
  /\ Console.run host "print(10 ** 4300 - 1)" None
     = Returned (mkInterp ∅ [VInt (10 ^ 4300 - 1)]) None.
Proof.
  split; [|split; [|split]].
  - intros source interpreter e st'. unfold Console.run.
    set (st := match interpreter with None => new_interpreter | Some i => i end).
    assert (forall e0 st0, expected host e0 -> handle e0 st0 = Uncaught e st' ->
              e = TypeError \/ e = OverflowError \/ e = ValueError \/ host_raises host e)
      as Hh.
    { intros e0 st0 He. unfold handle. destruct (caught_by_run e0) eqn:Ec; [discriminate|].
      intros [= <- <-]. destruct He as [He|He]; [congruence | exact He]. }
    destruct (Lexer.tokenize source) as [tokens|e0| |] eqn:Ht; try discriminate.
    + destruct (parse_tokenized source tokens Ht) as [[ast Hp]|[e0 [Hp He0]]]; rewrite Hp.
      * pose proof (parse_shape tokens (tokenize_canonical _ _ Ht) ast Hp) as Hprog.
        pose proof (program_raises host ast Hprog st) as Hr.
        destruct (Console.eval host ast st) as [[v|e0| |] st1]; try discriminate.
        apply Hh. exact (Hr _ _ eq_refl).
      * apply Hh. left. now apply parser_error_caught.
    + apply Hh.
      destruct (tokenize_total source) as [[ts H]|[[c [ln H]]|H]]; [congruence| |];
        rewrite H in Ht; injection Ht as <-.
      * now left.
      * right. right. right. now left.
  - intros c d st Hc Hd Hlen. unfold Console.run.
    now rewrite (tokenize_long_digits c d Hc Hd Hlen).
  - vm_compute. reflexivity.
  - vm_compute. reflexivity.
Qed.

Lemma escaping_exceptions_witness :
  Console.run example_host "10 ** 400 % 0.0" None = Uncaught OverflowError new_interpreter
  /\ (OverflowError = TypeError \/ OverflowError = OverflowError
      \/ OverflowError = ValueError \/ host_raises example_host OverflowError).
Proof.
  split; [vm_compute; reflexivity|].
  apply (proj1 (escaping_exceptions example_host) "10 ** 400 % 0.0" None OverflowError
           new_interpreter).
  vm_compute. reflexivity.
Defined.
(* ===================================================================== *)
(** * Comparisons in a row *)
(* ===================================================================== *)

(** X25.  Comparisons do not chain.  [x < y < z] is the comparison of the
    result of [x < y], the int 1 or 0, with [z]: it is not the conjunction
    of [x < y] and [y < z] that Python makes of it.  So [3 < 2 < 1] is 1,
    since 0 < 1, and [1 < 2 < 2] is 1 as well. *)
Theorem comparisons_do_not_chain host x y z ln st :
  Parser.parse
    (three_operands (OpNumber (VInt x)) (LT, "<"%string) (OpNumber (VInt y))
       (LT, "<"%string) (OpNumber (VInt z)) ln)
  = Ok (BlockNode
          [BinOpNode (BinOpNode (NumberNode (VInt x)) "<" (NumberNode (VInt y))) "<"
             (NumberNode (VInt z))])
  /\ eval host
       (BinOpNode (BinOpNode (NumberNode (VInt x)) "<" (NumberNode (VInt y))) "<"
          (NumberNode (VInt z))) st
     = (Ok (Num.int_of_bool ((if x <? y then 1 else 0) <? z)), st)
  /\ run host "print(3 < 2 < 1) print(1 < 2 < 2)" None
     = Returned (mkInterp ∅ [VInt 1; VInt 1]) None.
Proof.
  split; [reflexivity|]. split; [|vm_compute; reflexivity].
  cbn [eval]. unfold bind, ret, builtin, apply_op. simpl.
  unfold Num.py_lt, Num.ordering. simpl. unfold Z.ltb.
  destruct (x ?= y); reflexivity.
Qed.
